(** * cocktail-api: the create / read reconciliation of [main.py]

    A shallow embedding of [src/main.py]: the SQLAlchemy tables as lists of
    rows in storage order, the session as a small state-and-exception monad,
    and the three endpoints [create_cocktail], [get_cocktails] and
    [get_cocktail] written on top of it, followed by the properties of the
    specification that concern them. *)

From Stdlib Require Import ZArith List String Bool Sorted Permutation Lia.
Import ListNotations.

Local Open Scope string_scope.
Local Open Scope Z_scope.
Local Open Scope list_scope.

(** ** SQLAlchemy models (main.py, lines 14-82)

    A Python [int] is a [Z], a [String] column that may hold NULL is an
    [option string].  [Tag.name], [Tag.type] and [Garnish.name] are only
    ever written with a [str], and [Instruction.step_number] only ever with
    an [int], so they are plain strings and a plain [Z] here: a NULL in one
    of these columns, which only a row written by other means can hold, is
    outside the embedding. *)

Module Cocktail.
Record t := mk
  { id : Z;
    title : string;
    author : option string;
    description : option string;
    difficulty : option string;
    glass_type : option string;
    cover_image : option string }.
End Cocktail.

Module Ingredient.
Record t := mk { id : Z; name : string }.
End Ingredient.

Module CocktailIngredient.
Record t := mk
  { id : Z;
    cocktail_id : Z;
    ingredient_id : Z;
    quantity : option string;
    unit : option string;
    notes : option string }.
End CocktailIngredient.

Module Instruction.
Record t := mk
  { id : Z;
    cocktail_id : Z;
    step_number : Z;
    instruction_text : string }.
End Instruction.

Module Tag.
(** [type] is ['tag'] or ['flavor_tag']. *)
Record t := mk { id : Z; name : string; type : string }.
End Tag.

Module Garnish.
Record t := mk { id : Z; name : string }.
End Garnish.

(** ** Pydantic models (main.py, lines 85-137) *)

Module IngredientCreate.
Record t := mk
  { name : string;
    quantity : option string;
    unit : option string;
    notes : option string }.
End IngredientCreate.

Module MetadataCreate.
Record t := mk
  { difficulty : option string;
    glass_type : option string;
    garnish : option (list string);
    tags : option (list string);
    flavor_tags : option (list string);
    cover_image : option string }.
End MetadataCreate.

Module CocktailCreate.
Record t := mk
  { title : string;
    author : option string;
    description : option string;
    ingredients : list IngredientCreate.t;
    instructions : list string;
    metadata : option MetadataCreate.t }.
End CocktailCreate.

Module IngredientRead.
Record t := mk
  { name : string;
    quantity : option string;
    unit : option string;
    notes : option string }.
End IngredientRead.

Module MetadataRead.
Record t := mk
  { difficulty : option string;
    glass_type : option string;
    garnish : list string;
    tags : list string;
    flavor_tags : list string;
    cover_image : option string }.
End MetadataRead.

Module CocktailRead.
Record t := mk
  { id : Z;
    title : string;
    author : option string;
    description : option string;
    ingredients : list IngredientRead.t;
    instructions : list string;
    metadata : MetadataRead.t }.
End CocktailRead.

(** The request body of [POST /cocktails] before Pydantic has looked at
    it.  Under every key of a JSON object Pydantic finds nothing (the key
    is absent, or null), or a value that it cannot read as the declared
    type (a list where a string is declared, a string where a list is, an
    object where a string is, ...), or a value that it reads as the
    declared type. *)

Inductive Field (A : Type) :=
| Absent
| IllTyped
| Given (a : A).

Arguments Absent {A}.
Arguments IllTyped {A}.
Arguments Given {A} a.

Module IngredientBody.
Record t := mk
  { name : Field string;
    quantity : Field string;
    unit : Field string;
    notes : Field string }.
End IngredientBody.

Module MetadataBody.
Record t := mk
  { difficulty : Field string;
    glass_type : Field string;
    garnish : Field (list string);
    tags : Field (list string);
    flavor_tags : Field (list string);
    cover_image : Field string }.
End MetadataBody.

Module CocktailBody.
Record t := mk
  { title : Field string;
    author : Field string;
    description : Field string;
    ingredients : Field (list IngredientBody.t);
    instructions : Field (list string);
    metadata : Field MetadataBody.t }.
End CocktailBody.

(** ** The database

    Every table is the list of its rows in storage order (the order in
    which SQLite returns them when no ORDER BY is given, which is the order
    of insertion).  [cocktail_tags] and [cocktail_garnishes] are the two
    association tables behind the relationships [Cocktail.tags] and
    [Cocktail.garnishes]: a pair is one of their rows,
    [(cocktail_id, tag_id)], respectively [(cocktail_id, garnish_id)]. *)

Record DB := mkDB
  { cocktails : list Cocktail.t;
    ingredients : list Ingredient.t;
    cocktail_ingredients : list CocktailIngredient.t;
    instructions : list Instruction.t;
    tags : list Tag.t;
    garnishes : list Garnish.t;
    cocktail_tags : list (Z * Z);
    cocktail_garnishes : list (Z * Z) }.

Definition empty_db : DB := mkDB [] [] [] [] [] [] [] [].

(** The key SQLite gives to a new row of a table whose [id] column is an
    INTEGER PRIMARY KEY: one more than the largest key in use, 1 for an
    empty table. *)
Definition next_id (ids : list Z) : Z := 1 + fold_right Z.max 0 ids.

Arguments next_id : simpl never.

Definition insert_cocktail (r : Cocktail.t) (d : DB) : DB :=
  mkDB (cocktails d ++ [r]) (ingredients d) (cocktail_ingredients d)
       (instructions d) (tags d) (garnishes d) (cocktail_tags d)
       (cocktail_garnishes d).

Definition insert_ingredient (r : Ingredient.t) (d : DB) : DB :=
  mkDB (cocktails d) (ingredients d ++ [r]) (cocktail_ingredients d)
       (instructions d) (tags d) (garnishes d) (cocktail_tags d)
       (cocktail_garnishes d).

Definition insert_cocktail_ingredient (r : CocktailIngredient.t) (d : DB) : DB :=
  mkDB (cocktails d) (ingredients d) (cocktail_ingredients d ++ [r])
       (instructions d) (tags d) (garnishes d) (cocktail_tags d)
       (cocktail_garnishes d).

Definition insert_instruction (r : Instruction.t) (d : DB) : DB :=
  mkDB (cocktails d) (ingredients d) (cocktail_ingredients d)
       (instructions d ++ [r]) (tags d) (garnishes d) (cocktail_tags d)
       (cocktail_garnishes d).

Definition insert_tag (r : Tag.t) (d : DB) : DB :=
  mkDB (cocktails d) (ingredients d) (cocktail_ingredients d)
       (instructions d) (tags d ++ [r]) (garnishes d) (cocktail_tags d)
       (cocktail_garnishes d).

Definition insert_garnish (r : Garnish.t) (d : DB) : DB :=
  mkDB (cocktails d) (ingredients d) (cocktail_ingredients d)
       (instructions d) (tags d) (garnishes d ++ [r]) (cocktail_tags d)
       (cocktail_garnishes d).

Definition insert_cocktail_tag (r : Z * Z) (d : DB) : DB :=
  mkDB (cocktails d) (ingredients d) (cocktail_ingredients d)
       (instructions d) (tags d) (garnishes d) (cocktail_tags d ++ [r])
       (cocktail_garnishes d).

Definition insert_cocktail_garnish (r : Z * Z) (d : DB) : DB :=
  mkDB (cocktails d) (ingredients d) (cocktail_ingredients d)
       (instructions d) (tags d) (garnishes d) (cocktail_tags d)
       (cocktail_garnishes d ++ [r]).

(** ** The session

    [txn] is the database as the session sees it inside its open
    transaction; [commits] lists, oldest first, every state that a
    [db.commit()] of this session has made durable, which are the states
    another session can read while this one is still running. *)

Inductive Exception :=
| HTTPException (status_code : Z) (detail : string)
| RequestValidationError
| AttributeError
| InvalidRequestError
| OverflowError.

Inductive Outcome (A : Type) :=
| Return (a : A)
| Raise (e : Exception).

Arguments Return {A} a.
Arguments Raise {A} e.

Record Session := mkSession { txn : DB; commits : list DB }.

Definition M (A : Type) : Type := Session -> Outcome A * Session.

Definition ret {A} (a : A) : M A := fun s => (Return a, s).

Definition raise {A} (e : Exception) : M A := fun s => (Raise e, s).

Definition bind {A B} (m : M A) (k : A -> M B) : M B :=
  fun s =>
    match m s with
    | (Return a, s') => k a s'
    | (Raise e, s') => (Raise e, s')
    end.

Notation "x <- m ;; k" := (bind m (fun x => k))
  (at level 61, m at next level, right associativity).
Notation "m ;; k" := (bind m (fun _ => k))
  (at level 61, right associativity).

Fixpoint for_each {A} (l : list A) (body : A -> M unit) : M unit :=
  match l with
  | [] => ret tt
  | a :: l' => body a ;; for_each l' body
  end.

(** A session opened by [get_db] on the database [d]. *)
Definition open (d : DB) : Session := mkSession d [].

(** What is durable once the session is closed: the last committed state,
    or the database it was opened on when it never committed. *)
Definition durable (d : DB) (s : Session) : DB := last (commits s) d.

Definition read {A} (f : DB -> A) : M A := fun s => (Return (f (txn s)), s).

Definition write (f : DB -> DB) : M unit :=
  fun s => (Return tt, mkSession (f (txn s)) (commits s)).

(** [db.commit()] *)
Definition db_commit : M unit :=
  fun s => (Return tt, mkSession (txn s) (commits s ++ [txn s])).

(** [db.add(obj)] for a new object of each mapped class.  The INSERT gives
    the object its primary key; it is issued by the next flush, and every
    query and every commit of the session flushes first, in [db.add] order
    within a table, so the row is written to the transaction at once. *)

Definition db_add_cocktail (title : string)
    (author description difficulty glass_type cover_image : option string)
    : M Cocktail.t :=
  d <- read (fun d => d) ;;
  let obj := Cocktail.mk (next_id (map Cocktail.id (cocktails d))) title
               author description difficulty glass_type cover_image in
  write (insert_cocktail obj) ;;
  ret obj.

Definition db_add_ingredient (name : string) : M Ingredient.t :=
  d <- read (fun d => d) ;;
  let obj := Ingredient.mk (next_id (map Ingredient.id (ingredients d))) name in
  write (insert_ingredient obj) ;;
  ret obj.

Definition db_add_cocktail_ingredient (cocktail_id ingredient_id : Z)
    (quantity unit' notes : option string) : M unit :=
  d <- read (fun d => d) ;;
  write (insert_cocktail_ingredient
           (CocktailIngredient.mk
              (next_id (map CocktailIngredient.id (cocktail_ingredients d)))
              cocktail_id ingredient_id quantity unit' notes)).

Definition db_add_instruction (cocktail_id step_number : Z)
    (instruction_text : string) : M unit :=
  d <- read (fun d => d) ;;
  write (insert_instruction
           (Instruction.mk (next_id (map Instruction.id (instructions d)))
              cocktail_id step_number instruction_text)).

Definition db_add_tag (name type : string) : M Tag.t :=
  d <- read (fun d => d) ;;
  let obj := Tag.mk (next_id (map Tag.id (tags d))) name type in
  write (insert_tag obj) ;;
  ret obj.

Definition db_add_garnish (name : string) : M Garnish.t :=
  d <- read (fun d => d) ;;
  let obj := Garnish.mk (next_id (map Garnish.id (garnishes d))) name in
  write (insert_garnish obj) ;;
  ret obj.

(** Lookup by primary key, and the queries
    [db.query(Ingredient).filter(Ingredient.name == name).first()] and its
    siblings: the first row of the table that matches. *)

Definition cocktail_by_id (id : Z) (d : DB) : option Cocktail.t :=
  find (fun c => Z.eqb (Cocktail.id c) id) (cocktails d).

Definition ingredient_by_id (id : Z) (d : DB) : option Ingredient.t :=
  find (fun i => Z.eqb (Ingredient.id i) id) (ingredients d).

Definition tag_by_id (id : Z) (d : DB) : option Tag.t :=
  find (fun t => Z.eqb (Tag.id t) id) (tags d).

Definition garnish_by_id (id : Z) (d : DB) : option Garnish.t :=
  find (fun g => Z.eqb (Garnish.id g) id) (garnishes d).

Definition first_ingredient (name : string) (d : DB) : option Ingredient.t :=
  find (fun i => String.eqb (Ingredient.name i) name) (ingredients d).

Definition first_garnish (name : string) (d : DB) : option Garnish.t :=
  find (fun g => String.eqb (Garnish.name g) name) (garnishes d).

Definition first_tag (name type : string) (d : DB) : option Tag.t :=
  find (fun t => String.eqb (Tag.name t) name && String.eqb (Tag.type t) type)
       (tags d).

(** [db.refresh(obj)]: the row is read again by its primary key. *)

Definition refreshed {A} (o : option A) : M A :=
  match o with
  | Some a => ret a
  | None => raise InvalidRequestError
  end.

Definition db_refresh_cocktail (obj : Cocktail.t) : M Cocktail.t :=
  o <- read (cocktail_by_id (Cocktail.id obj)) ;; refreshed o.

Definition db_refresh_ingredient (obj : Ingredient.t) : M Ingredient.t :=
  o <- read (ingredient_by_id (Ingredient.id obj)) ;; refreshed o.

Definition db_refresh_tag (obj : Tag.t) : M Tag.t :=
  o <- read (tag_by_id (Tag.id obj)) ;; refreshed o.

Definition db_refresh_garnish (obj : Garnish.t) : M Garnish.t :=
  o <- read (garnish_by_id (Garnish.id obj)) ;; refreshed o.

(** [new_cocktail.garnishes.append(garnish_obj)] and
    [new_cocktail.tags.append(tag_obj)].  The source appends for every
    listed name and never looks at what the collection already holds; the
    rows of the association table are written by SQLAlchemy's unit of
    work.  At a flush it writes one row for every member that the
    collection has gained since the last flush, and it compares the two
    states of the collection as sets of objects: a member that the
    collection held already adds no row, however often it is appended
    again.  Every query and every commit of the session flushes first, and
    in [create_cocktail] a query stands between any two appends, so an
    append writes its pair to the transaction unless the pair is there. *)

Definition linked (link : Z * Z) (links : list (Z * Z)) : bool :=
  existsb (fun p => Z.eqb (fst p) (fst link) && Z.eqb (snd p) (snd link)) links.

Definition garnishes_append (cocktail_id : Z) (obj : Garnish.t) : M unit :=
  write (fun d =>
           if linked (cocktail_id, Garnish.id obj) (cocktail_garnishes d)
           then d
           else insert_cocktail_garnish (cocktail_id, Garnish.id obj) d).

Definition tags_append (cocktail_id : Z) (obj : Tag.t) : M unit :=
  write (fun d =>
           if linked (cocktail_id, Tag.id obj) (cocktail_tags d)
           then d
           else insert_cocktail_tag (cocktail_id, Tag.id obj) d).

(** ** Loading the relationships of a cocktail *)

(** [cocktail.ingredients] and [cocktail.instructions]: the rows whose
    foreign key is the cocktail, in storage order. *)

Definition cocktail_ingredients_of (cocktail_id : Z) (d : DB)
    : list CocktailIngredient.t :=
  filter (fun ci => Z.eqb (CocktailIngredient.cocktail_id ci) cocktail_id)
         (cocktail_ingredients d).

Definition instructions_of (cocktail_id : Z) (d : DB) : list Instruction.t :=
  filter (fun i => Z.eqb (Instruction.cocktail_id i) cocktail_id)
         (instructions d).

(** [cocktail.tags] and [cocktail.garnishes]: the join of the association
    table with the entity table.  A pair that names no entity joins with
    nothing, and the loader puts an entity into the collection once, at
    the place of the first row that carries its primary key. *)

Definition related (links : list (Z * Z)) (cocktail_id : Z) : list Z :=
  map snd (filter (fun p => Z.eqb (fst p) cocktail_id) links).

Definition present {A} (o : option A) : list A :=
  match o with
  | Some a => [a]
  | None => []
  end.

Fixpoint unique (ids : list Z) : list Z :=
  match ids with
  | [] => []
  | id :: ids' => id :: filter (fun x => negb (Z.eqb x id)) (unique ids')
  end.

Definition tags_of (cocktail_id : Z) (d : DB) : list Tag.t :=
  flat_map (fun id => present (tag_by_id id d))
           (unique (related (cocktail_tags d) cocktail_id)).

Definition garnishes_of (cocktail_id : Z) (d : DB) : list Garnish.t :=
  flat_map (fun id => present (garnish_by_id id d))
           (unique (related (cocktail_garnishes d) cocktail_id)).

(** ** serialize_cocktail (main.py, lines 151-174) *)

(** A list comprehension whose element expression may raise. *)
Fixpoint traverse {A B} (f : A -> Outcome B) (l : list A) : Outcome (list B) :=
  match l with
  | [] => Return []
  | a :: l' =>
      match f a with
      | Raise e => Raise e
      | Return b =>
          match traverse f l' with
          | Raise e => Raise e
          | Return bs => Return (b :: bs)
          end
      end
  end.

(** [sorted(cocktail.instructions, key=lambda x: x.step_number)]: Python's
    sort is stable, as is this insertion sort (an element goes before the
    first one whose key is not smaller). *)
Fixpoint insert_by_step_number (x : Instruction.t) (l : list Instruction.t)
    : list Instruction.t :=
  match l with
  | [] => [x]
  | y :: l' =>
      if Instruction.step_number x <=? Instruction.step_number y
      then x :: y :: l'
      else y :: insert_by_step_number x l'
  end.

Definition sorted_by_step_number (l : list Instruction.t) : list Instruction.t :=
  fold_right insert_by_step_number [] l.

(** One entry of ['ingredients'].  [ci.ingredient] is [None] when the
    foreign key names no row, and [None.name] raises. *)
Definition ingredient_read (d : DB) (ci : CocktailIngredient.t)
    : Outcome IngredientRead.t :=
  match ingredient_by_id (CocktailIngredient.ingredient_id ci) d with
  | Some i =>
      Return (IngredientRead.mk (Ingredient.name i)
                (CocktailIngredient.quantity ci)
                (CocktailIngredient.unit ci)
                (CocktailIngredient.notes ci))
  | None => Raise AttributeError
  end.

Definition names_of_type (type : string) (l : list Tag.t) : list string :=
  map Tag.name (filter (fun tag => String.eqb (Tag.type tag) type) l).

Definition serialize_cocktail (d : DB) (cocktail : Cocktail.t)
    : Outcome CocktailRead.t :=
  match traverse (ingredient_read d)
          (cocktail_ingredients_of (Cocktail.id cocktail) d) with
  | Raise e => Raise e
  | Return ingredients =>
      Return
        (CocktailRead.mk
           (Cocktail.id cocktail)
           (Cocktail.title cocktail)
           (Cocktail.author cocktail)
           (Cocktail.description cocktail)
           ingredients
           (map Instruction.instruction_text
              (sorted_by_step_number (instructions_of (Cocktail.id cocktail) d)))
           (MetadataRead.mk
              (Cocktail.difficulty cocktail)
              (Cocktail.glass_type cocktail)
              (map Garnish.name (garnishes_of (Cocktail.id cocktail) d))
              (names_of_type "tag" (tags_of (Cocktail.id cocktail) d))
              (names_of_type "flavor_tag" (tags_of (Cocktail.id cocktail) d))
              (Cocktail.cover_image cocktail)))
  end.

(** Serialization runs the lazy loads in the session and changes nothing. *)
Definition lift {A} (f : DB -> Outcome A) : M A := fun s => (f (txn s), s).

(** ** create_cocktail (main.py, lines 177-254) *)

(** [enumerate(l)] *)
Fixpoint enumerate_from {A} (start : Z) (l : list A) : list (Z * A) :=
  match l with
  | [] => []
  | a :: l' => (start, a) :: enumerate_from (start + 1) l'
  end.

Definition enumerate {A} (l : list A) : list (Z * A) := enumerate_from 0 l.

(** [cocktail.metadata.field if cocktail.metadata else None] *)
Definition metadata_field (metadata : option MetadataCreate.t)
    (field : MetadataCreate.t -> option string) : option string :=
  match metadata with
  | Some m => field m
  | None => None
  end.

(** [if cocktail.metadata and cocktail.metadata.field: for x in
    cocktail.metadata.field: body]: the guard fails when the metadata or
    the list is absent and when the list is empty. *)
Definition for_each_listed (metadata : option MetadataCreate.t)
    (field : MetadataCreate.t -> option (list string))
    (body : string -> M unit) : M unit :=
  match metadata with
  | Some m =>
      match field m with
      | Some (x :: l) => for_each (x :: l) body
      | Some [] => ret tt
      | None => ret tt
      end
  | None => ret tt
  end.

(** Lines 195-200: the ingredient of that name, created and committed when
    there is none. *)
Definition ingredient_obj (name : string) : M Ingredient.t :=
  found <- read (first_ingredient name) ;;
  match found with
  | Some obj => ret obj
  | None =>
      obj <- db_add_ingredient name ;;
      db_commit ;;
      db_refresh_ingredient obj
  end.

(** Lines 223-228. *)
Definition garnish_obj (garnish_name : string) : M Garnish.t :=
  found <- read (first_garnish garnish_name) ;;
  match found with
  | Some obj => ret obj
  | None =>
      obj <- db_add_garnish garnish_name ;;
      db_commit ;;
      db_refresh_garnish obj
  end.

(** Lines 234-239 with [type = 'tag'], lines 244-249 with
    [type = 'flavor_tag']. *)
Definition tag_obj (tag_name type : string) : M Tag.t :=
  found <- read (first_tag tag_name type) ;;
  match found with
  | Some obj => ret obj
  | None =>
      obj <- db_add_tag tag_name type ;;
      db_commit ;;
      db_refresh_tag obj
  end.

(** The bodies of the five loops. *)

Definition handle_ingredient (cocktail_id : Z) (ing : IngredientCreate.t) : M unit :=
  obj <- ingredient_obj (IngredientCreate.name ing) ;;
  (* Create CocktailIngredient *)
  db_add_cocktail_ingredient cocktail_id (Ingredient.id obj)
    (IngredientCreate.quantity ing) (IngredientCreate.unit ing)
    (IngredientCreate.notes ing).

Definition handle_instruction (cocktail_id : Z) (p : Z * string) : M unit :=
  let (idx, instruction_text) := p in
  db_add_instruction cocktail_id (idx + 1) instruction_text.

Definition handle_garnish (cocktail_id : Z) (garnish_name : string) : M unit :=
  obj <- garnish_obj garnish_name ;;
  garnishes_append cocktail_id obj.

Definition handle_tag (type : string) (cocktail_id : Z) (tag_name : string) : M unit :=
  obj <- tag_obj tag_name type ;;
  tags_append cocktail_id obj.

Definition create_cocktail (cocktail : CocktailCreate.t) : M CocktailRead.t :=
  let metadata := CocktailCreate.metadata cocktail in
  (* Create the Cocktail *)
  new_cocktail <- db_add_cocktail
                    (CocktailCreate.title cocktail)
                    (CocktailCreate.author cocktail)
                    (CocktailCreate.description cocktail)
                    (metadata_field metadata MetadataCreate.difficulty)
                    (metadata_field metadata MetadataCreate.glass_type)
                    (metadata_field metadata MetadataCreate.cover_image) ;;
  db_commit ;;
  new_cocktail <- db_refresh_cocktail new_cocktail ;;
  (* Handle ingredients *)
  for_each (CocktailCreate.ingredients cocktail)
    (handle_ingredient (Cocktail.id new_cocktail)) ;;
  (* Handle instructions *)
  for_each (enumerate (CocktailCreate.instructions cocktail))
    (handle_instruction (Cocktail.id new_cocktail)) ;;
  (* Handle garnishes *)
  for_each_listed metadata MetadataCreate.garnish
    (handle_garnish (Cocktail.id new_cocktail)) ;;
  (* Handle tags *)
  for_each_listed metadata MetadataCreate.tags
    (handle_tag "tag" (Cocktail.id new_cocktail)) ;;
  (* Handle flavor_tags *)
  for_each_listed metadata MetadataCreate.flavor_tags
    (handle_tag "flavor_tag" (Cocktail.id new_cocktail)) ;;
  db_commit ;;
  new_cocktail <- db_refresh_cocktail new_cocktail ;;
  lift (fun d => serialize_cocktail d new_cocktail).

(** ** get_cocktails and get_cocktail (main.py, lines 257-268) *)

Definition get_cocktails : M (list CocktailRead.t) :=
  lift (fun d => traverse (serialize_cocktail d) (cocktails d)).

(** The integers that SQLite stores and that the driver binds to a
    statement: 64 bits, signed. *)
Definition sqlite_integer (n : Z) : bool :=
  (-9223372036854775808 <=? n) && (n <=? 9223372036854775807).

(** [db.query(Cocktail).filter(Cocktail.id == cocktail_id).first()].  The
    path parameter is a Python [int] of any size and is bound to the
    statement as it is; for one outside 64 bits the driver raises
    [OverflowError] instead of running the statement.  No stored key is
    outside 64 bits, so such an id is the id of no row: the embedding
    looks the row up and tests the bound when there is none, which on
    every database that SQLite can hold is the same as testing the bound
    first. *)
Definition first_cocktail (cocktail_id : Z) : M (option Cocktail.t) :=
  found <- read (cocktail_by_id cocktail_id) ;;
  match found with
  | Some c => ret (Some c)
  | None => if sqlite_integer cocktail_id then ret None else raise OverflowError
  end.

Definition get_cocktail (cocktail_id : Z) : M CocktailRead.t :=
  cocktail <- first_cocktail cocktail_id ;;
  match cocktail with
  | None => raise (HTTPException 404 "Cocktail not found")
  | Some c => lift (fun d => serialize_cocktail d c)
  end.

(** ** Request validation

    What FastAPI does with the body of [POST /cocktails] before it calls
    [create_cocktail]: the body is parsed against [CocktailCreate]
    (lines 85-108).  A field annotated [str] or [List[...]] is required; a
    field annotated [Optional[...]] may be absent and is then [None].  A
    value that cannot be read as the declared type fails the validation
    under either annotation.  No field carries any further constraint. *)

Definition required {A} (f : Field A) : option A :=
  match f with
  | Given a => Some a
  | Absent => None
  | IllTyped => None
  end.

Definition optional {A} (f : Field A) : option (option A) :=
  match f with
  | Given a => Some (Some a)
  | Absent => Some None
  | IllTyped => None
  end.

Definition parse_ingredient (b : IngredientBody.t) : option IngredientCreate.t :=
  match required (IngredientBody.name b), optional (IngredientBody.quantity b),
        optional (IngredientBody.unit b), optional (IngredientBody.notes b) with
  | Some name, Some quantity, Some unit', Some notes =>
      Some (IngredientCreate.mk name quantity unit' notes)
  | _, _, _, _ => None
  end.

Definition parse_metadata (b : MetadataBody.t) : option MetadataCreate.t :=
  match optional (MetadataBody.difficulty b), optional (MetadataBody.glass_type b),
        optional (MetadataBody.garnish b), optional (MetadataBody.tags b),
        optional (MetadataBody.flavor_tags b), optional (MetadataBody.cover_image b) with
  | Some difficulty, Some glass_type, Some garnish, Some tags, Some flavor_tags,
    Some cover_image =>
      Some (MetadataCreate.mk difficulty glass_type garnish tags flavor_tags
              cover_image)
  | _, _, _, _, _, _ => None
  end.

Fixpoint parse_all {A B} (f : A -> option B) (l : list A) : option (list B) :=
  match l with
  | [] => Some []
  | a :: l' =>
      match f a, parse_all f l' with
      | Some b, Some bs => Some (b :: bs)
      | _, _ => None
      end
  end.

(** A nested model: absent, or parsed in its turn. *)
Definition optional_model {A B} (parse : A -> option B) (f : Field A)
    : option (option B) :=
  match f with
  | Given a =>
      match parse a with
      | Some b => Some (Some b)
      | None => None
      end
  | Absent => Some None
  | IllTyped => None
  end.

Definition parse_cocktail (b : CocktailBody.t) : option CocktailCreate.t :=
  match required (CocktailBody.title b), optional (CocktailBody.author b),
        optional (CocktailBody.description b),
        required (CocktailBody.ingredients b),
        required (CocktailBody.instructions b),
        optional_model parse_metadata (CocktailBody.metadata b) with
  | Some title, Some author, Some description, Some ingredients,
    Some instructions, Some metadata =>
      match parse_all parse_ingredient ingredients with
      | Some ingredients =>
          Some (CocktailCreate.mk title author description ingredients
                  instructions metadata)
      | None => None
      end
  | _, _, _, _, _, _ => None
  end.

(** The route [POST /cocktails]. *)
Definition post_cocktails (body : CocktailBody.t) : M CocktailRead.t :=
  match parse_cocktail body with
  | Some cocktail => create_cocktail cocktail
  | None => raise RequestValidationError
  end.

(** ** Requests one after the other

    Each request runs in a session of its own, opened on what the sessions
    before it left durable. *)

Definition after_create (d : DB) (cocktail : CocktailCreate.t) : DB :=
  durable d (snd (create_cocktail cocktail (open d))).

Definition after_creates (d : DB) (l : list CocktailCreate.t) : DB :=
  fold_left after_create l d.

(** ** Well-formed databases

    What the storage engine enforces (primary keys, the UNIQUE columns
    [Ingredient.name] and [Garnish.name]) together with what the creates
    of this program maintain: one tag per (name, type), and foreign keys
    that name existing rows. *)

Definition cocktail_ids (d : DB) : list Z := map Cocktail.id (cocktails d).
Definition ingredient_ids (d : DB) : list Z := map Ingredient.id (ingredients d).
Definition tag_ids (d : DB) : list Z := map Tag.id (tags d).
Definition garnish_ids (d : DB) : list Z := map Garnish.id (garnishes d).

Definition tag_key (t : Tag.t) : string * string := (Tag.name t, Tag.type t).

Record wf (d : DB) : Prop := mkWf
  { wf_cocktail_ids : NoDup (cocktail_ids d);
    wf_ingredient_ids : NoDup (ingredient_ids d);
    wf_tag_ids : NoDup (tag_ids d);
    wf_garnish_ids : NoDup (garnish_ids d);
    wf_cocktail_ingredient_ids :
      NoDup (map CocktailIngredient.id (cocktail_ingredients d));
    wf_instruction_ids : NoDup (map Instruction.id (instructions d));
    wf_ingredient_names : NoDup (map Ingredient.name (ingredients d));
    wf_garnish_names : NoDup (map Garnish.name (garnishes d));
    wf_tag_keys : NoDup (map tag_key (tags d));
    wf_ci_cocktail : forall ci, In ci (cocktail_ingredients d) ->
      In (CocktailIngredient.cocktail_id ci) (cocktail_ids d);
    wf_ci_ingredient : forall ci, In ci (cocktail_ingredients d) ->
      In (CocktailIngredient.ingredient_id ci) (ingredient_ids d);
    wf_instruction_cocktail : forall i, In i (instructions d) ->
      In (Instruction.cocktail_id i) (cocktail_ids d);
    wf_tag_link_cocktail : forall p, In p (cocktail_tags d) ->
      In (fst p) (cocktail_ids d);
    wf_tag_link_tag : forall p, In p (cocktail_tags d) ->
      In (snd p) (tag_ids d);
    wf_garnish_link_cocktail : forall p, In p (cocktail_garnishes d) ->
      In (fst p) (cocktail_ids d);
    wf_garnish_link_garnish : forall p, In p (cocktail_garnishes d) ->
      In (snd p) (garnish_ids d) }.

(** [l'] is [l] with rows added at its end. *)
Definition extends {A} (l l' : list A) : Prop := exists k, l' = l ++ k.

(** The names over which a guarded metadata loop runs. *)
Definition listed (metadata : option MetadataCreate.t)
    (field : MetadataCreate.t -> option (list string)) : list string :=
  match metadata with
  | Some m =>
      match field m with
      | Some l => l
      | None => []
      end
  | None => []
  end.

(** The row that [create_cocktail] writes to [cocktails] on the database
    [d]. *)
Definition new_cocktail_row (cocktail : CocktailCreate.t) (d : DB) : Cocktail.t :=
  Cocktail.mk (next_id (cocktail_ids d))
    (CocktailCreate.title cocktail)
    (CocktailCreate.author cocktail)
    (CocktailCreate.description cocktail)
    (metadata_field (CocktailCreate.metadata cocktail) MetadataCreate.difficulty)
    (metadata_field (CocktailCreate.metadata cocktail) MetadataCreate.glass_type)
    (metadata_field (CocktailCreate.metadata cocktail) MetadataCreate.cover_image).

(** An ingredient line of the request and the [cocktail_ingredients] row
    written for it. *)
Definition line_row (d : DB) (cocktail_id : Z) (line : IngredientCreate.t)
    (row : CocktailIngredient.t) : Prop :=
  CocktailIngredient.cocktail_id row = cocktail_id /\
  CocktailIngredient.quantity row = IngredientCreate.quantity line /\
  CocktailIngredient.unit row = IngredientCreate.unit line /\
  CocktailIngredient.notes row = IngredientCreate.notes line /\
  exists i, first_ingredient (IngredientCreate.name line) d = Some i /\
            CocktailIngredient.ingredient_id row = Ingredient.id i.

(** The document entry of an ingredient line. *)
Definition line_read (line : IngredientCreate.t) : IngredientRead.t :=
  IngredientRead.mk (IngredientCreate.name line)
    (IngredientCreate.quantity line) (IngredientCreate.unit line)
    (IngredientCreate.notes line).

(** The rows of [d] followed, table by table, by the rows of [k].  Every
    write of this program adds rows at the end of a table, so every state
    of a session is the one it started from followed by what it wrote. *)
Definition db_app (d k : DB) : DB :=
  mkDB (cocktails d ++ cocktails k)
       (ingredients d ++ ingredients k)
       (cocktail_ingredients d ++ cocktail_ingredients k)
       (instructions d ++ instructions k)
       (tags d ++ tags k)
       (garnishes d ++ garnishes k)
       (cocktail_tags d ++ cocktail_tags k)
       (cocktail_garnishes d ++ cocktail_garnishes k).

(** A listed name and the id appended to the relationship for it. *)
Definition garnish_link (d : DB) (name : string) (id : Z) : Prop :=
  exists g, first_garnish name d = Some g /\ Garnish.id g = id.

Definition tag_link (type : string) (d : DB) (name : string) (id : Z) : Prop :=
  exists t, first_tag name type d = Some t /\ Tag.id t = id.

(** [id] is the entity of one of the listed names. *)
Definition resolved (link : string -> Z -> Prop) (names : list string) (id : Z)
    : Prop :=
  exists name, In name names /\ link name id.

(** What the appends of a create leave in an association table: the table
    [all] links the cocktail [cid] to every entity that a listed name
    resolves to, and the pairs [new] that were written for it are pairs of
    [cid] with such an entity, no pair twice. *)
Definition links_written (cid : Z) (listed_id : Z -> Prop)
    (all new : list (Z * Z)) : Prop :=
  (forall id, listed_id id -> In (cid, id) all) /\
  (forall p, In p new -> fst p = cid /\ listed_id (snd p)) /\
  NoDup new.

(** The same for one loop of appends that starts on the table [old]: no
    pair that was there is written again. *)
Definition links_appended (cid : Z) (link : string -> Z -> Prop)
    (names : list string) (old new : list (Z * Z)) : Prop :=
  (forall name, In name names ->
     exists id, link name id /\ In (cid, id) (old ++ new)) /\
  (forall p, In p new ->
     fst p = cid /\ ~ In p old /\ resolved link names (snd p)) /\
  NoDup new.

(** What a row of [instructions] holds besides its own key. *)
Definition instruction_columns (i : Instruction.t) : Z * Z * string :=
  (Instruction.cocktail_id i, Instruction.step_number i,
   Instruction.instruction_text i).

(** What [create_cocktail] writes for the cocktail [cid] besides its
    [cocktails] row: [k] holds the rows written, [d'] is the database they
    end up in. *)
Record written (cocktail : CocktailCreate.t) (cid : Z) (d' k : DB) : Prop :=
  mkWritten
  { written_cocktails : cocktails k = [];
    written_lines :
      Forall2 (line_row d' cid) (CocktailCreate.ingredients cocktail)
        (cocktail_ingredients k);
    written_steps :
      map instruction_columns (instructions k) =
      map (fun p => (cid, fst p + 1, snd p))
        (enumerate (CocktailCreate.instructions cocktail));
    written_garnishes :
      links_written cid
        (resolved (garnish_link d')
           (listed (CocktailCreate.metadata cocktail) MetadataCreate.garnish))
        (cocktail_garnishes d') (cocktail_garnishes k);
    written_garnish_names :
      forall name,
        In name (listed (CocktailCreate.metadata cocktail) MetadataCreate.garnish) ->
        exists id, garnish_link d' name id;
    written_tags :
      links_written cid
        (fun id =>
           resolved (tag_link "tag" d')
             (listed (CocktailCreate.metadata cocktail) MetadataCreate.tags) id \/
           resolved (tag_link "flavor_tag" d')
             (listed (CocktailCreate.metadata cocktail) MetadataCreate.flavor_tags) id)
        (cocktail_tags d') (cocktail_tags k);
    written_tag_names :
      forall name,
        In name (listed (CocktailCreate.metadata cocktail) MetadataCreate.tags) ->
        exists id, tag_link "tag" d' name id;
    written_flavor_tag_names :
      forall name,
        In name (listed (CocktailCreate.metadata cocktail) MetadataCreate.flavor_tags) ->
        exists id, tag_link "flavor_tag" d' name id }.

(** ** Requests used below *)

(** The scenario of the specification. *)
Definition daiquiri : CocktailCreate.t :=
  CocktailCreate.mk "Daiquiri" None None
    [IngredientCreate.mk "Rum" (Some "2") (Some "oz") None;
     IngredientCreate.mk "Lime Juice" (Some "1") (Some "oz") None]
    ["Shake"; "Strain"]
    (Some (MetadataCreate.mk None None (Some ["Lime Wheel"]) (Some ["Classic"])
             (Some ["Sour"]) None)).

(** Mint in two ingredient lines, "Sweet" both as a tag and as a flavor
    tag. *)
Definition mojito : CocktailCreate.t :=
  CocktailCreate.mk "Mojito" (Some "Ana") (Some "Minty")
    [IngredientCreate.mk "Mint" (Some "8") (Some "leaves") (Some "muddled");
     IngredientCreate.mk "Rum" (Some "2") (Some "oz") None;
     IngredientCreate.mk "Mint" (Some "1") (Some "sprig") (Some "to garnish")]
    ["Muddle"; "Shake"; "Top up"]
    (Some (MetadataCreate.mk (Some "easy") (Some "highball") (Some ["Mint Sprig"])
             (Some ["Sweet"]) (Some ["Sweet"]) (Some "mojito.png"))).

(** The tag "Classic" and the garnish "Lime Wheel" listed twice. *)
Definition classic_twice : CocktailCreate.t :=
  CocktailCreate.mk "Daiquiri" None None [] []
    (Some (MetadataCreate.mk None None (Some ["Lime Wheel"; "Lime Wheel"])
             (Some ["Classic"; "Classic"]) None None)).

(** A body whose title is the empty string, every other key given. *)
Definition blank_title : CocktailBody.t :=
  CocktailBody.mk (Given "") (Given "Ana") (Given "No name yet")
    (Given [IngredientBody.mk (Given "Rum") (Given "2") (Given "oz") (Given "white")])
    (Given ["Pour"])
    (Given (MetadataBody.mk (Given "easy") (Given "rocks") (Given []) (Given [])
              (Given []) (Given "rum.png"))).

(** A body without a title, and one whose instructions are a string where
    a list of strings is declared. *)
Definition no_title : CocktailBody.t :=
  CocktailBody.mk Absent Absent Absent (Given []) (Given ["Pour"]) Absent.

Definition instructions_not_a_list : CocktailBody.t :=
  CocktailBody.mk (Given "Rum") Absent Absent (Given []) IllTyped Absent.

(** ** The specification's all-or-nothing, deduplication and validation
    properties, as predicates on the embedding *)

(** A create is one all-or-nothing transaction when the only state it ever
    makes durable is the one that holds the whole recipe. *)
Definition all_or_nothing (cocktail : CocktailCreate.t) (d : DB) : Prop :=
  forall seen,
    In seen (commits (snd (create_cocktail cocktail (open d)))) ->
    seen = txn (snd (create_cocktail cocktail (open d))).


(** The body is rejected as a validation failure and the session is as it
    was. *)
Definition rejected_before_write (body : CocktailBody.t) (s : Session) : Prop :=
  post_cocktails body s = (Raise RequestValidationError, s).

(** The body lacks a required key ([title], [ingredients],
    [instructions], the [name] of an ingredient line), or holds under some
    key a value that cannot be read as the declared type. *)
Definition malformed_ingredient (i : IngredientBody.t) : Prop :=
  IngredientBody.name i = Absent \/
  IngredientBody.name i = IllTyped \/
  IngredientBody.quantity i = IllTyped \/
  IngredientBody.unit i = IllTyped \/
  IngredientBody.notes i = IllTyped.

Definition malformed_metadata (m : MetadataBody.t) : Prop :=
  MetadataBody.difficulty m = IllTyped \/
  MetadataBody.glass_type m = IllTyped \/
  MetadataBody.garnish m = IllTyped \/
  MetadataBody.tags m = IllTyped \/
  MetadataBody.flavor_tags m = IllTyped \/
  MetadataBody.cover_image m = IllTyped.

Definition malformed (body : CocktailBody.t) : Prop :=
  CocktailBody.title body = Absent \/
  CocktailBody.title body = IllTyped \/
  CocktailBody.author body = IllTyped \/
  CocktailBody.description body = IllTyped \/
  CocktailBody.ingredients body = Absent \/
  CocktailBody.ingredients body = IllTyped \/
  (exists l i, CocktailBody.ingredients body = Given l /\ In i l /\
               malformed_ingredient i) \/
  CocktailBody.instructions body = Absent \/
  CocktailBody.instructions body = IllTyped \/
  CocktailBody.metadata body = IllTyped \/
  (exists m, CocktailBody.metadata body = Given m /\ malformed_metadata m).

(** ** Relations that every statement of a session keeps *)

(** [m] takes a database to one that [R] relates it to, whether it returns
    or raises. *)
Definition keeps {A} (R : DB -> DB -> Prop) (m : M A) : Prop :=
  forall s, R (txn s) (txn (snd (m s))).

(** Every vocabulary row of [d'] is a row of [d] or carries a name of the
    request. *)
Definition vocabulary_from (cocktail : CocktailCreate.t) (d d' : DB) : Prop :=
  (forall i, In i (ingredients d') ->
     In i (ingredients d) \/
     In (Ingredient.name i)
        (map IngredientCreate.name (CocktailCreate.ingredients cocktail))) /\
  (forall g, In g (garnishes d') ->
     In g (garnishes d) \/
     In (Garnish.name g)
        (listed (CocktailCreate.metadata cocktail) MetadataCreate.garnish)) /\
  (forall t, In t (tags d') ->
     In t (tags d) \/
     (Tag.type t = "tag" /\
      In (Tag.name t) (listed (CocktailCreate.metadata cocktail) MetadataCreate.tags)) \/
     (Tag.type t = "flavor_tag" /\
      In (Tag.name t)
         (listed (CocktailCreate.metadata cocktail) MetadataCreate.flavor_tags))).

(** The request names nothing beyond its title, author and description. *)
Definition bare (cocktail : CocktailCreate.t) : Prop :=
  CocktailCreate.ingredients cocktail = [] /\
  CocktailCreate.instructions cocktail = [] /\
  listed (CocktailCreate.metadata cocktail) MetadataCreate.garnish = [] /\
  listed (CocktailCreate.metadata cocktail) MetadataCreate.tags = [] /\
  listed (CocktailCreate.metadata cocktail) MetadataCreate.flavor_tags = [].

(** A cocktail with nothing but a title, and one whose metadata holds
    empty lists. *)
Definition neat : CocktailCreate.t :=
  CocktailCreate.mk "Neat" None None [] [] None.

Definition neat_lists : CocktailCreate.t :=
  CocktailCreate.mk "Neat" None None [] []
    (Some (MetadataCreate.mk None None (Some []) (Some []) None None)).

(** A database in which the only ingredient line of cocktail 1 names an
    ingredient that does not exist. *)
Definition dangling_db : DB :=
  mkDB [Cocktail.mk 1 "Ghost" None None None None None] []
       [CocktailIngredient.mk 1 1 7 None None None] [] [] [] [] [].

(** The steps of every cocktail are numbered 1, 2, 3, ... in storage
    order. *)
Definition contiguous_steps (d : DB) : Prop :=
  forall c, In c (cocktails d) ->
    map Instruction.step_number (instructions_of (Cocktail.id c) d) =
    map fst (enumerate_from 1 (instructions_of (Cocktail.id c) d)).

(** [d'] holds every table of [d] with rows added at its end. *)
Definition extends_db (d d' : DB) : Prop := exists k, d' = db_app d k.

(** [m] takes a session to one that [S] relates it to, whether it returns
    or raises. *)
Definition keeps_session {A} (S : Session -> Session -> Prop) (m : M A) : Prop :=
  forall s, S s (snd (m s)).

(** From [s] to [s'] the transaction has only grown, and the states
    committed in between form a chain that grows from the transaction of
    [s] to the transaction of [s']. *)
Definition grows (s s' : Session) : Prop :=
  extends_db (txn s) (txn s') /\
  exists cs,
    commits s' = commits s ++ cs /\
    StronglySorted extends_db cs /\
    Forall (fun seen => extends_db (txn s) seen /\ extends_db seen (txn s')) cs.

(** ** Generic facts: keys, lookups, sorting *)

Lemma next_id_above (ids : list Z) (x : Z) : In x ids -> x < next_id ids.
Proof.
  unfold next_id. induction ids as [|y ids IH]; cbn [fold_right In]; [contradiction|].
  intros [->|H]; [lia|]. specialize (IH H). lia.
Qed.

Lemma next_id_fresh (ids : list Z) : ~ In (next_id ids) ids.
Proof. intros H. apply next_id_above in H. lia. Qed.

Lemma find_app {A} (f : A -> bool) (l k : list A) :
  find f (l ++ k) = match find f l with Some x => Some x | None => find f k end.
Proof.
  induction l as [|a l IH]; simpl; [reflexivity|].
  destruct (f a); [reflexivity|exact IH].
Qed.

Lemma find_extends {A} (f : A -> bool) (l l' : list A) (x : A) :
  extends l l' -> find f l = Some x -> find f l' = Some x.
Proof. intros [k ->] H. rewrite find_app, H. reflexivity. Qed.

Lemma find_absent {A} (f : A -> bool) (l : list A) :
  (forall x, In x l -> f x = false) -> find f l = None.
Proof.
  induction l as [|a l IH]; simpl; intros H; [reflexivity|].
  rewrite (H a (or_introl eq_refl)). apply IH. intros x Hx. apply H. now right.
Qed.

Lemma find_by_key {A} (key : A -> Z) (l : list A) (x : A) :
  NoDup (map key l) -> In x l ->
  find (fun y => Z.eqb (key y) (key x)) l = Some x.
Proof.
  induction l as [|a l IH]; simpl; intros Hnd Hin; [contradiction|].
  inversion Hnd as [|? ? Hna Hnd']; subst.
  destruct Hin as [->|Hin].
  - rewrite Z.eqb_refl. reflexivity.
  - destruct (Z.eqb_spec (key a) (key x)) as [E|_].
    + exfalso. apply Hna. rewrite E. now apply in_map.
    + now apply IH.
Qed.

Lemma find_key_present {A} (key : A -> Z) (l : list A) (k : Z) :
  In k (map key l) -> exists x, find (fun y => Z.eqb (key y) k) l = Some x.
Proof.
  induction l as [|a l IH]; simpl; [contradiction|].
  intros [<-|H].
  - rewrite Z.eqb_refl. now exists a.
  - destruct (Z.eqb (key a) k); [now exists a|now apply IH].
Qed.

Lemma extends_refl {A} (l : list A) : extends l l.
Proof. exists []. now rewrite app_nil_r. Qed.

Lemma extends_trans {A} (l1 l2 l3 : list A) :
  extends l1 l2 -> extends l2 l3 -> extends l1 l3.
Proof. intros [k ->] [k' ->]. exists (k ++ k'). now rewrite app_assoc. Qed.

Lemma extends_app {A} (l k : list A) : extends l (l ++ k).
Proof. now exists k. Qed.

Lemma NoDup_snoc {A} (l : list A) (x : A) : NoDup l -> ~ In x l -> NoDup (l ++ [x]).
Proof.
  induction l as [|a l IH]; simpl; intros Hnd Hx.
  - constructor; [tauto|constructor].
  - inversion Hnd as [|? ? Ha Hl]; subst. constructor.
    + rewrite in_app_iff. simpl. intros [H|[H|[]]]; [tauto|]. apply Hx. now left.
    + apply IH; [exact Hl|tauto].
Qed.

Lemma NoDup_append {A} (l k : list A) :
  NoDup l -> NoDup k -> (forall x, In x k -> ~ In x l) -> NoDup (l ++ k).
Proof.
  induction 1 as [|a l Ha Hl IH]; cbn [app]; intros Hk H; [exact Hk|].
  constructor.
  - rewrite in_app_iff. intros [Hin|Hin]; [now apply Ha|].
    apply (H a Hin). now left.
  - apply IH; [exact Hk|]. intros x Hx Hin. apply (H x Hx). now right.
Qed.

(** Sorting a list whose keys already ascend changes nothing. *)
Lemma insert_by_step_number_head (x : Instruction.t) (l : list Instruction.t) :
  (forall y, In y l -> Instruction.step_number x <= Instruction.step_number y) ->
  insert_by_step_number x l = x :: l.
Proof.
  destruct l as [|y l]; simpl; intros H; [reflexivity|].
  destruct (Z.leb_spec (Instruction.step_number x) (Instruction.step_number y));
    [reflexivity|].
  specialize (H y (or_introl eq_refl)). lia.
Qed.

Lemma sorted_by_step_number_ascending (l : list Instruction.t) :
  StronglySorted (fun x y => Instruction.step_number x <= Instruction.step_number y) l ->
  sorted_by_step_number l = l.
Proof.
  unfold sorted_by_step_number.
  induction 1 as [|x l Hs IH Hx]; simpl; [reflexivity|]. rewrite IH.
  apply insert_by_step_number_head. intros y Hy.
  rewrite Forall_forall in Hx. now apply Hx.
Qed.

(** ** The loops of the session monad *)

Lemma for_each_cons {A} (body : A -> M unit) (a : A) (l : list A) (s s' : Session) :
  body a s = (Return tt, s') ->
  for_each (a :: l) body s = for_each l body s'.
Proof. intros H. simpl. unfold bind. now rewrite H. Qed.

Lemma for_each_listed_eq (metadata : option MetadataCreate.t)
    (field : MetadataCreate.t -> option (list string)) (body : string -> M unit) :
  for_each_listed metadata field body = for_each (listed metadata field) body.
Proof.
  unfold for_each_listed, listed. destruct metadata as [m|]; [|reflexivity].
  destruct (field m) as [[|x l]|]; reflexivity.
Qed.

(** ** Keys and names that a lookup did not find *)

Lemma first_ingredient_None (name : string) (d : DB) :
  first_ingredient name d = None -> ~ In name (map Ingredient.name (ingredients d)).
Proof.
  unfold first_ingredient. intros H Hin. apply in_map_iff in Hin as (i & <- & Hi).
  apply (find_none _ _ H) in Hi. now rewrite String.eqb_refl in Hi.
Qed.

Lemma first_garnish_None (name : string) (d : DB) :
  first_garnish name d = None -> ~ In name (map Garnish.name (garnishes d)).
Proof.
  unfold first_garnish. intros H Hin. apply in_map_iff in Hin as (g & <- & Hg).
  apply (find_none _ _ H) in Hg. now rewrite String.eqb_refl in Hg.
Qed.

Lemma first_tag_None (name type : string) (d : DB) :
  first_tag name type d = None -> ~ In (name, type) (map tag_key (tags d)).
Proof.
  unfold first_tag. intros H Hin. apply in_map_iff in Hin as (t & E & Ht).
  apply (find_none _ _ H) in Ht. unfold tag_key in E. inversion E; subst.
  now rewrite !String.eqb_refl in Ht.
Qed.

Lemma first_ingredient_Some (name : string) (d : DB) (i : Ingredient.t) :
  first_ingredient name d = Some i -> In i (ingredients d) /\ Ingredient.name i = name.
Proof.
  unfold first_ingredient. intros H. apply find_some in H as [Hin E].
  split; [exact Hin|]. now apply String.eqb_eq.
Qed.

Lemma first_garnish_Some (name : string) (d : DB) (g : Garnish.t) :
  first_garnish name d = Some g -> In g (garnishes d) /\ Garnish.name g = name.
Proof.
  unfold first_garnish. intros H. apply find_some in H as [Hin E].
  split; [exact Hin|]. now apply String.eqb_eq.
Qed.

Lemma first_tag_Some (name type : string) (d : DB) (t : Tag.t) :
  first_tag name type d = Some t ->
  In t (tags d) /\ Tag.name t = name /\ Tag.type t = type.
Proof.
  unfold first_tag. intros H. apply find_some in H as [Hin E].
  apply andb_true_iff in E as [E1 E2].
  split; [exact Hin|]. split; now apply String.eqb_eq.
Qed.

(** ** Inserts keep the database well formed *)

Local Ltac wf_insert :=
  let H := fresh "Hwf" in
  intros H; destruct H; constructor;
  unfold cocktail_ids, ingredient_ids, tag_ids, garnish_ids in *;
  cbn [cocktails ingredients cocktail_ingredients instructions tags garnishes
       cocktail_tags cocktail_garnishes insert_cocktail insert_ingredient
       insert_cocktail_ingredient insert_instruction insert_tag insert_garnish
       insert_cocktail_tag insert_cocktail_garnish];
  rewrite ?map_app; cbn [map];
  try assumption;
  try (apply NoDup_snoc; assumption);
  try (intros x Hx; rewrite ?in_app_iff in *; cbn [In] in *;
       first [ now auto
             | destruct Hx as [Hx|[<-|[]]]; now auto ]).

Lemma wf_empty_db : wf empty_db.
Proof. constructor; simpl; try constructor; intros ? []. Qed.

Lemma wf_insert_cocktail (r : Cocktail.t) (d : DB) :
  ~ In (Cocktail.id r) (cocktail_ids d) -> wf d -> wf (insert_cocktail r d).
Proof. intros Hid. wf_insert. Qed.

Lemma wf_insert_ingredient (r : Ingredient.t) (d : DB) :
  ~ In (Ingredient.id r) (ingredient_ids d) ->
  ~ In (Ingredient.name r) (map Ingredient.name (ingredients d)) ->
  wf d -> wf (insert_ingredient r d).
Proof. intros Hid Hname. wf_insert. Qed.

Lemma wf_insert_garnish (r : Garnish.t) (d : DB) :
  ~ In (Garnish.id r) (garnish_ids d) ->
  ~ In (Garnish.name r) (map Garnish.name (garnishes d)) ->
  wf d -> wf (insert_garnish r d).
Proof. intros Hid Hname. wf_insert. Qed.

Lemma wf_insert_tag (r : Tag.t) (d : DB) :
  ~ In (Tag.id r) (tag_ids d) ->
  ~ In (tag_key r) (map tag_key (tags d)) ->
  wf d -> wf (insert_tag r d).
Proof. intros Hid Hname. wf_insert. Qed.

Lemma wf_insert_cocktail_ingredient (r : CocktailIngredient.t) (d : DB) :
  ~ In (CocktailIngredient.id r) (map CocktailIngredient.id (cocktail_ingredients d)) ->
  In (CocktailIngredient.cocktail_id r) (cocktail_ids d) ->
  In (CocktailIngredient.ingredient_id r) (ingredient_ids d) ->
  wf d -> wf (insert_cocktail_ingredient r d).
Proof. intros Hid Hc Hi. wf_insert. Qed.

Lemma wf_insert_instruction (r : Instruction.t) (d : DB) :
  ~ In (Instruction.id r) (map Instruction.id (instructions d)) ->
  In (Instruction.cocktail_id r) (cocktail_ids d) ->
  wf d -> wf (insert_instruction r d).
Proof. intros Hid Hc. wf_insert. Qed.

Lemma wf_insert_cocktail_tag (r : Z * Z) (d : DB) :
  In (fst r) (cocktail_ids d) -> In (snd r) (tag_ids d) ->
  wf d -> wf (insert_cocktail_tag r d).
Proof. intros Hc Ht. wf_insert. Qed.

Lemma wf_insert_cocktail_garnish (r : Z * Z) (d : DB) :
  In (fst r) (cocktail_ids d) -> In (snd r) (garnish_ids d) ->
  wf d -> wf (insert_cocktail_garnish r d).
Proof. intros Hc Hg. wf_insert. Qed.

(** ** Databases as what was there followed by what was written *)

Lemma db_eq (d k : DB) :
  cocktails d = cocktails k -> ingredients d = ingredients k ->
  cocktail_ingredients d = cocktail_ingredients k ->
  instructions d = instructions k -> tags d = tags k ->
  garnishes d = garnishes k -> cocktail_tags d = cocktail_tags k ->
  cocktail_garnishes d = cocktail_garnishes k -> d = k.
Proof. destruct d, k; simpl; intros; subst; reflexivity. Qed.

Lemma db_app_empty (d : DB) : db_app d empty_db = d.
Proof. apply db_eq; simpl; apply app_nil_r. Qed.

Lemma first_ingredient_db_app (name : string) (d k : DB) (i : Ingredient.t) :
  first_ingredient name d = Some i -> first_ingredient name (db_app d k) = Some i.
Proof. unfold first_ingredient. simpl. intros H. now rewrite find_app, H. Qed.

Lemma first_garnish_db_app (name : string) (d k : DB) (g : Garnish.t) :
  first_garnish name d = Some g -> first_garnish name (db_app d k) = Some g.
Proof. unfold first_garnish. simpl. intros H. now rewrite find_app, H. Qed.

Lemma first_tag_db_app (name type : string) (d k : DB) (t : Tag.t) :
  first_tag name type d = Some t -> first_tag name type (db_app d k) = Some t.
Proof. unfold first_tag. simpl. intros H. now rewrite find_app, H. Qed.

Lemma line_row_db_app (d k : DB) (cid : Z) (line : IngredientCreate.t)
    (row : CocktailIngredient.t) :
  line_row d cid line row -> line_row (db_app d k) cid line row.
Proof.
  intros (H1 & H2 & H3 & H4 & i & Hi & H5). repeat split; try assumption.
  exists i. split; [now apply first_ingredient_db_app|exact H5].
Qed.

Lemma garnish_link_db_app (d k : DB) (name : string) (id : Z) :
  garnish_link d name id -> garnish_link (db_app d k) name id.
Proof. intros (g & Hg & E). exists g. split; [now apply first_garnish_db_app|exact E]. Qed.

Lemma tag_link_db_app (type : string) (d k : DB) (name : string) (id : Z) :
  tag_link type d name id -> tag_link type (db_app d k) name id.
Proof. intros (t & Ht & E). exists t. split; [now apply first_tag_db_app|exact E]. Qed.

(** ** Find or create (lines 195-200, 223-228, 234-239, 244-249) *)

Lemma ingredient_obj_found (name : string) (s : Session) (obj : Ingredient.t) :
  first_ingredient name (txn s) = Some obj ->
  ingredient_obj name s = (Return obj, s).
Proof. intros H. unfold ingredient_obj, bind, read. now rewrite H. Qed.

Lemma ingredient_obj_missing (name : string) (s : Session) :
  first_ingredient name (txn s) = None ->
  let obj := Ingredient.mk (next_id (ingredient_ids (txn s))) name in
  let d := insert_ingredient obj (txn s) in
  ingredient_obj name s = (Return obj, mkSession d (commits s ++ [d])).
Proof.
  intros H obj d. unfold ingredient_obj, bind, read. rewrite H.
  unfold db_add_ingredient, db_commit, db_refresh_ingredient, bind, read, write, ret.
  cbn [txn commits]. unfold ingredient_by_id. cbn [ingredients insert_ingredient Ingredient.id].
  rewrite find_app, find_absent.
  - cbn [find Ingredient.id]. rewrite Z.eqb_refl. reflexivity.
  - intros x Hx. apply Z.eqb_neq. intros E.
    apply (next_id_fresh (map Ingredient.id (ingredients (txn s)))).
    rewrite <- E. now apply in_map.
Qed.

Lemma garnish_obj_found (name : string) (s : Session) (obj : Garnish.t) :
  first_garnish name (txn s) = Some obj ->
  garnish_obj name s = (Return obj, s).
Proof. intros H. unfold garnish_obj, bind, read. now rewrite H. Qed.

Lemma garnish_obj_missing (name : string) (s : Session) :
  first_garnish name (txn s) = None ->
  let obj := Garnish.mk (next_id (garnish_ids (txn s))) name in
  let d := insert_garnish obj (txn s) in
  garnish_obj name s = (Return obj, mkSession d (commits s ++ [d])).
Proof.
  intros H obj d. unfold garnish_obj, bind, read. rewrite H.
  unfold db_add_garnish, db_commit, db_refresh_garnish, bind, read, write, ret.
  cbn [txn commits]. unfold garnish_by_id. cbn [garnishes insert_garnish Garnish.id].
  rewrite find_app, find_absent.
  - cbn [find Garnish.id]. rewrite Z.eqb_refl. reflexivity.
  - intros x Hx. apply Z.eqb_neq. intros E.
    apply (next_id_fresh (map Garnish.id (garnishes (txn s)))).
    rewrite <- E. now apply in_map.
Qed.

Lemma tag_obj_found (name type : string) (s : Session) (obj : Tag.t) :
  first_tag name type (txn s) = Some obj ->
  tag_obj name type s = (Return obj, s).
Proof. intros H. unfold tag_obj, bind, read. now rewrite H. Qed.

Lemma tag_obj_missing (name type : string) (s : Session) :
  first_tag name type (txn s) = None ->
  let obj := Tag.mk (next_id (tag_ids (txn s))) name type in
  let d := insert_tag obj (txn s) in
  tag_obj name type s = (Return obj, mkSession d (commits s ++ [d])).
Proof.
  intros H obj d. unfold tag_obj, bind, read. rewrite H.
  unfold db_add_tag, db_commit, db_refresh_tag, bind, read, write, ret.
  cbn [txn commits]. unfold tag_by_id. cbn [tags insert_tag Tag.id].
  rewrite find_app, find_absent.
  - cbn [find Tag.id]. rewrite Z.eqb_refl. reflexivity.
  - intros x Hx. apply Z.eqb_neq. intros E.
    apply (next_id_fresh (map Tag.id (tags (txn s)))).
    rewrite <- E. now apply in_map.
Qed.

Local Ltac split_and := repeat match goal with |- _ /\ _ => split end.

Local Ltac db_fields :=
  cbn [cocktails ingredients cocktail_ingredients instructions tags garnishes
       cocktail_tags cocktail_garnishes db_app insert_cocktail insert_ingredient
       insert_cocktail_ingredient insert_instruction insert_tag insert_garnish
       insert_cocktail_tag insert_cocktail_garnish empty_db txn commits].

Local Ltac db_same :=
  apply db_eq; db_fields; rewrite ?app_nil_r, <- ?app_assoc; reflexivity.

Lemma ingredient_obj_spec (name : string) (s : Session) :
  exists obj s' k,
    ingredient_obj name s = (Return obj, s') /\
    txn s' = db_app (txn s) (mkDB [] k [] [] [] [] [] []) /\
    first_ingredient name (txn s') = Some obj /\
    extends (commits s) (commits s') /\
    (wf (txn s) -> wf (txn s')).
Proof.
  destruct (first_ingredient name (txn s)) as [obj|] eqn:E.
  - exists obj, s, []. rewrite (ingredient_obj_found _ _ _ E).
    split_and; auto using extends_refl. db_same.
  - pose proof (ingredient_obj_missing _ _ E) as H. cbv zeta in H.
    eexists _, _, [_]. rewrite H. split; [reflexivity|]. db_fields. split_and.
    + db_same.
    + unfold first_ingredient in *. db_fields. rewrite find_app, E.
      cbn [find Ingredient.name]. now rewrite String.eqb_refl.
    + apply extends_app.
    + apply wf_insert_ingredient; [apply next_id_fresh|now apply first_ingredient_None].
Qed.

Lemma garnish_obj_spec (name : string) (s : Session) :
  exists obj s' k,
    garnish_obj name s = (Return obj, s') /\
    txn s' = db_app (txn s) (mkDB [] [] [] [] [] k [] []) /\
    first_garnish name (txn s') = Some obj /\
    extends (commits s) (commits s') /\
    (wf (txn s) -> wf (txn s')).
Proof.
  destruct (first_garnish name (txn s)) as [obj|] eqn:E.
  - exists obj, s, []. rewrite (garnish_obj_found _ _ _ E).
    split_and; auto using extends_refl. db_same.
  - pose proof (garnish_obj_missing _ _ E) as H. cbv zeta in H.
    eexists _, _, [_]. rewrite H. split; [reflexivity|]. db_fields. split_and.
    + db_same.
    + unfold first_garnish in *. db_fields. rewrite find_app, E.
      cbn [find Garnish.name]. now rewrite String.eqb_refl.
    + apply extends_app.
    + apply wf_insert_garnish; [apply next_id_fresh|now apply first_garnish_None].
Qed.

Lemma tag_obj_spec (name type : string) (s : Session) :
  exists obj s' k,
    tag_obj name type s = (Return obj, s') /\
    txn s' = db_app (txn s) (mkDB [] [] [] [] k [] [] []) /\
    first_tag name type (txn s') = Some obj /\
    extends (commits s) (commits s') /\
    (wf (txn s) -> wf (txn s')).
Proof.
  destruct (first_tag name type (txn s)) as [obj|] eqn:E.
  - exists obj, s, []. rewrite (tag_obj_found _ _ _ _ E).
    split_and; auto using extends_refl. db_same.
  - pose proof (tag_obj_missing _ _ _ E) as H. cbv zeta in H.
    eexists _, _, [_]. rewrite H. split; [reflexivity|]. db_fields. split_and.
    + db_same.
    + unfold first_tag in *. db_fields. rewrite find_app, E.
      cbn [find Tag.name Tag.type]. now rewrite !String.eqb_refl.
    + apply extends_app.
    + apply wf_insert_tag; [apply next_id_fresh|now apply first_tag_None].
Qed.

(** ** One turn of each loop *)

Lemma cocktail_ids_db_app (d k : DB) :
  cocktails k = [] -> cocktail_ids (db_app d k) = cocktail_ids d.
Proof. unfold cocktail_ids. simpl. intros ->. now rewrite app_nil_r. Qed.

Lemma handle_ingredient_spec (cid : Z) (ing : IngredientCreate.t) (s : Session) :
  exists s' k row,
    handle_ingredient cid ing s = (Return tt, s') /\
    txn s' = db_app (txn s) (mkDB [] k [row] [] [] [] [] []) /\
    line_row (txn s') cid ing row /\
    extends (commits s) (commits s') /\
    (wf (txn s) -> In cid (cocktail_ids (txn s)) -> wf (txn s')).
Proof.
  destruct (ingredient_obj_spec (IngredientCreate.name ing) s)
    as (obj & s1 & k & Hrun & Htxn & Hfirst & Hcommits & Hwf).
  unfold handle_ingredient, bind. rewrite Hrun.
  unfold db_add_cocktail_ingredient, bind, read, write.
  eexists _, k, _. split; [reflexivity|]. db_fields. split_and.
  - rewrite Htxn. db_same.
  - unfold line_row. cbn. split_and; try reflexivity.
    exists obj. split; [|reflexivity].
    unfold first_ingredient in *. now db_fields.
  - exact Hcommits.
  - intros W Hc. apply wf_insert_cocktail_ingredient; cbn.
    + apply next_id_fresh.
    + rewrite Htxn, cocktail_ids_db_app; [exact Hc|reflexivity].
    + apply first_ingredient_Some in Hfirst as [Hin _].
      unfold ingredient_ids. now apply in_map.
    + now apply Hwf.
Qed.

Lemma handle_instruction_spec (cid : Z) (p : Z * string) (s : Session) :
  exists s' row,
    handle_instruction cid p s = (Return tt, s') /\
    txn s' = db_app (txn s) (mkDB [] [] [] [row] [] [] [] []) /\
    instruction_columns row = (cid, fst p + 1, snd p) /\
    commits s' = commits s /\
    (wf (txn s) -> In cid (cocktail_ids (txn s)) -> wf (txn s')).
Proof.
  destruct p as [idx text].
  unfold handle_instruction, db_add_instruction, bind, read, write.
  eexists _, (Instruction.mk _ cid (idx + 1) text).
  split; [reflexivity|]. db_fields. split_and; try reflexivity.
  - db_same.
  - intros W Hc. apply wf_insert_instruction; cbn; auto using next_id_fresh.
Qed.

(** *** Appends to an association table *)

Lemma linked_In (link : Z * Z) (links : list (Z * Z)) :
  linked link links = true <-> In link links.
Proof.
  unfold linked. rewrite existsb_exists. split.
  - intros (p & Hp & E). apply andb_true_iff in E as [E1 E2].
    apply Z.eqb_eq in E1, E2. destruct p, link; cbn [fst snd] in *. now subst.
  - intros H. exists link. split; [exact H|]. now rewrite !Z.eqb_refl.
Qed.

Lemma garnish_link_functional (d : DB) (name : string) (id id' : Z) :
  garnish_link d name id -> garnish_link d name id' -> id = id'.
Proof. intros (g & Hg & <-) (g' & Hg' & <-). congruence. Qed.

Lemma tag_link_functional (type : string) (d : DB) (name : string) (id id' : Z) :
  tag_link type d name id -> tag_link type d name id' -> id = id'.
Proof. intros (t & Ht & <-) (t' & Ht' & <-). congruence. Qed.

Lemma links_appended_nil (cid : Z) (link : string -> Z -> Prop) (old : list (Z * Z)) :
  links_appended cid link [] old [].
Proof. unfold links_appended. split_and; [intros ? []|intros ? []|constructor]. Qed.

Lemma links_appended_cons (cid : Z) (link : string -> Z -> Prop) (name : string)
    (names : list string) (id : Z) (old l1 l2 : list (Z * Z)) :
  link name id ->
  (l1 = [(cid, id)] /\ ~ In (cid, id) old \/ l1 = [] /\ In (cid, id) old) ->
  links_appended cid link names (old ++ l1) l2 ->
  links_appended cid link (name :: names) old (l1 ++ l2).
Proof.
  intros Hl H1 (R & N & D). unfold links_appended. split_and.
  - intros n [<-|Hn].
    + exists id. split; [exact Hl|]. rewrite !in_app_iff.
      destruct H1 as [[-> _]|[_ Hin]]; [right; left; now left|now left].
    + destruct (R n Hn) as (i & Hi & Hin). exists i. split; [exact Hi|].
      now rewrite app_assoc.
  - intros p Hp. apply in_app_iff in Hp as [Hp|Hp].
    + destruct H1 as [[-> Hnew]|[-> _]]; [|contradiction].
      destruct Hp as [<-|[]]. split_and; [reflexivity|exact Hnew|].
      exists name. split; [now left|exact Hl].
    + destruct (N p Hp) as (Hc & Hold & n & Hn & Hi). split_and.
      * exact Hc.
      * intros Hin. apply Hold. apply in_or_app. now left.
      * exists n. split; [now right|exact Hi].
  - destruct H1 as [[-> _]|[-> _]]; [|exact D]. cbn [app]. constructor; [|exact D].
    intros Hin. destruct (N _ Hin) as (_ & Hold & _). apply Hold.
    apply in_or_app. right. now left.
Qed.

Lemma links_appended_impl (cid : Z) (link link' : string -> Z -> Prop)
    (names : list string) (old new : list (Z * Z)) :
  (forall name id, link name id -> link' name id) ->
  links_appended cid link names old new -> links_appended cid link' names old new.
Proof.
  intros H (R & N & D). unfold links_appended. split_and.
  - intros n Hn. destruct (R n Hn) as (i & Hi & Hin). exists i. auto.
  - intros p Hp. destruct (N p Hp) as (Hc & Hold & n & Hn & Hi). split_and; auto.
    exists n. auto.
  - exact D.
Qed.

Lemma links_appended_names (cid : Z) (link : string -> Z -> Prop)
    (names : list string) (old new : list (Z * Z)) (name : string) :
  links_appended cid link names old new -> In name names -> exists id, link name id.
Proof. intros (R & _) Hn. destruct (R name Hn) as (id & Hid & _). now exists id. Qed.

Lemma links_appended_written (cid : Z) (link : string -> Z -> Prop)
    (names : list string) (old new : list (Z * Z)) :
  (forall name id id', link name id -> link name id' -> id = id') ->
  links_appended cid link names old new ->
  links_written cid (resolved link names) (old ++ new) new.
Proof.
  intros F (R & N & D). unfold links_written. split_and.
  - intros id (n & Hn & Hi). destruct (R n Hn) as (i & Hi' & Hin).
    now rewrite (F _ _ _ Hi Hi').
  - intros p Hp. destruct (N p Hp) as (Hc & _ & Hr). auto.
  - exact D.
Qed.

Lemma links_appended_twice (cid : Z) (link1 link2 : string -> Z -> Prop)
    (names1 names2 : list string) (old l1 l2 : list (Z * Z)) :
  (forall name id id', link1 name id -> link1 name id' -> id = id') ->
  (forall name id id', link2 name id -> link2 name id' -> id = id') ->
  links_appended cid link1 names1 old l1 ->
  links_appended cid link2 names2 (old ++ l1) l2 ->
  links_written cid
    (fun id => resolved link1 names1 id \/ resolved link2 names2 id)
    (old ++ l1 ++ l2) (l1 ++ l2).
Proof.
  intros F1 F2 (R1 & N1 & D1) (R2 & N2 & D2). unfold links_written. split_and.
  - intros id [(n & Hn & Hi)|(n & Hn & Hi)].
    + destruct (R1 n Hn) as (i & Hi' & Hin). rewrite (F1 _ _ _ Hi Hi').
      rewrite app_assoc. apply in_or_app. now left.
    + destruct (R2 n Hn) as (i & Hi' & Hin). rewrite (F2 _ _ _ Hi Hi').
      now rewrite app_assoc.
  - intros p Hp. apply in_app_iff in Hp as [Hp|Hp].
    + destruct (N1 p Hp) as (Hc & _ & Hr). auto.
    + destruct (N2 p Hp) as (Hc & _ & Hr). auto.
  - apply NoDup_append; [exact D1|exact D2|]. intros p Hp Hin.
    destruct (N2 p Hp) as (_ & Hold & _). apply Hold. apply in_or_app. now right.
Qed.

Lemma handle_garnish_spec (cid : Z) (name : string) (s : Session) :
  exists s' k links id,
    handle_garnish cid name s = (Return tt, s') /\
    txn s' = db_app (txn s) (mkDB [] [] [] [] [] k [] links) /\
    garnish_link (txn s') name id /\
    (links = [(cid, id)] /\ ~ In (cid, id) (cocktail_garnishes (txn s)) \/
     links = [] /\ In (cid, id) (cocktail_garnishes (txn s))) /\
    extends (commits s) (commits s') /\
    (wf (txn s) -> In cid (cocktail_ids (txn s)) -> wf (txn s')).
Proof.
  destruct (garnish_obj_spec name s)
    as (obj & s1 & k & Hrun & Htxn & Hfirst & Hcommits & Hwf).
  unfold handle_garnish, bind. rewrite Hrun.
  unfold garnishes_append, write.
  assert (Hold : cocktail_garnishes (txn s1) = cocktail_garnishes (txn s)).
  { rewrite Htxn. db_fields. apply app_nil_r. }
  destruct (linked (cid, Garnish.id obj) (cocktail_garnishes (txn s1))) eqn:L.
  - apply linked_In in L. rewrite Hold in L.
    exists s1, k, [], (Garnish.id obj). split_and.
    + destruct s1; reflexivity.
    + exact Htxn.
    + now exists obj.
    + right. split; [reflexivity|exact L].
    + exact Hcommits.
    + intros W _. now apply Hwf.
  - assert (Hnew : ~ In (cid, Garnish.id obj) (cocktail_garnishes (txn s))).
    { rewrite <- Hold. intros Hin. apply linked_In in Hin. congruence. }
    eexists _, k, [_], (Garnish.id obj). split; [reflexivity|]. db_fields. split_and.
    + rewrite Htxn. db_same.
    + exists obj. split; [|reflexivity]. unfold first_garnish in *. now db_fields.
    + left. split; [reflexivity|exact Hnew].
    + exact Hcommits.
    + intros W Hc. apply wf_insert_cocktail_garnish; cbn.
      * rewrite Htxn, cocktail_ids_db_app; [exact Hc|reflexivity].
      * apply first_garnish_Some in Hfirst as [Hin _].
        unfold garnish_ids. now apply in_map.
      * now apply Hwf.
Qed.

Lemma handle_tag_spec (type : string) (cid : Z) (name : string) (s : Session) :
  exists s' k links id,
    handle_tag type cid name s = (Return tt, s') /\
    txn s' = db_app (txn s) (mkDB [] [] [] [] k [] links []) /\
    tag_link type (txn s') name id /\
    (links = [(cid, id)] /\ ~ In (cid, id) (cocktail_tags (txn s)) \/
     links = [] /\ In (cid, id) (cocktail_tags (txn s))) /\
    extends (commits s) (commits s') /\
    (wf (txn s) -> In cid (cocktail_ids (txn s)) -> wf (txn s')).
Proof.
  destruct (tag_obj_spec name type s)
    as (obj & s1 & k & Hrun & Htxn & Hfirst & Hcommits & Hwf).
  unfold handle_tag, bind. rewrite Hrun.
  unfold tags_append, write.
  assert (Hold : cocktail_tags (txn s1) = cocktail_tags (txn s)).
  { rewrite Htxn. db_fields. apply app_nil_r. }
  destruct (linked (cid, Tag.id obj) (cocktail_tags (txn s1))) eqn:L.
  - apply linked_In in L. rewrite Hold in L.
    exists s1, k, [], (Tag.id obj). split_and.
    + destruct s1; reflexivity.
    + exact Htxn.
    + now exists obj.
    + right. split; [reflexivity|exact L].
    + exact Hcommits.
    + intros W _. now apply Hwf.
  - assert (Hnew : ~ In (cid, Tag.id obj) (cocktail_tags (txn s))).
    { rewrite <- Hold. intros Hin. apply linked_In in Hin. congruence. }
    eexists _, k, [_], (Tag.id obj). split; [reflexivity|]. db_fields. split_and.
    + rewrite Htxn. db_same.
    + exists obj. split; [|reflexivity]. unfold first_tag in *. now db_fields.
    + left. split; [reflexivity|exact Hnew].
    + exact Hcommits.
    + intros W Hc. apply wf_insert_cocktail_tag; cbn.
      * rewrite Htxn, cocktail_ids_db_app; [exact Hc|reflexivity].
      * apply first_tag_Some in Hfirst as [Hin _].
        unfold tag_ids. now apply in_map.
      * now apply Hwf.
Qed.

(** ** The five loops *)

Lemma handle_ingredients_spec (cid : Z) (lines : list IngredientCreate.t) :
  forall s, exists s' k rows,
    for_each lines (handle_ingredient cid) s = (Return tt, s') /\
    txn s' = db_app (txn s) (mkDB [] k rows [] [] [] [] []) /\
    Forall2 (line_row (txn s') cid) lines rows /\
    extends (commits s) (commits s') /\
    (wf (txn s) -> In cid (cocktail_ids (txn s)) -> wf (txn s')).
Proof.
  induction lines as [|line lines IH]; intros s.
  - exists s, [], []. split_and; auto using extends_refl. db_same.
  - destruct (handle_ingredient_spec cid line s)
      as (s1 & k1 & row & E1 & T1 & L1 & C1 & W1).
    destruct (IH s1) as (s2 & k2 & rows & E2 & T2 & L2 & C2 & W2).
    exists s2, (k1 ++ k2), (row :: rows).
    rewrite (for_each_cons _ _ _ _ _ E1). split_and.
    + exact E2.
    + rewrite T2, T1. db_same.
    + constructor; [|exact L2]. rewrite T2. now apply line_row_db_app.
    + eapply extends_trans; eassumption.
    + intros W Hc. apply W2; [now apply W1|].
      rewrite T1, cocktail_ids_db_app; [exact Hc|reflexivity].
Qed.

Lemma handle_instructions_spec (cid : Z) (ps : list (Z * string)) :
  forall s, exists s' rows,
    for_each ps (handle_instruction cid) s = (Return tt, s') /\
    txn s' = db_app (txn s) (mkDB [] [] [] rows [] [] [] []) /\
    map instruction_columns rows = map (fun p => (cid, fst p + 1, snd p)) ps /\
    commits s' = commits s /\
    (wf (txn s) -> In cid (cocktail_ids (txn s)) -> wf (txn s')).
Proof.
  induction ps as [|p ps IH]; intros s.
  - exists s, []. split_and; auto. db_same.
  - destruct (handle_instruction_spec cid p s) as (s1 & row & E1 & T1 & L1 & C1 & W1).
    destruct (IH s1) as (s2 & rows & E2 & T2 & L2 & C2 & W2).
    exists s2, (row :: rows).
    rewrite (for_each_cons _ _ _ _ _ E1). split_and.
    + exact E2.
    + rewrite T2, T1. db_same.
    + cbn [map]. now rewrite L1, L2.
    + now rewrite C2.
    + intros W Hc. apply W2; [now apply W1|].
      rewrite T1, cocktail_ids_db_app; [exact Hc|reflexivity].
Qed.

Lemma handle_garnishes_spec (cid : Z) (names : list string) :
  forall s, exists s' k links,
    for_each names (handle_garnish cid) s = (Return tt, s') /\
    txn s' = db_app (txn s) (mkDB [] [] [] [] [] k [] links) /\
    links_appended cid (garnish_link (txn s')) names
      (cocktail_garnishes (txn s)) links /\
    extends (commits s) (commits s') /\
    (wf (txn s) -> In cid (cocktail_ids (txn s)) -> wf (txn s')).
Proof.
  induction names as [|name names IH]; intros s.
  - exists s, [], []. split_and; auto using extends_refl, links_appended_nil. db_same.
  - destruct (handle_garnish_spec cid name s)
      as (s1 & k1 & l1 & id & E1 & T1 & L1 & N1 & C1 & W1).
    destruct (IH s1) as (s2 & k2 & l2 & E2 & T2 & L2 & C2 & W2).
    exists s2, (k1 ++ k2), (l1 ++ l2).
    rewrite (for_each_cons _ _ _ _ _ E1). split_and.
    + exact E2.
    + rewrite T2, T1. db_same.
    + apply (links_appended_cons _ _ _ _ id).
      * rewrite T2. now apply garnish_link_db_app.
      * exact N1.
      * replace (cocktail_garnishes (txn s) ++ l1) with (cocktail_garnishes (txn s1));
          [exact L2|]. rewrite T1. reflexivity.
    + eapply extends_trans; eassumption.
    + intros W Hc. apply W2; [now apply W1|].
      rewrite T1, cocktail_ids_db_app; [exact Hc|reflexivity].
Qed.

Lemma handle_tags_spec (type : string) (cid : Z) (names : list string) :
  forall s, exists s' k links,
    for_each names (handle_tag type cid) s = (Return tt, s') /\
    txn s' = db_app (txn s) (mkDB [] [] [] [] k [] links []) /\
    links_appended cid (tag_link type (txn s')) names (cocktail_tags (txn s)) links /\
    extends (commits s) (commits s') /\
    (wf (txn s) -> In cid (cocktail_ids (txn s)) -> wf (txn s')).
Proof.
  induction names as [|name names IH]; intros s.
  - exists s, [], []. split_and; auto using extends_refl, links_appended_nil. db_same.
  - destruct (handle_tag_spec type cid name s)
      as (s1 & k1 & l1 & id & E1 & T1 & L1 & N1 & C1 & W1).
    destruct (IH s1) as (s2 & k2 & l2 & E2 & T2 & L2 & C2 & W2).
    exists s2, (k1 ++ k2), (l1 ++ l2).
    rewrite (for_each_cons _ _ _ _ _ E1). split_and.
    + exact E2.
    + rewrite T2, T1. db_same.
    + apply (links_appended_cons _ _ _ _ id).
      * rewrite T2. now apply tag_link_db_app.
      * exact N1.
      * replace (cocktail_tags (txn s) ++ l1) with (cocktail_tags (txn s1));
          [exact L2|]. rewrite T1. reflexivity.
    + eapply extends_trans; eassumption.
    + intros W Hc. apply W2; [now apply W1|].
      rewrite T1, cocktail_ids_db_app; [exact Hc|reflexivity].
Qed.

(** ** create_cocktail, from the first statement to the last *)

Lemma bind_run {A B} (m : M A) (k : A -> M B) (s s' : Session) (a : A) :
  m s = (Return a, s') -> bind m k s = k a s'.
Proof. intros H. unfold bind. now rewrite H. Qed.

Lemma cocktail_by_id_new (row : Cocktail.t) (d k : DB) :
  Cocktail.id row = next_id (cocktail_ids d) -> cocktails k = [] ->
  cocktail_by_id (Cocktail.id row) (db_app (insert_cocktail row d) k) = Some row.
Proof.
  intros Hid Hk. unfold cocktail_by_id. db_fields. rewrite Hk, app_nil_r.
  rewrite find_app, find_absent.
  - cbn [find]. now rewrite Z.eqb_refl.
  - intros x Hx. apply Z.eqb_neq. intros E. apply (next_id_fresh (cocktail_ids d)).
    rewrite <- Hid, <- E. unfold cocktail_ids. now apply in_map.
Qed.

Lemma db_refresh_cocktail_run (obj row : Cocktail.t) (s : Session) :
  cocktail_by_id (Cocktail.id obj) (txn s) = Some row ->
  db_refresh_cocktail obj s = (Return row, s).
Proof. intros H. unfold db_refresh_cocktail, bind, read. now rewrite H. Qed.

Lemma Forall2_db_app {A B} (R : DB -> A -> B -> Prop) (d k : DB) (l : list A) (l' : list B) :
  (forall a b, R d a b -> R (db_app d k) a b) ->
  Forall2 (R d) l l' -> Forall2 (R (db_app d k)) l l'.
Proof. intros H. induction 1; constructor; auto. Qed.

Lemma create_cocktail_run (cocktail : CocktailCreate.t) (d : DB) :
  exists k mid,
    let row := new_cocktail_row cocktail d in
    let d' := db_app (insert_cocktail row d) k in
    create_cocktail cocktail (open d) =
      (serialize_cocktail d' row,
       mkSession d' (insert_cocktail row d :: mid ++ [d'])) /\
    written cocktail (Cocktail.id row) d' k /\
    (wf d -> wf d').
Proof.
  set (row := new_cocktail_row cocktail d).
  set (d1 := insert_cocktail row d).
  set (cid := Cocktail.id row).
  set (s1 := mkSession d1 [d1]).
  assert (Hcid : In cid (cocktail_ids d1)).
  { unfold cocktail_ids, d1. db_fields. rewrite map_app, in_app_iff. right. now left. }
  assert (Hwf1 : wf d -> wf d1).
  { intros W. apply wf_insert_cocktail; [apply next_id_fresh|exact W]. }
  destruct (handle_ingredients_spec cid (CocktailCreate.ingredients cocktail) s1)
    as (s2 & k2 & rows2 & E2 & T2 & L2 & C2 & W2).
  destruct (handle_instructions_spec cid
              (enumerate (CocktailCreate.instructions cocktail)) s2)
    as (s3 & rows3 & E3 & T3 & L3 & C3 & W3).
  destruct (handle_garnishes_spec cid
              (listed (CocktailCreate.metadata cocktail) MetadataCreate.garnish) s3)
    as (s4 & k4 & l4 & E4 & T4 & L4 & C4 & W4).
  destruct (handle_tags_spec "tag" cid
              (listed (CocktailCreate.metadata cocktail) MetadataCreate.tags) s4)
    as (s5 & k5 & l5 & E5 & T5 & L5 & C5 & W5).
  destruct (handle_tags_spec "flavor_tag" cid
              (listed (CocktailCreate.metadata cocktail) MetadataCreate.flavor_tags) s5)
    as (s6 & k6 & l6 & E6 & T6 & L6 & C6 & W6).
  set (k := mkDB [] k2 rows2 rows3 (k5 ++ k6) k4 (l5 ++ l6) l4).
  assert (T : txn s6 = db_app d1 k).
  { rewrite T6, T5, T4, T3, T2. unfold k, s1. db_same. }
  assert (C : extends [d1] (commits s6)).
  { rewrite C3 in C4. change [d1] with (commits s1).
    repeat (eapply extends_trans; [eassumption|]). apply extends_refl. }
  destruct C as [mid C].
  assert (L4' : links_appended cid (garnish_link (db_app d1 k))
                  (listed (CocktailCreate.metadata cocktail) MetadataCreate.garnish)
                  (cocktail_garnishes (txn s3)) l4).
  { apply (links_appended_impl _ _ _ _ _ _ (fun name id H =>
             garnish_link_db_app _ (mkDB [] [] [] [] (k5 ++ k6) [] (l5 ++ l6) [])
               name id H)) in L4.
    replace (db_app d1 k) with (db_app (txn s4) (mkDB [] [] [] [] (k5 ++ k6) []
               (l5 ++ l6) [])); [exact L4|].
    rewrite T4, T3, T2. unfold k, s1. db_same. }
  assert (L5' : links_appended cid (tag_link "tag" (db_app d1 k))
                  (listed (CocktailCreate.metadata cocktail) MetadataCreate.tags)
                  (cocktail_tags (txn s4)) l5).
  { apply (links_appended_impl _ _ _ _ _ _ (fun name id H =>
             tag_link_db_app "tag" _ (mkDB [] [] [] [] k6 [] l6 []) name id H)) in L5.
    replace (db_app d1 k) with (db_app (txn s5) (mkDB [] [] [] [] k6 [] l6 []));
      [exact L5|].
    rewrite T5, T4, T3, T2. unfold k, s1. db_same. }
  assert (L6' : links_appended cid (tag_link "flavor_tag" (db_app d1 k))
                  (listed (CocktailCreate.metadata cocktail) MetadataCreate.flavor_tags)
                  (cocktail_tags (txn s5)) l6).
  { now rewrite <- T. }
  exists k, mid. cbv zeta. fold row d1 cid. split_and.
  - unfold create_cocktail. cbv zeta.
    rewrite (bind_run _ _ (open d) (mkSession d1 []) row) by reflexivity.
    rewrite (bind_run _ _ _ s1 tt) by reflexivity.
    rewrite (bind_run _ _ s1 s1 row).
    2:{ apply db_refresh_cocktail_run. unfold s1. cbn [txn].
        rewrite <- (db_app_empty d1). now apply cocktail_by_id_new. }
    fold cid.
    rewrite (bind_run _ _ _ _ _ E2), (bind_run _ _ _ _ _ E3).
    rewrite for_each_listed_eq, (bind_run _ _ _ _ _ E4).
    rewrite for_each_listed_eq, (bind_run _ _ _ _ _ E5).
    rewrite for_each_listed_eq, (bind_run _ _ _ _ _ E6).
    set (s7 := mkSession (txn s6) (commits s6 ++ [txn s6])).
    rewrite (bind_run _ _ s6 s7 tt) by reflexivity.
    rewrite (bind_run _ _ s7 s7 row).
    2:{ apply db_refresh_cocktail_run. unfold s7. cbn [txn]. rewrite T.
        now apply cocktail_by_id_new. }
    unfold lift, s7. cbn [txn]. rewrite T, C. reflexivity.
  - constructor.
    + reflexivity.
    + change (cocktail_ingredients k) with rows2.
      replace (db_app d1 k) with (db_app (txn s2) (mkDB [] [] [] rows3 (k5 ++ k6) k4
                 (l5 ++ l6) l4)).
      * apply (Forall2_db_app (fun d => line_row d cid)); [|exact L2].
        intros; now apply line_row_db_app.
      * rewrite T2. unfold k, s1. db_same.
    + exact L3.
    + replace (cocktail_garnishes (db_app d1 k)) with (cocktail_garnishes (txn s3) ++ l4).
      * apply links_appended_written; [apply garnish_link_functional|exact L4'].
      * rewrite T3, T2. unfold k, s1. db_fields. now rewrite !app_nil_r.
    + intros name. apply (links_appended_names _ _ _ _ _ _ L4').
    + replace (cocktail_tags (db_app d1 k)) with (cocktail_tags (txn s4) ++ l5 ++ l6).
      * apply links_appended_twice; try apply tag_link_functional; [exact L5'|].
        replace (cocktail_tags (txn s4) ++ l5) with (cocktail_tags (txn s5));
          [exact L6'|]. rewrite T5. reflexivity.
      * rewrite T4, T3, T2. unfold k, s1. db_fields. now rewrite !app_nil_r.
    + intros name. apply (links_appended_names _ _ _ _ _ _ L5').
    + intros name. apply (links_appended_names _ _ _ _ _ _ L6').
  - intros W. rewrite <- T.
    assert (In2 : In cid (cocktail_ids (txn s2))).
    { rewrite T2, cocktail_ids_db_app; [exact Hcid|reflexivity]. }
    assert (In3 : In cid (cocktail_ids (txn s3))).
    { rewrite T3, cocktail_ids_db_app; [exact In2|reflexivity]. }
    assert (In4 : In cid (cocktail_ids (txn s4))).
    { rewrite T4, cocktail_ids_db_app; [exact In3|reflexivity]. }
    assert (In5 : In cid (cocktail_ids (txn s5))).
    { rewrite T5, cocktail_ids_db_app; [exact In4|reflexivity]. }
    apply W6; [|exact In5]. apply W5; [|exact In4]. apply W4; [|exact In3].
    apply W3; [|exact In2]. apply W2; [|exact Hcid]. now apply Hwf1.
Qed.

(** ** The database a create leaves behind *)

Lemma after_create_spec (cocktail : CocktailCreate.t) (d : DB) :
  exists k,
    after_create d cocktail = db_app (insert_cocktail (new_cocktail_row cocktail d) d) k /\
    create_cocktail cocktail (open d) =
      (serialize_cocktail (after_create d cocktail) (new_cocktail_row cocktail d),
       snd (create_cocktail cocktail (open d))) /\
    txn (snd (create_cocktail cocktail (open d))) = after_create d cocktail /\
    written cocktail (next_id (cocktail_ids d)) (after_create d cocktail) k /\
    (wf d -> wf (after_create d cocktail)).
Proof.
  destruct (create_cocktail_run cocktail d) as (k & mid & Hrun & Hw & Hwf).
  cbv zeta in Hrun. exists k.
  assert (E : after_create d cocktail =
              db_app (insert_cocktail (new_cocktail_row cocktail d) d) k).
  { unfold after_create, durable. rewrite Hrun. cbn [snd commits].
    change (?x :: mid ++ [?y]) with ((x :: mid) ++ [y]). apply last_last. }
  rewrite E. rewrite Hrun. cbn [snd txn]. auto.
Qed.

Lemma wf_after_create (d : DB) (cocktail : CocktailCreate.t) :
  wf d -> wf (after_create d cocktail).
Proof. destruct (after_create_spec cocktail d) as (k & _ & _ & _ & _ & H). exact H. Qed.

Lemma wf_after_creates (l : list CocktailCreate.t) (d : DB) :
  wf d -> wf (after_creates d l).
Proof.
  unfold after_creates. revert d. induction l as [|c l IH]; intros d W; simpl.
  - exact W.
  - apply IH. now apply wf_after_create.
Qed.

(** ** Rows of the new cocktail only *)

Lemma filter_none {A} (f : A -> bool) (l : list A) :
  (forall x, In x l -> f x = false) -> filter f l = [].
Proof.
  induction l as [|a l IH]; simpl; intros H; [reflexivity|].
  rewrite (H a (or_introl eq_refl)). apply IH. intros x Hx. apply H. now right.
Qed.

Lemma filter_all {A} (f : A -> bool) (l : list A) :
  (forall x, In x l -> f x = true) -> filter f l = l.
Proof.
  induction l as [|a l IH]; simpl; intros H; [reflexivity|].
  rewrite (H a (or_introl eq_refl)). f_equal. apply IH. intros x Hx. apply H. now right.
Qed.

Lemma Forall2_In_r {A B} (R : A -> B -> Prop) (l : list A) (l' : list B) (b : B) :
  Forall2 R l l' -> In b l' -> exists a, In a l /\ R a b.
Proof.
  induction 1 as [|x y l l' Hxy _ IH]; simpl; [contradiction|].
  intros [<-|H]; [exists x; auto|]. destruct (IH H) as (a & Ha & Hab). exists a. auto.
Qed.

Lemma Forall2_In_l {A B} (R : A -> B -> Prop) (l : list A) (l' : list B) (a : A) :
  Forall2 R l l' -> In a l -> exists b, In b l' /\ R a b.
Proof.
  induction 1 as [|x y l l' Hxy _ IH]; simpl; [contradiction|].
  intros [<-|H]; [exists y; auto|]. destruct (IH H) as (b & Hb & Hab). exists b. auto.
Qed.

Lemma cocktail_ingredients_of_new (cocktail : CocktailCreate.t) (d k : DB) :
  wf d ->
  written cocktail (next_id (cocktail_ids d))
    (db_app (insert_cocktail (new_cocktail_row cocktail d) d) k) k ->
  cocktail_ingredients_of (next_id (cocktail_ids d))
    (db_app (insert_cocktail (new_cocktail_row cocktail d) d) k) =
  cocktail_ingredients k.
Proof.
  intros W Hw. unfold cocktail_ingredients_of. db_fields.
  rewrite filter_app, filter_none, filter_all; [reflexivity| |].
  - intros row Hrow. apply Z.eqb_eq.
    destruct (Forall2_In_r _ _ _ row (written_lines _ _ _ _ Hw) Hrow) as (line & _ & H).
    apply H.
  - intros row Hrow. apply Z.eqb_neq. intros E.
    apply (next_id_fresh (cocktail_ids d)). rewrite <- E.
    now apply (wf_ci_cocktail _ W).
Qed.

Lemma instructions_of_new (cocktail : CocktailCreate.t) (d k : DB) :
  wf d ->
  written cocktail (next_id (cocktail_ids d))
    (db_app (insert_cocktail (new_cocktail_row cocktail d) d) k) k ->
  instructions_of (next_id (cocktail_ids d))
    (db_app (insert_cocktail (new_cocktail_row cocktail d) d) k) =
  instructions k.
Proof.
  intros W Hw. unfold instructions_of. db_fields.
  rewrite filter_app, filter_none, filter_all; [reflexivity| |].
  - intros row Hrow. apply Z.eqb_eq.
    pose proof (written_steps _ _ _ _ Hw) as H.
    apply (in_map instruction_columns) in Hrow. rewrite H in Hrow.
    apply in_map_iff in Hrow as (p & E & _). unfold instruction_columns in E.
    now inversion E.
  - intros row Hrow. apply Z.eqb_neq. intros E.
    apply (next_id_fresh (cocktail_ids d)). rewrite <- E.
    now apply (wf_instruction_cocktail _ W).
Qed.

(** ** Serialization of well-formed rows *)

Lemma traverse_Forall2 {A B} (f : A -> Outcome B) (l : list A) (l' : list B) :
  Forall2 (fun a b => f a = Return b) l l' -> traverse f l = Return l'.
Proof. induction 1 as [|a b l l' H _ IH]; simpl; [reflexivity|]. now rewrite H, IH. Qed.

Lemma traverse_total {A B} (f : A -> Outcome B) (l : list A) :
  (forall a, In a l -> exists b, f a = Return b) ->
  exists l', traverse f l = Return l' /\ Forall2 (fun a b => f a = Return b) l l'.
Proof.
  induction l as [|a l IH]; intros H.
  - exists []. split; [reflexivity|constructor].
  - destruct (H a (or_introl eq_refl)) as (b & Hb).
    destruct IH as (l' & Hl' & F); [intros x Hx; apply H; now right|].
    exists (b :: l'). simpl. rewrite Hb, Hl'. split; [reflexivity|now constructor].
Qed.

Lemma ingredient_read_line (d : DB) (cid : Z) (line : IngredientCreate.t)
    (row : CocktailIngredient.t) :
  wf d -> line_row d cid line row -> ingredient_read d row = Return (line_read line).
Proof.
  intros W (_ & Hq & Hu & Hn & i & Hi & Hid).
  apply first_ingredient_Some in Hi as [Hin Hname].
  unfold ingredient_read, ingredient_by_id. rewrite Hid.
  rewrite (find_by_key Ingredient.id _ _ (wf_ingredient_ids _ W) Hin).
  unfold line_read. now rewrite Hname, Hq, Hu, Hn.
Qed.

Lemma serialize_cocktail_total (d : DB) (c : Cocktail.t) :
  wf d -> exists doc, serialize_cocktail d c = Return doc.
Proof.
  intros W. unfold serialize_cocktail.
  destruct (traverse_total (ingredient_read d) (cocktail_ingredients_of (Cocktail.id c) d))
    as (l & -> & _); [|eauto].
  intros ci Hci. apply filter_In in Hci as [Hci _].
  destruct (find_key_present Ingredient.id (ingredients d)
              (CocktailIngredient.ingredient_id ci)) as (i & Hi).
  - now apply (wf_ci_ingredient _ W).
  - unfold ingredient_read, ingredient_by_id. rewrite Hi. eauto.
Qed.

Lemma line_rows_read (d : DB) (cid : Z) (lines : list IngredientCreate.t)
    (rows : list CocktailIngredient.t) :
  wf d -> Forall2 (line_row d cid) lines rows ->
  traverse (ingredient_read d) rows = Return (map line_read lines).
Proof.
  intros W F. apply traverse_Forall2.
  induction F as [|line row lines rows H _ IH]; simpl; constructor; [|exact IH].
  now apply (ingredient_read_line d cid).
Qed.

(** ** Round trip (C1) *)

(** C1.  For every request, on every well-formed database,
    [create_cocktail] returns a document and leaves durable the state of
    its session, in which: (1) the [cocktails] table holds, under the id
    of the document, an id that no cocktail had before, a row with the
    title, author and description of the request and the difficulty, glass
    type and cover image of its metadata (unset when the request has no
    metadata); (2) the [cocktail_ingredients] rows of that cocktail are
    one per ingredient line of the request, in order, each with the
    line's quantity, unit and notes and the key of the ingredient that
    bears the line's name; (3) the document is the serialization of that
    stored row in that durable state, and is what [get_cocktail] returns
    for its id in a later session; (4) the document carries the title,
    author, description and the three metadata scalars of the request, and
    one ingredient entry per line, in order, with the line's name,
    quantity, unit and notes. *)
Theorem create_round_trip (cocktail : CocktailCreate.t) (d : DB) :
  wf d ->
  exists doc s' row,
    create_cocktail cocktail (open d) = (Return doc, s') /\
    durable d s' = txn s' /\
    ~ In (CocktailRead.id doc) (cocktail_ids d) /\
    cocktail_by_id (CocktailRead.id doc) (durable d s') = Some row /\
    Cocktail.title row = CocktailCreate.title cocktail /\
    Cocktail.author row = CocktailCreate.author cocktail /\
    Cocktail.description row = CocktailCreate.description cocktail /\
    Cocktail.difficulty row =
      metadata_field (CocktailCreate.metadata cocktail) MetadataCreate.difficulty /\
    Cocktail.glass_type row =
      metadata_field (CocktailCreate.metadata cocktail) MetadataCreate.glass_type /\
    Cocktail.cover_image row =
      metadata_field (CocktailCreate.metadata cocktail) MetadataCreate.cover_image /\
    Forall2 (line_row (durable d s') (CocktailRead.id doc))
      (CocktailCreate.ingredients cocktail)
      (cocktail_ingredients_of (CocktailRead.id doc) (durable d s')) /\
    serialize_cocktail (durable d s') row = Return doc /\
    get_cocktail (CocktailRead.id doc) (open (durable d s')) =
      (Return doc, open (durable d s')) /\
    CocktailRead.title doc = CocktailCreate.title cocktail /\
    CocktailRead.author doc = CocktailCreate.author cocktail /\
    CocktailRead.description doc = CocktailCreate.description cocktail /\
    MetadataRead.difficulty (CocktailRead.metadata doc) =
      metadata_field (CocktailCreate.metadata cocktail) MetadataCreate.difficulty /\
    MetadataRead.glass_type (CocktailRead.metadata doc) =
      metadata_field (CocktailCreate.metadata cocktail) MetadataCreate.glass_type /\
    MetadataRead.cover_image (CocktailRead.metadata doc) =
      metadata_field (CocktailCreate.metadata cocktail) MetadataCreate.cover_image /\
    CocktailRead.ingredients doc =
      map line_read (CocktailCreate.ingredients cocktail).
Proof.
  intros W.
  destruct (after_create_spec cocktail d) as (k & E & Hrun & Htxn & Hw & Hwf).
  set (row := new_cocktail_row cocktail d) in *.
  assert (Hrow : cocktail_by_id (next_id (cocktail_ids d)) (after_create d cocktail) =
                 Some row).
  { rewrite E. apply (cocktail_by_id_new row d k eq_refl).
    exact (written_cocktails _ _ _ _ Hw). }
  assert (Hlines : cocktail_ingredients_of (next_id (cocktail_ids d))
                     (after_create d cocktail) = cocktail_ingredients k).
  { rewrite E in Hw |- *. now apply cocktail_ingredients_of_new. }
  assert (Hdoc : serialize_cocktail (after_create d cocktail) row =
                 Return
                   (CocktailRead.mk (next_id (cocktail_ids d))
                      (CocktailCreate.title cocktail) (CocktailCreate.author cocktail)
                      (CocktailCreate.description cocktail)
                      (map line_read (CocktailCreate.ingredients cocktail))
                      (map Instruction.instruction_text
                         (sorted_by_step_number
                            (instructions_of (next_id (cocktail_ids d))
                               (after_create d cocktail))))
                      (MetadataRead.mk (Cocktail.difficulty row) (Cocktail.glass_type row)
                         (map Garnish.name
                            (garnishes_of (next_id (cocktail_ids d))
                               (after_create d cocktail)))
                         (names_of_type "tag"
                            (tags_of (next_id (cocktail_ids d)) (after_create d cocktail)))
                         (names_of_type "flavor_tag"
                            (tags_of (next_id (cocktail_ids d)) (after_create d cocktail)))
                         (Cocktail.cover_image row)))).
  { unfold serialize_cocktail.
    change (Cocktail.id row) with (next_id (cocktail_ids d)). rewrite Hlines.
    now rewrite (line_rows_read _ _ _ _ (Hwf W) (written_lines _ _ _ _ Hw)). }
  rewrite Hdoc in Hrun.
  eexists _, (snd (create_cocktail cocktail (open d))), row.
  split; [exact Hrun|].
  change (durable d (snd (create_cocktail cocktail (open d))))
    with (after_create d cocktail).
  cbn [CocktailRead.id CocktailRead.title CocktailRead.author CocktailRead.description
       CocktailRead.ingredients CocktailRead.metadata MetadataRead.difficulty
       MetadataRead.glass_type MetadataRead.cover_image].
  split_and; try reflexivity.
  - now rewrite Htxn.
  - apply next_id_fresh.
  - exact Hrow.
  - rewrite Hlines. exact (written_lines _ _ _ _ Hw).
  - exact Hdoc.
  - unfold get_cocktail, first_cocktail, bind, read, ret, lift. cbn [open txn].
    rewrite Hrow. unfold open. cbn [txn]. rewrite Hdoc. reflexivity.
Qed.

Lemma create_round_trip_witness :
  exists doc s' row,
    create_cocktail mojito (open (after_create empty_db daiquiri)) = (Return doc, s') /\
    durable (after_create empty_db daiquiri) s' = txn s' /\
    ~ In (CocktailRead.id doc) (cocktail_ids (after_create empty_db daiquiri)) /\
    cocktail_by_id (CocktailRead.id doc) (durable (after_create empty_db daiquiri) s') =
      Some row /\
    Cocktail.title row = "Mojito" /\
    Cocktail.author row = Some "Ana" /\
    Cocktail.description row = Some "Minty" /\
    Cocktail.difficulty row = Some "easy" /\
    Cocktail.glass_type row = Some "highball" /\
    Cocktail.cover_image row = Some "mojito.png" /\
    Forall2 (line_row (durable (after_create empty_db daiquiri) s') (CocktailRead.id doc))
      (CocktailCreate.ingredients mojito)
      (cocktail_ingredients_of (CocktailRead.id doc)
         (durable (after_create empty_db daiquiri) s')) /\
    serialize_cocktail (durable (after_create empty_db daiquiri) s') row = Return doc /\
    get_cocktail (CocktailRead.id doc)
      (open (durable (after_create empty_db daiquiri) s')) =
      (Return doc, open (durable (after_create empty_db daiquiri) s')) /\
    CocktailRead.title doc = "Mojito" /\
    CocktailRead.author doc = Some "Ana" /\
    CocktailRead.description doc = Some "Minty" /\
    MetadataRead.difficulty (CocktailRead.metadata doc) = Some "easy" /\
    MetadataRead.glass_type (CocktailRead.metadata doc) = Some "highball" /\
    MetadataRead.cover_image (CocktailRead.metadata doc) = Some "mojito.png" /\
    CocktailRead.ingredients doc = map line_read (CocktailCreate.ingredients mojito).
Proof.
  apply (create_round_trip mojito (after_create empty_db daiquiri)).
  apply wf_after_create. exact wf_empty_db.
Defined.

(** ** Step order (C2) *)

Lemma enumerate_from_nth {A} (l : list A) :
  forall start n,
    nth_error (enumerate_from start l) n =
    option_map (fun x => (start + Z.of_nat n, x)) (nth_error l n).
Proof.
  induction l as [|a l IH]; intros start [|n]; try reflexivity.
  - cbn [enumerate_from nth_error option_map]. do 2 f_equal. lia.
  - cbn [enumerate_from nth_error]. rewrite IH.
    destruct (nth_error l n); cbn [option_map]; [|reflexivity].
    do 2 f_equal. lia.
Qed.

Lemma enumerate_from_snd {A} (l : list A) :
  forall start, map snd (enumerate_from start l) = l.
Proof. induction l as [|a l IH]; intros start; simpl; [reflexivity|]. now rewrite IH. Qed.

Lemma step_numbers_ascend (cid : Z) (l : list string) :
  forall start rows,
    map instruction_columns rows =
      map (fun p => (cid, fst p + 1, snd p)) (enumerate_from start l) ->
    StronglySorted
      (fun x y => Instruction.step_number x <= Instruction.step_number y) rows /\
    Forall (fun r => start + 1 <= Instruction.step_number r) rows.
Proof.
  induction l as [|a l IH]; intros start rows H.
  - destruct rows; [|discriminate]. split; constructor.
  - destruct rows as [|row rows]; [discriminate|].
    cbn [enumerate_from map fst snd] in H. unfold instruction_columns at 1 in H.
    injection H as Hc Hs Ht Hrest.
    destruct (IH _ _ Hrest) as [S F]. split.
    + constructor; [exact S|]. eapply Forall_impl; [|exact F].
      intros r Hr. cbn beta in Hr. lia.
    + constructor; [lia|]. eapply Forall_impl; [|exact F].
      intros r Hr. cbn beta in Hr. lia.
Qed.

Lemma step_rows_nth (cid : Z) (l : list string) (rows : list Instruction.t) :
  map instruction_columns rows =
    map (fun p => (cid, fst p + 1, snd p)) (enumerate l) ->
  forall n text, nth_error l n = Some text ->
    exists row, nth_error rows n = Some row /\
                Instruction.step_number row = Z.of_nat n + 1 /\
                Instruction.instruction_text row = text.
Proof.
  intros H n text Hn.
  assert (E : nth_error (map instruction_columns rows) n =
              Some (cid, Z.of_nat n + 1, text)).
  { rewrite H, nth_error_map. unfold enumerate.
    rewrite enumerate_from_nth, Hn. reflexivity. }
  rewrite nth_error_map in E. destruct (nth_error rows n) as [row|]; [|discriminate].
  exists row. split; [reflexivity|]. cbn [option_map] in E.
  unfold instruction_columns in E. now inversion E.
Qed.

Lemma step_rows_text (cid : Z) (l : list string) (rows : list Instruction.t) :
  map instruction_columns rows =
    map (fun p => (cid, fst p + 1, snd p)) (enumerate l) ->
  map Instruction.instruction_text rows = l.
Proof.
  intros H.
  transitivity (map snd (map instruction_columns rows)).
  - rewrite map_map. reflexivity.
  - rewrite H, map_map. exact (enumerate_from_snd l 0).
Qed.

(** C2.  On every well-formed database, for every list of instructions
    (empty, one step or many): the step rows of the created cocktail are
    as many as the instructions, the row at index [n] carries position
    [n + 1] and the text of instruction [n], and the returned document
    lists, sorted by position and reduced to their text, exactly the
    instructions of the request in their order. *)
Theorem create_step_order (cocktail : CocktailCreate.t) (d : DB) :
  wf d ->
  exists doc s',
    create_cocktail cocktail (open d) = (Return doc, s') /\
    List.length (instructions_of (next_id (cocktail_ids d)) (txn s')) =
      List.length (CocktailCreate.instructions cocktail) /\
    (forall n text,
        nth_error (CocktailCreate.instructions cocktail) n = Some text ->
        exists row,
          nth_error (instructions_of (next_id (cocktail_ids d)) (txn s')) n = Some row /\
          Instruction.step_number row = Z.of_nat n + 1 /\
          Instruction.instruction_text row = text) /\
    CocktailRead.instructions doc =
      map Instruction.instruction_text
        (sorted_by_step_number (instructions_of (next_id (cocktail_ids d)) (txn s'))) /\
    CocktailRead.instructions doc = CocktailCreate.instructions cocktail.
Proof.
  intros W.
  destruct (after_create_spec cocktail d) as (k & E & Hrun & Htxn & Hw & Hwf).
  destruct (serialize_cocktail_total (after_create d cocktail)
              (new_cocktail_row cocktail d) (Hwf W)) as (doc & Hdoc).
  exists doc, (snd (create_cocktail cocktail (open d))).
  rewrite Htxn. rewrite Hrun at 1. rewrite Hdoc. split; [reflexivity|].
  rewrite E in *. rewrite (instructions_of_new cocktail d k W Hw).
  pose proof (written_steps _ _ _ _ Hw) as Hsteps.
  assert (Hdoc' : CocktailRead.instructions doc =
                  map Instruction.instruction_text
                      (sorted_by_step_number (instructions k))).
  { unfold serialize_cocktail in Hdoc.
    destruct (traverse _ _); [|discriminate]. inversion Hdoc; subst doc.
    cbn [CocktailRead.instructions].
    change (Cocktail.id (new_cocktail_row cocktail d)) with (next_id (cocktail_ids d)).
    now rewrite (instructions_of_new cocktail d k W Hw). }
  split_and.
  - apply (f_equal (@List.length _)) in Hsteps. rewrite !length_map in Hsteps.
    rewrite Hsteps. unfold enumerate.
    rewrite <- (length_map snd), enumerate_from_snd. reflexivity.
  - now apply (step_rows_nth (next_id (cocktail_ids d))).
  - exact Hdoc'.
  - rewrite Hdoc'.
    rewrite sorted_by_step_number_ascending.
    + now apply (step_rows_text (next_id (cocktail_ids d))).
    + now apply (step_numbers_ascend (next_id (cocktail_ids d))
                   (CocktailCreate.instructions cocktail) 0).
Qed.

Lemma create_step_order_witness :
  exists doc s',
    create_cocktail mojito (open (after_create empty_db daiquiri)) = (Return doc, s') /\
    List.length (instructions_of 2 (txn s')) = 3%nat /\
    (forall n text,
        nth_error ["Muddle"; "Shake"; "Top up"] n = Some text ->
        exists row,
          nth_error (instructions_of 2 (txn s')) n = Some row /\
          Instruction.step_number row = Z.of_nat n + 1 /\
          Instruction.instruction_text row = text) /\
    CocktailRead.instructions doc =
      map Instruction.instruction_text
        (sorted_by_step_number (instructions_of 2 (txn s'))) /\
    CocktailRead.instructions doc = ["Muddle"; "Shake"; "Top up"].
Proof.
  apply (create_step_order mojito (after_create empty_db daiquiri)).
  apply wf_after_create. exact wf_empty_db.
Defined.

(** ** Duplicate ingredient lines (C9) *)

Lemma Forall2_nth {A B} (R : A -> B -> Prop) (l : list A) (l' : list B) :
  Forall2 R l l' ->
  forall n a b, nth_error l n = Some a -> nth_error l' n = Some b -> R a b.
Proof.
  induction 1 as [|x y l l' Hxy _ IH]; intros [|n] a b Ha Hb; try discriminate.
  - cbn in Ha, Hb. inversion Ha; inversion Hb; subst. exact Hxy.
  - cbn in Ha, Hb. now apply (IH n).
Qed.

Lemma NoDup_map_filter {A B} (g : A -> B) (f : A -> bool) (l : list A) :
  NoDup (map g l) -> NoDup (map g (filter f l)).
Proof.
  induction l as [|a l IH]; simpl; intros H; [constructor|].
  inversion H as [|? ? Ha Hl]; subst.
  destruct (f a); [|now apply IH]. simpl. constructor; [|now apply IH].
  intros Hin. apply Ha. apply in_map_iff in Hin as (x & E & Hx).
  apply filter_In in Hx as [Hx _]. rewrite <- E. now apply in_map.
Qed.

(** C9.  On every well-formed database the created cocktail has one
    [cocktail_ingredients] row per ingredient line of the request, in
    order, each with the quantity, unit and notes of its own line and with
    a primary key of its own; the rows of two lines that name the same
    ingredient reference the same [ingredients] row, and no two rows of
    [ingredients] carry the same name. *)
Theorem create_duplicate_ingredient_lines (cocktail : CocktailCreate.t) (d : DB) :
  wf d ->
  Forall2 (line_row (after_create d cocktail) (next_id (cocktail_ids d)))
    (CocktailCreate.ingredients cocktail)
    (cocktail_ingredients_of (next_id (cocktail_ids d)) (after_create d cocktail)) /\
  NoDup (map CocktailIngredient.id
           (cocktail_ingredients_of (next_id (cocktail_ids d))
              (after_create d cocktail))) /\
  (forall m n line line' row row',
      nth_error (CocktailCreate.ingredients cocktail) m = Some line ->
      nth_error (CocktailCreate.ingredients cocktail) n = Some line' ->
      nth_error (cocktail_ingredients_of (next_id (cocktail_ids d))
                   (after_create d cocktail)) m = Some row ->
      nth_error (cocktail_ingredients_of (next_id (cocktail_ids d))
                   (after_create d cocktail)) n = Some row' ->
      IngredientCreate.name line = IngredientCreate.name line' ->
      CocktailIngredient.ingredient_id row = CocktailIngredient.ingredient_id row') /\
  NoDup (map Ingredient.name (ingredients (after_create d cocktail))).
Proof.
  intros W.
  destruct (after_create_spec cocktail d) as (k & E & _ & _ & Hw & Hwf).
  specialize (Hwf W).
  assert (F : Forall2 (line_row (after_create d cocktail) (next_id (cocktail_ids d)))
                (CocktailCreate.ingredients cocktail)
                (cocktail_ingredients_of (next_id (cocktail_ids d))
                   (after_create d cocktail))).
  { rewrite E in *. rewrite (cocktail_ingredients_of_new cocktail d k W Hw).
    exact (written_lines _ _ _ _ Hw). }
  split_and.
  - exact F.
  - apply NoDup_map_filter. exact (wf_cocktail_ingredient_ids _ Hwf).
  - intros m n line line' row row' Hm Hn Rm Rn Hname.
    destruct (Forall2_nth _ _ _ F _ _ _ Hm Rm) as (_ & _ & _ & _ & i & Hi & ->).
    destruct (Forall2_nth _ _ _ F _ _ _ Hn Rn) as (_ & _ & _ & _ & i' & Hi' & ->).
    rewrite Hname in Hi. rewrite Hi in Hi'. now inversion Hi'.
  - exact (wf_ingredient_names _ Hwf).
Qed.

Lemma create_duplicate_ingredient_lines_witness :
  Forall2 (line_row (after_create (after_create empty_db daiquiri) mojito) 2)
    (CocktailCreate.ingredients mojito)
    (cocktail_ingredients_of 2 (after_create (after_create empty_db daiquiri) mojito)) /\
  NoDup (map CocktailIngredient.id
           (cocktail_ingredients_of 2
              (after_create (after_create empty_db daiquiri) mojito))) /\
  (forall m n line line' row row',
      nth_error (CocktailCreate.ingredients mojito) m = Some line ->
      nth_error (CocktailCreate.ingredients mojito) n = Some line' ->
      nth_error (cocktail_ingredients_of 2
                   (after_create (after_create empty_db daiquiri) mojito)) m = Some row ->
      nth_error (cocktail_ingredients_of 2
                   (after_create (after_create empty_db daiquiri) mojito)) n = Some row' ->
      IngredientCreate.name line = IngredientCreate.name line' ->
      CocktailIngredient.ingredient_id row = CocktailIngredient.ingredient_id row') /\
  NoDup (map Ingredient.name
           (ingredients (after_create (after_create empty_db daiquiri) mojito))).
Proof.
  apply (create_duplicate_ingredient_lines mojito (after_create empty_db daiquiri)).
  apply wf_after_create. exact wf_empty_db.
Defined.

(** The two Mint lines of the mojito, created after the daiquiri: two
    rows, one Mint, and the Rum of the daiquiri used again. *)
Example mojito_lines :
  map (fun ci => (CocktailIngredient.id ci, CocktailIngredient.ingredient_id ci,
                  CocktailIngredient.quantity ci))
      (cocktail_ingredients_of 2 (after_create (after_create empty_db daiquiri) mojito))
    = [(3, 3, Some "8"); (4, 1, Some "2"); (5, 3, Some "1")] /\
  map Ingredient.name (ingredients (after_create (after_create empty_db daiquiri) mojito))
    = ["Rum"; "Lime Juice"; "Mint"].
Proof. split; reflexivity. Qed.

(** ** The links of the new cocktail *)

Lemma unique_In (ids : list Z) (id : Z) : In id (unique ids) <-> In id ids.
Proof.
  induction ids as [|x ids IH]; cbn [unique In]; [tauto|].
  rewrite filter_In, IH. split.
  - intros [H|[H _]]; auto.
  - intros [H|H]; [now left|].
    destruct (Z.eqb_spec id x) as [->|Hne]; [now left|].
    right. split; [exact H|reflexivity].
Qed.

Lemma unique_NoDup (ids : list Z) : NoDup ids -> unique ids = ids.
Proof.
  induction 1 as [|x ids Hx Hnd IH]; cbn [unique]; [reflexivity|].
  rewrite IH. f_equal. apply filter_all. intros y Hy.
  apply negb_true_iff, Z.eqb_neq. intros ->. contradiction.
Qed.

Lemma related_member (links : list (Z * Z)) (c id : Z) :
  In id (related links c) <-> In (c, id) links.
Proof.
  unfold related. rewrite in_map_iff. split.
  - intros ([c' id'] & E & Hp). apply filter_In in Hp as [Hp Hc].
    cbn [fst snd] in *. apply Z.eqb_eq in Hc. now subst.
  - intros H. exists (c, id). split; [reflexivity|].
    apply filter_In. split; [exact H|]. apply Z.eqb_refl.
Qed.

Lemma related_new (links new : list (Z * Z)) (d : DB) :
  (forall p, In p links -> In (fst p) (cocktail_ids d)) ->
  (forall p, In p new -> fst p = next_id (cocktail_ids d)) ->
  related (links ++ new) (next_id (cocktail_ids d)) = map snd new.
Proof.
  intros Hold Hnew. unfold related.
  rewrite filter_app, filter_none, filter_all; [reflexivity| |].
  - intros p Hp. apply Z.eqb_eq. now apply Hnew.
  - intros p Hp. apply Z.eqb_neq. intros E.
    apply (next_id_fresh (cocktail_ids d)). rewrite <- E. now apply Hold.
Qed.

Lemma NoDup_map_snd (cid : Z) (links : list (Z * Z)) :
  (forall p, In p links -> fst p = cid) -> NoDup links -> NoDup (map snd links).
Proof.
  intros H. induction 1 as [|[c id] l Hp Hl IH]; cbn [map snd]; constructor.
  - intros Hin. apply Hp. apply in_map_iff in Hin as ([c' id'] & E & Hin).
    cbn [snd] in E. subst id'.
    pose proof (H (c, id) (or_introl eq_refl)) as E1.
    pose proof (H (c', id) (or_intror Hin)) as E2.
    cbn [fst] in E1, E2. now subst c c'.
  - apply IH. intros p Hin. apply H. now right.
Qed.

(** The links of the cocktail that a create has made, on a well-formed
    database: the entities that its listed names resolve to, each once. *)
Lemma links_of_new (listed_id : Z -> Prop) (old new : list (Z * Z)) (d : DB) :
  (forall p, In p old -> In (fst p) (cocktail_ids d)) ->
  links_written (next_id (cocktail_ids d)) listed_id (old ++ new) new ->
  NoDup (related (old ++ new) (next_id (cocktail_ids d))) /\
  forall id, In id (related (old ++ new) (next_id (cocktail_ids d))) <-> listed_id id.
Proof.
  intros Hold (Hall & Hnew & Hnd).
  rewrite (related_new old new d Hold (fun p Hp => proj1 (Hnew p Hp))). split.
  - apply (NoDup_map_snd (next_id (cocktail_ids d))); [|exact Hnd].
    intros p Hp. now apply Hnew.
  - intros id. split.
    + intros Hin. apply in_map_iff in Hin as (p & <- & Hp). now apply Hnew.
    + intros Hid.
      rewrite <- (related_new old new d Hold (fun p Hp => proj1 (Hnew p Hp))).
      apply related_member. now apply Hall.
Qed.

Lemma tag_links_after_create (cocktail : CocktailCreate.t) (d : DB) :
  wf d ->
  NoDup (related (cocktail_tags (after_create d cocktail)) (next_id (cocktail_ids d))) /\
  forall id,
    In id (related (cocktail_tags (after_create d cocktail)) (next_id (cocktail_ids d))) <->
    resolved (tag_link "tag" (after_create d cocktail))
      (listed (CocktailCreate.metadata cocktail) MetadataCreate.tags) id \/
    resolved (tag_link "flavor_tag" (after_create d cocktail))
      (listed (CocktailCreate.metadata cocktail) MetadataCreate.flavor_tags) id.
Proof.
  intros W.
  destruct (after_create_spec cocktail d) as (k & E & _ & _ & Hw & _).
  pose proof (written_tags _ _ _ _ Hw) as L.
  assert (T : cocktail_tags (after_create d cocktail) = cocktail_tags d ++ cocktail_tags k)
    by (rewrite E; reflexivity).
  rewrite T in *.
  exact (links_of_new _ _ _ d (wf_tag_link_cocktail _ W) L).
Qed.

Lemma garnish_links_after_create (cocktail : CocktailCreate.t) (d : DB) :
  wf d ->
  NoDup (related (cocktail_garnishes (after_create d cocktail))
           (next_id (cocktail_ids d))) /\
  forall id,
    In id (related (cocktail_garnishes (after_create d cocktail))
             (next_id (cocktail_ids d))) <->
    resolved (garnish_link (after_create d cocktail))
      (listed (CocktailCreate.metadata cocktail) MetadataCreate.garnish) id.
Proof.
  intros W.
  destruct (after_create_spec cocktail d) as (k & E & _ & _ & Hw & _).
  pose proof (written_garnishes _ _ _ _ Hw) as L.
  assert (T : cocktail_garnishes (after_create d cocktail) =
              cocktail_garnishes d ++ cocktail_garnishes k)
    by (rewrite E; reflexivity).
  rewrite T in *.
  exact (links_of_new _ _ _ d (wf_garnish_link_cocktail _ W) L).
Qed.

(** The collections that the created cocktail loads. *)
Lemma tags_of_after_create (cocktail : CocktailCreate.t) (d : DB) :
  wf d ->
  forall t,
    In t (tags_of (next_id (cocktail_ids d)) (after_create d cocktail)) <->
    (In (Tag.name t) (listed (CocktailCreate.metadata cocktail) MetadataCreate.tags) /\
     first_tag (Tag.name t) "tag" (after_create d cocktail) = Some t) \/
    (In (Tag.name t)
        (listed (CocktailCreate.metadata cocktail) MetadataCreate.flavor_tags) /\
     first_tag (Tag.name t) "flavor_tag" (after_create d cocktail) = Some t).
Proof.
  intros W t.
  pose proof (wf_after_create d cocktail W) as W'.
  destruct (tag_links_after_create cocktail d W) as [_ L].
  unfold tags_of. rewrite in_flat_map. split.
  - intros (id & Hid & Ht). apply unique_In, L in Hid.
    assert (H : exists type name t',
               (type = "tag" /\
                In name (listed (CocktailCreate.metadata cocktail) MetadataCreate.tags) \/
                type = "flavor_tag" /\
                In name (listed (CocktailCreate.metadata cocktail)
                           MetadataCreate.flavor_tags)) /\
               first_tag name type (after_create d cocktail) = Some t' /\
               Tag.id t' = id).
    { destruct Hid as [(name & Hn & t' & Hfirst & Eid)|(name & Hn & t' & Hfirst & Eid)];
        eexists _, name, t'; eauto. }
    destruct H as (type & name & t' & Hcase & Hfirst & Eid).
    pose proof (first_tag_Some _ _ _ _ Hfirst) as (Hin & Hname & _).
    unfold tag_by_id in Ht. rewrite <- Eid in Ht.
    rewrite (find_by_key Tag.id _ _ (wf_tag_ids _ W') Hin) in Ht.
    destruct Ht as [<-|[]]. rewrite Hname.
    destruct Hcase as [[-> Hn]|[-> Hn]]; auto.
  - intros H. exists (Tag.id t).
    assert (Hin : In t (tags (after_create d cocktail))).
    { destruct H as [[_ H]|[_ H]]; now apply first_tag_Some in H. }
    split.
    + apply unique_In, L.
      destruct H as [[Hn H]|[Hn H]]; [left|right];
        exists (Tag.name t); (split; [exact Hn|]); now exists t.
    + unfold tag_by_id.
      rewrite (find_by_key Tag.id _ _ (wf_tag_ids _ W') Hin). now left.
Qed.

Lemma garnishes_of_after_create (cocktail : CocktailCreate.t) (d : DB) :
  wf d ->
  forall g,
    In g (garnishes_of (next_id (cocktail_ids d)) (after_create d cocktail)) <->
    In (Garnish.name g)
       (listed (CocktailCreate.metadata cocktail) MetadataCreate.garnish) /\
    first_garnish (Garnish.name g) (after_create d cocktail) = Some g.
Proof.
  intros W g.
  pose proof (wf_after_create d cocktail W) as W'.
  destruct (garnish_links_after_create cocktail d W) as [_ L].
  unfold garnishes_of. rewrite in_flat_map. split.
  - intros (id & Hid & Hg). apply unique_In, L in Hid.
    destruct Hid as (name & Hn & g' & Hfirst & Eid).
    pose proof (first_garnish_Some _ _ _ Hfirst) as (Hin & Hname).
    unfold garnish_by_id in Hg. rewrite <- Eid in Hg.
    rewrite (find_by_key Garnish.id _ _ (wf_garnish_ids _ W') Hin) in Hg.
    destruct Hg as [<-|[]]. rewrite Hname. auto.
  - intros [Hn H]. exists (Garnish.id g).
    pose proof (first_garnish_Some _ _ _ H) as (Hin & _). split.
    + apply unique_In, L. exists (Garnish.name g). split; [exact Hn|]. now exists g.
    + unfold garnish_by_id.
      rewrite (find_by_key Garnish.id _ _ (wf_garnish_ids _ W') Hin). now left.
Qed.

(** ** Links of repeated names (C4) *)

(** The tag "Classic" and the garnish "Lime Wheel" listed twice: one tag,
    one garnish, one link to each, and each name once in the document. *)
Example classic_twice_links :
  cocktail_tags (after_create empty_db classic_twice) = [(1, 1)] /\
  cocktail_garnishes (after_create empty_db classic_twice) = [(1, 1)] /\
  tags (after_create empty_db classic_twice) = [Tag.mk 1 "Classic" "tag"] /\
  garnishes (after_create empty_db classic_twice) = [Garnish.mk 1 "Lime Wheel"] /\
  fst (create_cocktail classic_twice (open empty_db)) =
    Return (CocktailRead.mk 1 "Daiquiri" None None [] []
              (MetadataRead.mk None None ["Lime Wheel"] ["Classic"] [] None)).
Proof. vm_compute. repeat split; reflexivity. Qed.


(** ** Tags and flavor tags (C5) *)

Lemma names_of_type_In (type name : string) (l : list Tag.t) :
  In name (names_of_type type l) <->
  exists t, In t l /\ Tag.type t = type /\ Tag.name t = name.
Proof.
  unfold names_of_type. rewrite in_map_iff. split.
  - intros (t & Hn & Ht). apply filter_In in Ht as [Ht Hty].
    exists t. split_and; auto. now apply String.eqb_eq.
  - intros (t & Ht & Hty & Hn). exists t. split; [exact Hn|].
    apply filter_In. split; [exact Ht|]. now apply String.eqb_eq.
Qed.

Lemma NoDup_map_inj {A B} (f : A -> B) (l : list A) (x y : A) :
  NoDup (map f l) -> In x l -> In y l -> f x = f y -> x = y.
Proof.
  induction l as [|a l IH]; simpl; intros H Hx Hy E; [contradiction|].
  inversion H as [|? ? Ha Hl]; subst.
  destruct Hx as [->|Hx], Hy as [->|Hy]; auto.
  - exfalso. apply Ha. rewrite E. now apply in_map.
  - exfalso. apply Ha. rewrite <- E. now apply in_map.
Qed.

(** C5.  On every well-formed database: (1) in the document of any
    cocktail, a name is among ['tags'] exactly when a tag linked to the
    cocktail has that name and type ['tag'], and among ['flavor_tags']
    exactly when a linked tag has that name and type ['flavor_tag'];
    (2) the document that a create returns has among its ['tags'] exactly
    the names of the request's tag list and among its ['flavor_tags']
    exactly those of its flavor-tag list; (3) a name in both lists is
    resolved to two tags with different primary keys. *)
Theorem tag_partition (d : DB) :
  wf d ->
  (forall c doc name,
      serialize_cocktail d c = Return doc ->
      (In name (MetadataRead.tags (CocktailRead.metadata doc)) <->
       exists t, In t (tags_of (Cocktail.id c) d) /\
                 Tag.type t = "tag" /\ Tag.name t = name) /\
      (In name (MetadataRead.flavor_tags (CocktailRead.metadata doc)) <->
       exists t, In t (tags_of (Cocktail.id c) d) /\
                 Tag.type t = "flavor_tag" /\ Tag.name t = name)) /\
  (forall cocktail,
      exists doc s',
        create_cocktail cocktail (open d) = (Return doc, s') /\
        (forall name,
            In name (MetadataRead.tags (CocktailRead.metadata doc)) <->
            In name (listed (CocktailCreate.metadata cocktail) MetadataCreate.tags)) /\
        (forall name,
            In name (MetadataRead.flavor_tags (CocktailRead.metadata doc)) <->
            In name (listed (CocktailCreate.metadata cocktail)
                       MetadataCreate.flavor_tags)) /\
        (forall name,
            In name (listed (CocktailCreate.metadata cocktail) MetadataCreate.tags) ->
            In name (listed (CocktailCreate.metadata cocktail)
                       MetadataCreate.flavor_tags) ->
            exists t f,
              first_tag name "tag" (txn s') = Some t /\
              first_tag name "flavor_tag" (txn s') = Some f /\
              Tag.id t <> Tag.id f)).
Proof.
  intros W. split.
  - intros c doc name Hdoc. unfold serialize_cocktail in Hdoc.
    destruct (traverse _ _); [|discriminate]. inversion Hdoc; subst doc.
    cbn [CocktailRead.metadata MetadataRead.tags MetadataRead.flavor_tags].
    split; apply names_of_type_In.
  - intros cocktail.
    destruct (after_create_spec cocktail d) as (k & E & Hrun & Htxn & Hw & Hwf).
    specialize (Hwf W).
    destruct (serialize_cocktail_total (after_create d cocktail)
                (new_cocktail_row cocktail d) Hwf) as (doc & Hdoc).
    exists doc, (snd (create_cocktail cocktail (open d))).
    rewrite Htxn. rewrite Hrun at 1. rewrite Hdoc. split; [reflexivity|].
    pose proof (tags_of_after_create cocktail d W) as T.
    assert (Htags : MetadataRead.tags (CocktailRead.metadata doc) =
                    names_of_type "tag"
                      (tags_of (next_id (cocktail_ids d)) (after_create d cocktail)) /\
                    MetadataRead.flavor_tags (CocktailRead.metadata doc) =
                    names_of_type "flavor_tag"
                      (tags_of (next_id (cocktail_ids d)) (after_create d cocktail))).
    { unfold serialize_cocktail in Hdoc.
      destruct (traverse _ _); [|discriminate]. inversion Hdoc; subst doc.
      cbn [CocktailRead.metadata MetadataRead.tags MetadataRead.flavor_tags].
      split; reflexivity. }
    destruct Htags as [-> ->].
    split_and.
    + intros name. rewrite names_of_type_In. split.
      * intros (t & Ht & Hty & <-). apply T in Ht as [[Hn _]|[_ Hf]]; [exact Hn|].
        apply first_tag_Some in Hf as (_ & _ & Hty'). congruence.
      * intros Hn.
        destruct (written_tag_names _ _ _ _ Hw name Hn) as (id & t & Hfirst & _).
        pose proof (first_tag_Some _ _ _ _ Hfirst) as (_ & Hname & Hty).
        exists t. split_and; auto. apply T. left. rewrite Hname. auto.
    + intros name. rewrite names_of_type_In. split.
      * intros (t & Ht & Hty & <-). apply T in Ht as [[_ Hf]|[Hn _]]; [|exact Hn].
        apply first_tag_Some in Hf as (_ & _ & Hty'). congruence.
      * intros Hn.
        destruct (written_flavor_tag_names _ _ _ _ Hw name Hn) as (id & t & Hfirst & _).
        pose proof (first_tag_Some _ _ _ _ Hfirst) as (_ & Hname & Hty).
        exists t. split_and; auto. apply T. right. rewrite Hname. auto.
    + intros name Hn Hf.
      destruct (written_tag_names _ _ _ _ Hw name Hn) as (id & t & Hfirst & _).
      destruct (written_flavor_tag_names _ _ _ _ Hw name Hf) as (id' & f & Hfirst' & _).
      exists t, f. split_and; try assumption. intros Eid.
      apply first_tag_Some in Hfirst as (Hin & _ & Hty).
      apply first_tag_Some in Hfirst' as (Hin' & _ & Hty').
      pose proof (NoDup_map_inj Tag.id _ _ _ (wf_tag_ids _ Hwf) Hin Hin' Eid).
      congruence.
Qed.

Lemma tag_partition_witness :
  exists doc s',
    create_cocktail mojito (open (after_create empty_db daiquiri)) = (Return doc, s') /\
    (forall name,
        In name (MetadataRead.tags (CocktailRead.metadata doc)) <-> In name ["Sweet"]) /\
    (forall name,
        In name (MetadataRead.flavor_tags (CocktailRead.metadata doc)) <->
        In name ["Sweet"]) /\
    (forall name,
        In name ["Sweet"] -> In name ["Sweet"] ->
        exists t f,
          first_tag name "tag" (txn s') = Some t /\
          first_tag name "flavor_tag" (txn s') = Some f /\
          Tag.id t <> Tag.id f).
Proof.
  exact (proj2 (tag_partition (after_create empty_db daiquiri)
                  (wf_after_create empty_db daiquiri wf_empty_db)) mojito).
Defined.

(** "Sweet" as a tag and "Sweet" as a flavor tag: two rows of [tags]. *)
Example mojito_sweet :
  tags (after_create (after_create empty_db daiquiri) mojito) =
    [Tag.mk 1 "Classic" "tag"; Tag.mk 2 "Sour" "flavor_tag";
     Tag.mk 3 "Sweet" "tag"; Tag.mk 4 "Sweet" "flavor_tag"] /\
  cocktail_tags (after_create (after_create empty_db daiquiri) mojito) =
    [(1, 1); (1, 2); (2, 3); (2, 4)].
Proof. split; reflexivity. Qed.

(** ** Find or create (C6) *)

Lemma after_create_extends (d : DB) (cocktail : CocktailCreate.t) :
  extends (ingredients d) (ingredients (after_create d cocktail)) /\
  extends (garnishes d) (garnishes (after_create d cocktail)) /\
  extends (tags d) (tags (after_create d cocktail)).
Proof.
  destruct (after_create_spec cocktail d) as (k & -> & _).
  db_fields. split_and; apply extends_app.
Qed.

Lemma ingredient_obj_resolves (name : string) (s : Session) :
  exists obj s',
    ingredient_obj name s = (Return obj, s') /\
    first_ingredient name (txn s') = Some obj /\
    (forall i, first_ingredient name (txn s) = Some i -> obj = i /\ s' = s) /\
    (first_ingredient name (txn s) = None ->
     ~ In (Ingredient.id obj) (ingredient_ids (txn s)) /\
     ingredients (txn s') = ingredients (txn s) ++ [obj] /\
     commits s' = commits s ++ [txn s']) /\
    ingredient_obj name s' = (Return obj, s') /\
    extends (ingredients (txn s)) (ingredients (txn s')).
Proof.
  destruct (first_ingredient name (txn s)) as [i|] eqn:E.
  - exists i, s. rewrite (ingredient_obj_found _ _ _ E).
    split_and; auto using extends_refl.
    + intros i' Hi'. split; congruence.
    + discriminate.
  - pose proof (ingredient_obj_missing _ _ E) as H. cbv zeta in H.
    eexists _, _. rewrite H. split; [reflexivity|]. db_fields.
    assert (F : first_ingredient name
                  (insert_ingredient
                     (Ingredient.mk (next_id (ingredient_ids (txn s))) name) (txn s)) =
                Some (Ingredient.mk (next_id (ingredient_ids (txn s))) name)).
    { unfold first_ingredient in *. db_fields. rewrite find_app, E.
      cbn [find Ingredient.name]. now rewrite String.eqb_refl. }
    split_and.
    + exact F.
    + discriminate.
    + intros _. split_and; [apply next_id_fresh|reflexivity|reflexivity].
    + now apply ingredient_obj_found.
    + apply extends_app.
Qed.

Lemma garnish_obj_resolves (name : string) (s : Session) :
  exists obj s',
    garnish_obj name s = (Return obj, s') /\
    first_garnish name (txn s') = Some obj /\
    (forall g, first_garnish name (txn s) = Some g -> obj = g /\ s' = s) /\
    (first_garnish name (txn s) = None ->
     ~ In (Garnish.id obj) (garnish_ids (txn s)) /\
     garnishes (txn s') = garnishes (txn s) ++ [obj] /\
     commits s' = commits s ++ [txn s']) /\
    garnish_obj name s' = (Return obj, s') /\
    extends (garnishes (txn s)) (garnishes (txn s')).
Proof.
  destruct (first_garnish name (txn s)) as [g|] eqn:E.
  - exists g, s. rewrite (garnish_obj_found _ _ _ E).
    split_and; auto using extends_refl.
    + intros g' Hg'. split; congruence.
    + discriminate.
  - pose proof (garnish_obj_missing _ _ E) as H. cbv zeta in H.
    eexists _, _. rewrite H. split; [reflexivity|]. db_fields.
    assert (F : first_garnish name
                  (insert_garnish
                     (Garnish.mk (next_id (garnish_ids (txn s))) name) (txn s)) =
                Some (Garnish.mk (next_id (garnish_ids (txn s))) name)).
    { unfold first_garnish in *. db_fields. rewrite find_app, E.
      cbn [find Garnish.name]. now rewrite String.eqb_refl. }
    split_and.
    + exact F.
    + discriminate.
    + intros _. split_and; [apply next_id_fresh|reflexivity|reflexivity].
    + now apply garnish_obj_found.
    + apply extends_app.
Qed.

Lemma tag_obj_resolves (name type : string) (s : Session) :
  exists obj s',
    tag_obj name type s = (Return obj, s') /\
    first_tag name type (txn s') = Some obj /\
    (forall t, first_tag name type (txn s) = Some t -> obj = t /\ s' = s) /\
    (first_tag name type (txn s) = None ->
     ~ In (Tag.id obj) (tag_ids (txn s)) /\
     tags (txn s') = tags (txn s) ++ [obj] /\
     commits s' = commits s ++ [txn s']) /\
    tag_obj name type s' = (Return obj, s') /\
    extends (tags (txn s)) (tags (txn s')).
Proof.
  destruct (first_tag name type (txn s)) as [t|] eqn:E.
  - exists t, s. rewrite (tag_obj_found _ _ _ _ E).
    split_and; auto using extends_refl.
    + intros t' Ht'. split; congruence.
    + discriminate.
  - pose proof (tag_obj_missing _ _ _ E) as H. cbv zeta in H.
    eexists _, _. rewrite H. split; [reflexivity|]. db_fields.
    assert (F : first_tag name type
                  (insert_tag (Tag.mk (next_id (tag_ids (txn s))) name type) (txn s)) =
                Some (Tag.mk (next_id (tag_ids (txn s))) name type)).
    { unfold first_tag in *. db_fields. rewrite find_app, E.
      cbn [find Tag.name Tag.type]. now rewrite !String.eqb_refl. }
    split_and.
    + exact F.
    + discriminate.
    + intros _. split_and; [apply next_id_fresh|reflexivity|reflexivity].
    + now apply tag_obj_found.
    + apply extends_app.
Qed.

(** C6.  (1-3) Resolving a key (a name for ingredients and garnishes, a
    name and a type for tags) in any session returns an entity that is
    afterwards the first row of its table under that key.  When the table
    held a row under the key, this row is the entity returned and the
    session is left exactly as it was.  When it held none, the table is
    the old one followed by the entity, whose primary key is new, and the
    state with it is committed.  Resolving the key again returns the same
    entity and changes nothing, and in every case the rows that were there
    are still there, unchanged and in place.  (4) Across creates: a key
    that resolves to an entity before a create resolves to this entity,
    with no change to the session, both before and after the create.
    (5) After any sequence of creates from the empty database no two
    ingredients share a name, no two garnishes share a name, and no two
    tags share a name and a type. *)
Theorem vocabulary_find_or_create :
  (forall name s, exists obj s',
      ingredient_obj name s = (Return obj, s') /\
      first_ingredient name (txn s') = Some obj /\
      (forall i, first_ingredient name (txn s) = Some i -> obj = i /\ s' = s) /\
      (first_ingredient name (txn s) = None ->
       ~ In (Ingredient.id obj) (ingredient_ids (txn s)) /\
       ingredients (txn s') = ingredients (txn s) ++ [obj] /\
       commits s' = commits s ++ [txn s']) /\
      ingredient_obj name s' = (Return obj, s') /\
      extends (ingredients (txn s)) (ingredients (txn s'))) /\
  (forall name s, exists obj s',
      garnish_obj name s = (Return obj, s') /\
      first_garnish name (txn s') = Some obj /\
      (forall g, first_garnish name (txn s) = Some g -> obj = g /\ s' = s) /\
      (first_garnish name (txn s) = None ->
       ~ In (Garnish.id obj) (garnish_ids (txn s)) /\
       garnishes (txn s') = garnishes (txn s) ++ [obj] /\
       commits s' = commits s ++ [txn s']) /\
      garnish_obj name s' = (Return obj, s') /\
      extends (garnishes (txn s)) (garnishes (txn s'))) /\
  (forall name type s, exists obj s',
      tag_obj name type s = (Return obj, s') /\
      first_tag name type (txn s') = Some obj /\
      (forall t, first_tag name type (txn s) = Some t -> obj = t /\ s' = s) /\
      (first_tag name type (txn s) = None ->
       ~ In (Tag.id obj) (tag_ids (txn s)) /\
       tags (txn s') = tags (txn s) ++ [obj] /\
       commits s' = commits s ++ [txn s']) /\
      tag_obj name type s' = (Return obj, s') /\
      extends (tags (txn s)) (tags (txn s'))) /\
  (forall d cocktail name,
      (forall i, first_ingredient name d = Some i ->
                 ingredient_obj name (open d) = (Return i, open d) /\
                 ingredient_obj name (open (after_create d cocktail)) =
                   (Return i, open (after_create d cocktail))) /\
      (forall g, first_garnish name d = Some g ->
                 garnish_obj name (open d) = (Return g, open d) /\
                 garnish_obj name (open (after_create d cocktail)) =
                   (Return g, open (after_create d cocktail))) /\
      (forall type t, first_tag name type d = Some t ->
                      tag_obj name type (open d) = (Return t, open d) /\
                      tag_obj name type (open (after_create d cocktail)) =
                        (Return t, open (after_create d cocktail)))) /\
  (forall l,
      NoDup (map Ingredient.name (ingredients (after_creates empty_db l))) /\
      NoDup (map Garnish.name (garnishes (after_creates empty_db l))) /\
      NoDup (map tag_key (tags (after_creates empty_db l)))).
Proof.
  split_and.
  - exact ingredient_obj_resolves.
  - exact garnish_obj_resolves.
  - exact tag_obj_resolves.
  - intros d cocktail name.
    destruct (after_create_extends d cocktail) as (Hi & Hg & Ht).
    split_and.
    + intros i H. split; apply ingredient_obj_found; [exact H|].
      unfold first_ingredient in *. cbn [open txn]. now apply (find_extends _ _ _ _ Hi).
    + intros g H. split; apply garnish_obj_found; [exact H|].
      unfold first_garnish in *. cbn [open txn]. now apply (find_extends _ _ _ _ Hg).
    + intros type t H. split; apply tag_obj_found; [exact H|].
      unfold first_tag in *. cbn [open txn]. now apply (find_extends _ _ _ _ Ht).
  - intros l. pose proof (wf_after_creates l empty_db wf_empty_db) as W.
    split_and; [exact (wf_ingredient_names _ W)|exact (wf_garnish_names _ W)|
                exact (wf_tag_keys _ W)].
Qed.

Lemma vocabulary_find_or_create_witness :
  ingredient_obj "Rum" (open (after_create empty_db daiquiri)) =
    (Return (Ingredient.mk 1 "Rum"), open (after_create empty_db daiquiri)) /\
  ingredient_obj "Rum" (open (after_create (after_create empty_db daiquiri) mojito)) =
    (Return (Ingredient.mk 1 "Rum"),
     open (after_create (after_create empty_db daiquiri) mojito)).
Proof.
  destruct vocabulary_find_or_create as (_ & _ & _ & H & _).
  destruct (H (after_create empty_db daiquiri) mojito "Rum") as (Hi & _).
  apply Hi. reflexivity.
Defined.

(** Rum is created by the daiquiri and used again by the mojito. *)
Example rum_once :
  first_ingredient "Rum" (after_create empty_db daiquiri) = Some (Ingredient.mk 1 "Rum") /\
  first_ingredient "Rum" (after_creates empty_db [daiquiri; mojito; daiquiri]) =
    Some (Ingredient.mk 1 "Rum") /\
  map Ingredient.name (ingredients (after_creates empty_db [daiquiri; mojito; daiquiri])) =
    ["Rum"; "Lime Juice"; "Mint"].
Proof. repeat split; reflexivity. Qed.

(** ** The read paths (C7, C10) *)

Lemma get_cocktail_found (d : DB) (c : Cocktail.t) :
  wf d -> In c (cocktails d) ->
  get_cocktail (Cocktail.id c) (open d) = (serialize_cocktail d c, open d).
Proof.
  intros W Hc. unfold get_cocktail, first_cocktail, bind, read, cocktail_by_id.
  cbn [txn open]. unfold cocktail_ids in W.
  rewrite (find_by_key Cocktail.id _ _ (wf_cocktail_ids _ W) Hc). reflexivity.
Qed.

Lemma cocktail_by_id_missing (d : DB) (cocktail_id : Z) :
  ~ In cocktail_id (cocktail_ids d) -> cocktail_by_id cocktail_id d = None.
Proof.
  intros H. unfold cocktail_by_id. apply find_absent.
  intros c Hc. apply Z.eqb_neq. intros E. apply H. rewrite <- E.
  unfold cocktail_ids. now apply in_map.
Qed.

Lemma get_cocktail_missing (d : DB) (cocktail_id : Z) :
  ~ In cocktail_id (cocktail_ids d) -> sqlite_integer cocktail_id = true ->
  get_cocktail cocktail_id (open d) =
  (Raise (HTTPException 404 "Cocktail not found"), open d).
Proof.
  intros H R. unfold get_cocktail, first_cocktail, bind, read. cbn [txn open].
  now rewrite (cocktail_by_id_missing d cocktail_id H), R.
Qed.

Lemma get_cocktail_unbound (d : DB) (cocktail_id : Z) :
  ~ In cocktail_id (cocktail_ids d) -> sqlite_integer cocktail_id = false ->
  get_cocktail cocktail_id (open d) = (Raise OverflowError, open d).
Proof.
  intros H R. unfold get_cocktail, first_cocktail, bind, read. cbn [txn open].
  now rewrite (cocktail_by_id_missing d cocktail_id H), R.
Qed.

Lemma get_cocktails_total (d : DB) :
  wf d ->
  exists docs,
    get_cocktails (open d) = (Return docs, open d) /\
    Forall2 (fun c doc => serialize_cocktail d c = Return doc) (cocktails d) docs.
Proof.
  intros W. unfold get_cocktails, lift. cbn [txn open].
  destruct (traverse_total (serialize_cocktail d) (cocktails d)) as (docs & -> & F).
  - intros c _. now apply serialize_cocktail_total.
  - exists docs. auto.
Qed.

(** C7, where the code departs from it.  An id outside the 64 bits of a
    SQLite integer is the id of no cocktail, yet [get_cocktail] does not
    answer it with the 404: the lookup itself fails, with [OverflowError],
    whatever the database holds.  So it is for 2^63 on the empty
    database. *)
Theorem get_cocktail_overflow (d : DB) (cocktail_id : Z) :
  ~ In cocktail_id (cocktail_ids d) ->
  sqlite_integer cocktail_id = false ->
  get_cocktail cocktail_id (open d) = (Raise OverflowError, open d) /\
  fst (get_cocktail cocktail_id (open d)) <>
    Raise (HTTPException 404 "Cocktail not found").
Proof.
  intros H R. rewrite (get_cocktail_unbound d cocktail_id H R).
  split; [reflexivity|]. cbn [fst]. discriminate.
Qed.

Lemma get_cocktail_overflow_witness :
  get_cocktail 9223372036854775808 (open empty_db) =
    (Raise OverflowError, open empty_db) /\
  fst (get_cocktail 9223372036854775808 (open empty_db)) <>
    Raise (HTTPException 404 "Cocktail not found").
Proof.
  apply (get_cocktail_overflow empty_db 9223372036854775808).
  - intros [].
  - reflexivity.
Defined.

(** Within the 64 bits of a SQLite integer, on every well-formed
    database: [get_cocktail] on an id that no cocktail has raises the 404
    "Cocktail not found" and returns no document; on the id of a stored
    cocktail it returns the serialization of that cocktail, whose id is
    the id asked for; the only exceptions it raises are that 404, for an
    id within 64 bits that no cocktail has, and [OverflowError], for an id
    outside them; and [get_cocktails] and [create_cocktail] raise
    nothing. *)
Theorem get_cocktail_not_found (d : DB) :
  wf d ->
  (forall cocktail_id,
      sqlite_integer cocktail_id = true ->
      ~ In cocktail_id (cocktail_ids d) ->
      get_cocktail cocktail_id (open d) =
      (Raise (HTTPException 404 "Cocktail not found"), open d)) /\
  (forall c,
      In c (cocktails d) ->
      exists doc,
        get_cocktail (Cocktail.id c) (open d) = (Return doc, open d) /\
        serialize_cocktail d c = Return doc /\
        CocktailRead.id doc = Cocktail.id c) /\
  (forall cocktail_id e,
      fst (get_cocktail cocktail_id (open d)) = Raise e ->
      ~ In cocktail_id (cocktail_ids d) /\
      (e = HTTPException 404 "Cocktail not found" /\
       sqlite_integer cocktail_id = true \/
       e = OverflowError /\ sqlite_integer cocktail_id = false)) /\
  (exists docs, fst (get_cocktails (open d)) = Return docs) /\
  (forall cocktail, exists doc, fst (create_cocktail cocktail (open d)) = Return doc).
Proof.
  intros W.
  assert (Hfound : forall c, In c (cocktails d) ->
            exists doc, get_cocktail (Cocktail.id c) (open d) = (Return doc, open d) /\
                        serialize_cocktail d c = Return doc /\
                        CocktailRead.id doc = Cocktail.id c).
  { intros c Hc. destruct (serialize_cocktail_total d c W) as (doc & Hdoc).
    exists doc. rewrite (get_cocktail_found d c W Hc), Hdoc. split_and; auto.
    unfold serialize_cocktail in Hdoc. destruct (traverse _ _); [|discriminate].
    now inversion Hdoc. }
  split_and.
  - intros cocktail_id R H. now apply get_cocktail_missing.
  - exact Hfound.
  - intros cocktail_id e He.
    destruct (in_dec Z.eq_dec cocktail_id (cocktail_ids d)) as [Hin|Hout].
    + unfold cocktail_ids in Hin. apply in_map_iff in Hin as (c & <- & Hc).
      destruct (Hfound c Hc) as (doc & Hget & _). rewrite Hget in He. discriminate.
    + split; [exact Hout|]. destruct (sqlite_integer cocktail_id) eqn:R.
      * rewrite (get_cocktail_missing d cocktail_id Hout R) in He.
        inversion He. auto.
      * rewrite (get_cocktail_unbound d cocktail_id Hout R) in He.
        inversion He. auto.
  - destruct (get_cocktails_total d W) as (docs & -> & _). now exists docs.
  - intros cocktail.
    destruct (after_create_spec cocktail d) as (k & _ & Hrun & _ & _ & Hwf).
    destruct (serialize_cocktail_total (after_create d cocktail)
                (new_cocktail_row cocktail d) (Hwf W)) as (doc & Hdoc).
    exists doc. rewrite Hrun. cbn [fst]. exact Hdoc.
Qed.

Lemma get_cocktail_not_found_witness :
  get_cocktail 0 (open (after_create empty_db daiquiri)) =
    (Raise (HTTPException 404 "Cocktail not found"), open (after_create empty_db daiquiri)) /\
  get_cocktail 2 (open (after_create empty_db daiquiri)) =
    (Raise (HTTPException 404 "Cocktail not found"), open (after_create empty_db daiquiri)).
Proof.
  destruct (get_cocktail_not_found (after_create empty_db daiquiri)
              (wf_after_create empty_db daiquiri wf_empty_db)) as (H & _).
  split; apply H; try reflexivity; vm_compute; intros [E|[]]; discriminate E.
Defined.

Lemma Forall2_impl_In {A B} (R R' : A -> B -> Prop) (l : list A) (l' : list B) :
  (forall a b, In a l -> R a b -> R' a b) -> Forall2 R l l' -> Forall2 R' l l'.
Proof.
  intros H F. induction F as [|a b l l' Hab _ IH]; constructor.
  - apply H; [now left|exact Hab].
  - apply IH. intros x y Hx. apply H. now right.
Qed.

(** C10.  On every well-formed database [get_cocktails] returns one
    document per stored cocktail, in storage order, and the document it
    returns for a cocktail is the document that [get_cocktail] returns for
    that cocktail's id. *)
Theorem read_paths_agree (d : DB) :
  wf d ->
  exists docs,
    get_cocktails (open d) = (Return docs, open d) /\
    Forall2 (fun c doc => get_cocktail (Cocktail.id c) (open d) = (Return doc, open d))
      (cocktails d) docs.
Proof.
  intros W. destruct (get_cocktails_total d W) as (docs & Hrun & F).
  exists docs. split; [exact Hrun|].
  apply (Forall2_impl_In _ _ _ _ (fun c doc Hc Hdoc =>
           eq_trans (get_cocktail_found d c W Hc)
                    (f_equal (fun o => (o, open d)) Hdoc)) F).
Qed.

Lemma read_paths_agree_witness :
  exists docs,
    get_cocktails (open (after_creates empty_db [daiquiri; mojito])) =
      (Return docs, open (after_creates empty_db [daiquiri; mojito])) /\
    Forall2 (fun c doc =>
               get_cocktail (Cocktail.id c) (open (after_creates empty_db [daiquiri; mojito]))
               = (Return doc, open (after_creates empty_db [daiquiri; mojito])))
      (cocktails (after_creates empty_db [daiquiri; mojito])) docs.
Proof.
  apply (read_paths_agree (after_creates empty_db [daiquiri; mojito])).
  apply wf_after_creates. exact wf_empty_db.
Defined.

(** ** Validation (C8) *)

Lemma parse_ingredient_None (i : IngredientBody.t) :
  parse_ingredient i = None <-> malformed_ingredient i.
Proof.
  unfold parse_ingredient, malformed_ingredient.
  destruct (IngredientBody.name i), (IngredientBody.quantity i),
    (IngredientBody.unit i), (IngredientBody.notes i);
    cbn [required optional]; split; intros H;
    try discriminate H; try reflexivity; auto 6;
    repeat (destruct H as [H|H]; try discriminate H).
Qed.

Lemma parse_metadata_None (m : MetadataBody.t) :
  parse_metadata m = None <-> malformed_metadata m.
Proof.
  unfold parse_metadata, malformed_metadata.
  destruct (MetadataBody.difficulty m), (MetadataBody.glass_type m),
    (MetadataBody.garnish m), (MetadataBody.tags m), (MetadataBody.flavor_tags m),
    (MetadataBody.cover_image m);
    cbn [optional]; split; intros H;
    try discriminate H; try reflexivity; auto 7;
    repeat (destruct H as [H|H]; try discriminate H).
Qed.

Lemma parse_all_ingredients (l : list IngredientBody.t) :
  parse_all parse_ingredient l = None <->
  exists i, In i l /\ malformed_ingredient i.
Proof.
  induction l as [|a l IH]; cbn [parse_all].
  - split; [discriminate|]. intros (i & [] & _).
  - destruct (parse_ingredient a) as [b|] eqn:Ha.
    + destruct (parse_all parse_ingredient l) as [bs|].
      * split; [discriminate|]. intros (i & [<-|Hi] & Hn).
        -- apply parse_ingredient_None in Hn. congruence.
        -- assert (X : Some bs = None) by (apply IH; eauto). discriminate X.
      * split; [|reflexivity]. intros _.
        destruct IH as [IH _]. destruct (IH eq_refl) as (i & Hi & Hn).
        exists i. split; [now right|exact Hn].
    + split; [|reflexivity]. intros _. exists a. split; [now left|].
      now apply parse_ingredient_None.
Qed.

Lemma parse_cocktail_None (body : CocktailBody.t) :
  parse_cocktail body = None <-> malformed body.
Proof.
  unfold parse_cocktail, malformed.
  destruct (CocktailBody.title body) as [| |title] eqn:Ht; cbn [required];
    try solve [split; auto 12].
  destruct (CocktailBody.author body) as [| |author] eqn:Hau; cbn [optional];
    try solve [split; auto 12];
    (destruct (CocktailBody.description body) as [| |description] eqn:Hde;
     cbn [optional]; try solve [split; auto 12]);
    (destruct (CocktailBody.ingredients body) as [| |l] eqn:Hin;
     cbn [required]; try solve [split; auto 12]);
    (destruct (CocktailBody.instructions body) as [| |ins] eqn:Hins;
     cbn [required]; try solve [split; auto 12]);
    (destruct (CocktailBody.metadata body) as [| |m] eqn:Hm;
     cbn [optional_model]; try solve [split; auto 12]);
    try (destruct (parse_metadata m) as [m'|] eqn:Hpm;
         [|split; [|reflexivity]; intros _; do 10 right; exists m;
           split; [reflexivity|]; now apply parse_metadata_None]);
    (destruct (parse_all parse_ingredient l) as [bs|] eqn:Hl;
     [|split; [|reflexivity]; intros _; do 6 right; left;
       apply parse_all_ingredients in Hl as (i & Hi & Hn); now exists l, i]);
    (split; [discriminate|]);
    intros [H|[H|[H|[H|[H|[H|[(l' & i & E & Hi & Hn)|[H|[H|[H|(m0 & E & Hn)]]]]]]]]]];
    try discriminate H;
    try (inversion E; subst l';
         assert (X : parse_all parse_ingredient l = None)
           by (apply parse_all_ingredients; now exists i);
         congruence);
    try discriminate E;
    inversion E; subst m0; apply parse_metadata_None in Hn; congruence.
Qed.

Example blank_title_created :
  fst (post_cocktails blank_title (open empty_db)) =
    Return (CocktailRead.mk 1 "" (Some "Ana") (Some "No name yet")
              [IngredientRead.mk "Rum" (Some "2") (Some "oz") (Some "white")]
              ["Pour"]
              (MetadataRead.mk (Some "easy") (Some "rocks") [] [] [] (Some "rum.png"))) /\
  cocktails (durable empty_db (snd (post_cocktails blank_title (open empty_db)))) =
    [Cocktail.mk 1 "" (Some "Ana") (Some "No name yet")
       (Some "easy") (Some "rocks") (Some "rum.png")].
Proof. split; vm_compute; reflexivity. Qed.

(** C8, refuted as stated.  A body whose title is the empty string is not
    rejected: the session on the empty database is not left as it was (a
    cocktail with the empty title is written and committed). *)
Lemma blank_title_not_rejected : ~ rejected_before_write blank_title (open empty_db).
Proof. unfold rejected_before_write. intros H. vm_compute in H. discriminate H. Qed.

(** C8, as the code has it.  A body that lacks a required key (the title,
    the ingredient list, the instruction list, or the name of an
    ingredient) or holds under some key a value that cannot be read as the
    declared type is rejected with a validation error before anything is
    written or committed.  A body that is not of this kind is handed to
    [create_cocktail] with the title as given, whatever the title is, the
    empty string included. *)
Theorem validation_before_writes (body : CocktailBody.t) (d : DB) :
  (malformed body -> rejected_before_write body (open d)) /\
  (forall title,
      CocktailBody.title body = Given title -> ~ malformed body ->
      exists cocktail,
        CocktailCreate.title cocktail = title /\
        post_cocktails body (open d) = create_cocktail cocktail (open d)).
Proof.
  unfold rejected_before_write, post_cocktails. split_and.
  - intros H. apply parse_cocktail_None in H. now rewrite H.
  - intros title Ht Hm.
    destruct (parse_cocktail body) as [c|] eqn:E.
    + exists c. split; [|reflexivity]. unfold parse_cocktail in E. rewrite Ht in E.
      cbn [required] in E.
      destruct (optional (CocktailBody.author body)); [|discriminate].
      destruct (optional (CocktailBody.description body)); [|discriminate].
      destruct (required (CocktailBody.ingredients body)); [|discriminate].
      destruct (required (CocktailBody.instructions body)); [|discriminate].
      destruct (optional_model parse_metadata (CocktailBody.metadata body));
        [|discriminate].
      destruct (parse_all parse_ingredient l); [|discriminate].
      now inversion E.
    + exfalso. apply Hm. now apply parse_cocktail_None.
Qed.

Lemma validation_before_writes_witness :
  rejected_before_write no_title (open (after_create empty_db daiquiri)) /\
  rejected_before_write instructions_not_a_list (open (after_create empty_db daiquiri)).
Proof.
  split.
  - apply (proj1 (validation_before_writes no_title (after_create empty_db daiquiri))).
    left. reflexivity.
  - apply (proj1 (validation_before_writes instructions_not_a_list
                    (after_create empty_db daiquiri))).
    do 8 right. left. reflexivity.
Defined.

(** ** A create read back by a later request *)

Lemma new_cocktail_row_stored (cocktail : CocktailCreate.t) (d : DB) :
  exists k, cocktails (after_create d cocktail) =
            cocktails d ++ [new_cocktail_row cocktail d] /\
            after_create d cocktail =
            db_app (insert_cocktail (new_cocktail_row cocktail d) d) k /\
            written cocktail (next_id (cocktail_ids d)) (after_create d cocktail) k.
Proof.
  destruct (after_create_spec cocktail d) as (k & E & _ & _ & Hw & _).
  exists k. split_and; try assumption.
  rewrite E. db_fields. now rewrite (written_cocktails _ _ _ _ Hw), app_nil_r.
Qed.

(** Read your writes, across requests.  On every well-formed database the
    document that a create returns carries an id that no cocktail had
    before, and [get_cocktail] with that id, in a session opened after the
    create, returns that very document. *)
Theorem create_then_get (cocktail : CocktailCreate.t) (d : DB) :
  wf d ->
  exists doc,
    fst (create_cocktail cocktail (open d)) = Return doc /\
    ~ In (CocktailRead.id doc) (cocktail_ids d) /\
    get_cocktail (CocktailRead.id doc) (open (after_create d cocktail)) =
      (Return doc, open (after_create d cocktail)).
Proof.
  intros W.
  destruct (after_create_spec cocktail d) as (k & E & Hrun & _ & Hw & Hwf).
  specialize (Hwf W).
  destruct (serialize_cocktail_total (after_create d cocktail)
              (new_cocktail_row cocktail d) Hwf) as (doc & Hdoc).
  assert (Hid : CocktailRead.id doc = next_id (cocktail_ids d)).
  { unfold serialize_cocktail in Hdoc. destruct (traverse _ _); [|discriminate].
    now inversion Hdoc. }
  exists doc. split_and.
  - rewrite Hrun. exact Hdoc.
  - rewrite Hid. apply next_id_fresh.
  - rewrite Hid.
    change (next_id (cocktail_ids d)) with (Cocktail.id (new_cocktail_row cocktail d)).
    rewrite get_cocktail_found, Hdoc; [reflexivity|exact Hwf|].
    destruct (new_cocktail_row_stored cocktail d) as (k' & -> & _).
    apply in_or_app. right. now left.
Qed.

Lemma create_then_get_witness :
  exists doc,
    fst (create_cocktail mojito (open (after_create empty_db daiquiri))) = Return doc /\
    ~ In (CocktailRead.id doc) (cocktail_ids (after_create empty_db daiquiri)) /\
    get_cocktail (CocktailRead.id doc)
      (open (after_create (after_create empty_db daiquiri) mojito)) =
      (Return doc, open (after_create (after_create empty_db daiquiri) mojito)).
Proof.
  apply (create_then_get mojito (after_create empty_db daiquiri)).
  apply wf_after_create. exact wf_empty_db.
Defined.

(** ** What a create leaves alone *)

Lemma traverse_ext_in {A B} (f g : A -> Outcome B) (l : list A) :
  (forall a, In a l -> f a = g a) -> traverse f l = traverse g l.
Proof.
  induction l as [|a l IH]; intros H; [reflexivity|]. cbn [traverse].
  rewrite (H a (or_introl eq_refl)), IH; [reflexivity|].
  intros x Hx. apply H. now right.
Qed.

Lemma flat_map_ext_in {A B} (f g : A -> list B) (l : list A) :
  (forall a, In a l -> f a = g a) -> flat_map f l = flat_map g l.
Proof.
  induction l as [|a l IH]; intros H; [reflexivity|]. cbn [flat_map].
  rewrite (H a (or_introl eq_refl)), IH; [reflexivity|].
  intros x Hx. apply H. now right.
Qed.

Lemma related_old (links new : list (Z * Z)) (cid c : Z) :
  (forall p, In p new -> fst p = cid) -> c <> cid ->
  related (links ++ new) c = related links c.
Proof.
  intros Hnew Hne. unfold related. rewrite filter_app, (filter_none _ new).
  - now rewrite app_nil_r.
  - intros p Hp. apply Z.eqb_neq. rewrite (Hnew p Hp). congruence.
Qed.

Lemma related_In (links : list (Z * Z)) (c id : Z) :
  In id (related links c) -> In (c, id) links.
Proof.
  unfold related. intros H. apply in_map_iff in H as ([c' id'] & E & Hp).
  apply filter_In in Hp as [Hp Hc]. cbn [fst snd] in *.
  apply Z.eqb_eq in Hc. now subst.
Qed.

Lemma serialize_cocktail_after_create (cocktail : CocktailCreate.t) (d : DB)
    (c : Cocktail.t) :
  wf d -> In c (cocktails d) ->
  serialize_cocktail (after_create d cocktail) c = serialize_cocktail d c.
Proof.
  intros W Hc.
  destruct (after_create_spec cocktail d) as (k & E & _ & _ & Hw & _).
  set (cid := next_id (cocktail_ids d)) in *.
  assert (Hne : Cocktail.id c <> cid).
  { intros H. apply (next_id_fresh (cocktail_ids d)). fold cid. rewrite <- H.
    unfold cocktail_ids. now apply in_map. }
  destruct (written_garnishes _ _ _ _ Hw) as (_ & Hg & _).
  destruct (written_tags _ _ _ _ Hw) as (_ & Ht & _).
  rewrite E. clear E.
  assert (Hci : cocktail_ingredients_of (Cocktail.id c)
                  (db_app (insert_cocktail (new_cocktail_row cocktail d) d) k) =
                cocktail_ingredients_of (Cocktail.id c) d).
  { unfold cocktail_ingredients_of. db_fields.
    rewrite filter_app, (filter_none _ (cocktail_ingredients k)); [apply app_nil_r|].
    intros row Hrow. apply Z.eqb_neq.
    destruct (Forall2_In_r _ _ _ row (written_lines _ _ _ _ Hw) Hrow) as (line & _ & H).
    destruct H as (H & _). congruence. }
  assert (Hin : instructions_of (Cocktail.id c)
                  (db_app (insert_cocktail (new_cocktail_row cocktail d) d) k) =
                instructions_of (Cocktail.id c) d).
  { unfold instructions_of. db_fields.
    rewrite filter_app, (filter_none _ (instructions k)); [apply app_nil_r|].
    intros row Hrow. apply Z.eqb_neq.
    pose proof (written_steps _ _ _ _ Hw) as H.
    apply (in_map instruction_columns) in Hrow. rewrite H in Hrow.
    apply in_map_iff in Hrow as (p & Ep & _). unfold instruction_columns in Ep.
    inversion Ep. congruence. }
  assert (Hga : garnishes_of (Cocktail.id c)
                  (db_app (insert_cocktail (new_cocktail_row cocktail d) d) k) =
                garnishes_of (Cocktail.id c) d).
  { unfold garnishes_of. db_fields.
    rewrite (related_old _ _ cid _ (fun p Hp => proj1 (Hg p Hp)) Hne).
    apply flat_map_ext_in. intros id Hid. f_equal.
    apply unique_In, related_In in Hid. apply (wf_garnish_link_garnish _ W) in Hid. cbn [snd] in Hid.
    destruct (find_key_present Garnish.id (garnishes d) _ Hid) as (g & Hfound).
    unfold garnish_by_id. db_fields. now rewrite find_app, Hfound. }
  assert (Hta : tags_of (Cocktail.id c)
                  (db_app (insert_cocktail (new_cocktail_row cocktail d) d) k) =
                tags_of (Cocktail.id c) d).
  { unfold tags_of. db_fields.
    rewrite (related_old _ _ cid _ (fun p Hp => proj1 (Ht p Hp)) Hne).
    apply flat_map_ext_in. intros id Hid. f_equal.
    apply unique_In, related_In in Hid. apply (wf_tag_link_tag _ W) in Hid. cbn [snd] in Hid.
    destruct (find_key_present Tag.id (tags d) _ Hid) as (t & Hfound).
    unfold tag_by_id. db_fields. now rewrite find_app, Hfound. }
  unfold serialize_cocktail. rewrite Hci, Hin, Hga, Hta.
  rewrite (traverse_ext_in
             (ingredient_read (db_app (insert_cocktail (new_cocktail_row cocktail d) d) k))
             (ingredient_read d)); [reflexivity|].
  intros ci Hrow. apply filter_In in Hrow as [Hrow _].
  apply (wf_ci_ingredient _ W) in Hrow.
  destruct (find_key_present Ingredient.id (ingredients d) _ Hrow) as (i & Hfound).
  unfold ingredient_read, ingredient_by_id. db_fields. now rewrite find_app, Hfound.
Qed.

(** A create changes no other document.  On every well-formed database,
    [get_cocktail] on the id of a cocktail that was stored before a create
    returns after the create the document it returned before. *)
Theorem create_keeps_other_documents (cocktail : CocktailCreate.t) (d : DB)
    (c : Cocktail.t) :
  wf d -> In c (cocktails d) ->
  fst (get_cocktail (Cocktail.id c) (open (after_create d cocktail))) =
  fst (get_cocktail (Cocktail.id c) (open d)).
Proof.
  intros W Hc.
  rewrite (get_cocktail_found d c W Hc).
  rewrite (get_cocktail_found (after_create d cocktail) c).
  - cbn [fst]. now apply serialize_cocktail_after_create.
  - now apply wf_after_create.
  - destruct (new_cocktail_row_stored cocktail d) as (k & -> & _).
    apply in_or_app. now left.
Qed.

Lemma create_keeps_other_documents_witness :
  fst (get_cocktail 1 (open (after_create (after_create empty_db daiquiri) mojito))) =
  fst (get_cocktail 1 (open (after_create empty_db daiquiri))).
Proof.
  apply (create_keeps_other_documents mojito (after_create empty_db daiquiri)
           (Cocktail.mk 1 "Daiquiri" None None None None None)).
  - apply wf_after_create. exact wf_empty_db.
  - vm_compute. left. reflexivity.
Defined.

Lemma traverse_app {A B} (f : A -> Outcome B) (l k : list A) (bs cs : list B) :
  traverse f l = Return bs -> traverse f k = Return cs ->
  traverse f (l ++ k) = Return (bs ++ cs).
Proof.
  revert bs. induction l as [|a l IH]; intros bs Hl Hk.
  - cbn in Hl. inversion Hl. exact Hk.
  - cbn [traverse app] in *. destruct (f a) as [b|e]; [|discriminate].
    destruct (traverse f l) as [bs'|e]; [|discriminate].
    inversion Hl; subst bs. now rewrite (IH bs' eq_refl Hk).
Qed.

(** The listing grows by the new document.  On every well-formed database
    [get_cocktails] after a create returns the documents it returned
    before, in the same order, followed by the document that the create
    returned. *)
Theorem create_then_list (cocktail : CocktailCreate.t) (d : DB) :
  wf d ->
  exists docs doc,
    fst (get_cocktails (open d)) = Return docs /\
    fst (create_cocktail cocktail (open d)) = Return doc /\
    fst (get_cocktails (open (after_create d cocktail))) = Return (docs ++ [doc]).
Proof.
  intros W.
  destruct (get_cocktails_total d W) as (docs & Hlist & _).
  destruct (after_create_spec cocktail d) as (k & _ & Hrun & _ & _ & Hwf).
  destruct (serialize_cocktail_total (after_create d cocktail)
              (new_cocktail_row cocktail d) (Hwf W)) as (doc & Hdoc).
  exists docs, doc. rewrite Hlist, Hrun. cbn [fst]. split_and; auto.
  unfold get_cocktails, lift in *. cbn [txn open fst] in *.
  destruct (new_cocktail_row_stored cocktail d) as (k' & -> & _).
  apply traverse_app.
  - rewrite (traverse_ext_in _ (serialize_cocktail d)).
    + now inversion Hlist.
    + intros c Hc. now apply serialize_cocktail_after_create.
  - cbn [traverse]. now rewrite Hdoc.
Qed.

Lemma create_then_list_witness :
  exists docs doc,
    fst (get_cocktails (open (after_create empty_db daiquiri))) = Return docs /\
    fst (create_cocktail mojito (open (after_create empty_db daiquiri))) = Return doc /\
    fst (get_cocktails (open (after_create (after_create empty_db daiquiri) mojito))) =
      Return (docs ++ [doc]).
Proof.
  apply (create_then_list mojito (after_create empty_db daiquiri)).
  apply wf_after_create. exact wf_empty_db.
Defined.

(** A create only adds rows.  Whatever the database (no assumption on
    it), every table after a create starts with the rows it had before,
    unchanged and in the same order; [cocktails] has one row more,
    [cocktail_ingredients] as many more as the request has ingredient
    lines, [instructions] as many more as it has instructions. *)
Theorem create_only_appends (cocktail : CocktailCreate.t) (d : DB) :
  (extends (cocktails d) (cocktails (after_create d cocktail)) /\
   extends (ingredients d) (ingredients (after_create d cocktail)) /\
   extends (cocktail_ingredients d) (cocktail_ingredients (after_create d cocktail)) /\
   extends (instructions d) (instructions (after_create d cocktail)) /\
   extends (tags d) (tags (after_create d cocktail)) /\
   extends (garnishes d) (garnishes (after_create d cocktail)) /\
   extends (cocktail_tags d) (cocktail_tags (after_create d cocktail)) /\
   extends (cocktail_garnishes d) (cocktail_garnishes (after_create d cocktail))) /\
  List.length (cocktails (after_create d cocktail)) = S (List.length (cocktails d)) /\
  List.length (cocktail_ingredients (after_create d cocktail)) =
    (List.length (cocktail_ingredients d) +
     List.length (CocktailCreate.ingredients cocktail))%nat /\
  List.length (instructions (after_create d cocktail)) =
    (List.length (instructions d) +
     List.length (CocktailCreate.instructions cocktail))%nat.
Proof.
  destruct (after_create_spec cocktail d) as (k & -> & _ & _ & Hw & _).
  db_fields. rewrite (written_cocktails _ _ _ _ Hw), app_nil_r.
  split_and; try apply extends_app.
  - rewrite length_app. cbn. lia.
  - rewrite length_app. f_equal. symmetry.
    exact (Forall2_length (written_lines _ _ _ _ Hw)).
  - rewrite length_app. f_equal.
    pose proof (f_equal (@List.length _) (written_steps _ _ _ _ Hw)) as H.
    rewrite !length_map in H. rewrite H. unfold enumerate.
    rewrite <- (length_map snd), enumerate_from_snd. reflexivity.
Qed.

(** ** Garnishes *)

(** Garnish round trip.  On every well-formed database, a name is in the
    ['garnish'] list of the document that a create returns exactly when it
    is in the garnish list of the request (no name when the request has no
    metadata or no garnish list), and after the create every listed name
    is the name of a garnish. *)
Theorem create_garnish_round_trip (cocktail : CocktailCreate.t) (d : DB) :
  wf d ->
  exists doc,
    fst (create_cocktail cocktail (open d)) = Return doc /\
    (forall name,
        In name (MetadataRead.garnish (CocktailRead.metadata doc)) <->
        In name (listed (CocktailCreate.metadata cocktail) MetadataCreate.garnish)) /\
    (forall name,
        In name (listed (CocktailCreate.metadata cocktail) MetadataCreate.garnish) ->
        exists g, first_garnish name (after_create d cocktail) = Some g).
Proof.
  intros W.
  destruct (after_create_spec cocktail d) as (k & E & Hrun & _ & Hw & Hwf).
  specialize (Hwf W).
  pose proof (garnishes_of_after_create cocktail d W) as G.
  destruct (serialize_cocktail_total (after_create d cocktail)
              (new_cocktail_row cocktail d) Hwf) as (doc & Hdoc).
  exists doc. rewrite Hrun. cbn [fst]. split_and.
  - exact Hdoc.
  - intros name. unfold serialize_cocktail in Hdoc.
    destruct (traverse _ _); [|discriminate]. inversion Hdoc; subst doc.
    cbn [CocktailRead.metadata MetadataRead.garnish].
    change (Cocktail.id (new_cocktail_row cocktail d)) with (next_id (cocktail_ids d)).
    rewrite in_map_iff. split.
    + intros (g & <- & Hg). now apply G in Hg.
    + intros Hn.
      destruct (written_garnish_names _ _ _ _ Hw name Hn) as (id & g & Hfirst & _).
      pose proof (first_garnish_Some _ _ _ Hfirst) as (_ & Hname).
      exists g. split; [exact Hname|]. apply G. rewrite Hname. auto.
  - intros name Hname.
    destruct (written_garnish_names _ _ _ _ Hw name Hname) as (id & g & Hfirst & _).
    now exists g.
Qed.

Lemma create_garnish_round_trip_witness :
  exists doc,
    fst (create_cocktail mojito (open (after_create empty_db daiquiri))) = Return doc /\
    (forall name,
        In name (MetadataRead.garnish (CocktailRead.metadata doc)) <->
        In name ["Mint Sprig"]) /\
    (forall name,
        In name ["Mint Sprig"] ->
        exists g, first_garnish name
                    (after_create (after_create empty_db daiquiri) mojito) = Some g).
Proof.
  apply (create_garnish_round_trip mojito (after_create empty_db daiquiri)).
  apply wf_after_create. exact wf_empty_db.
Defined.

(** ** Relations kept statement by statement *)

Section Keeps.

Variable R : DB -> DB -> Prop.
Hypothesis R_refl : forall d, R d d.
Hypothesis R_trans : forall d1 d2 d3, R d1 d2 -> R d2 d3 -> R d1 d3.

Lemma keeps_same {A} (m : M A) :
  (forall s, txn (snd (m s)) = txn s) -> keeps R m.
Proof. intros H s. rewrite H. apply R_refl. Qed.

Lemma keeps_write (f : DB -> DB) : (forall d, R d (f d)) -> keeps R (write f).
Proof. intros H s. apply H. Qed.

Lemma keeps_bind {A B} (m : M A) (k : A -> M B) :
  keeps R m -> (forall a, keeps R (k a)) -> keeps R (bind m k).
Proof.
  intros Hm Hk s. unfold bind. specialize (Hm s).
  destruct (m s) as [[a|e] s1]; cbn [snd] in *; [|exact Hm].
  eapply R_trans; [exact Hm|apply Hk].
Qed.

Lemma keeps_for_each {A} (l : list A) (body : A -> M unit) :
  (forall a, In a l -> keeps R (body a)) -> keeps R (for_each l body).
Proof.
  induction l as [|a l IH]; intros H.
  - now apply keeps_same.
  - cbn [for_each]. apply keeps_bind; [apply H; now left|].
    intros _. apply IH. intros x Hx. apply H. now right.
Qed.

Lemma keeps_for_each_listed (metadata : option MetadataCreate.t)
    (field : MetadataCreate.t -> option (list string)) (body : string -> M unit) :
  (forall name, In name (listed metadata field) -> keeps R (body name)) ->
  keeps R (for_each_listed metadata field body).
Proof. intros H. rewrite for_each_listed_eq. now apply keeps_for_each. Qed.

Lemma keeps_refreshed {A} (o : option A) : keeps R (refreshed o).
Proof. destruct o; now apply keeps_same. Qed.

End Keeps.

Local Ltac keeps_quiet :=
  repeat first
    [ apply keeps_bind; [assumption| |intros ?]
    | apply keeps_refreshed; assumption
    | apply keeps_same; [assumption|reflexivity] ].

(** ** Vocabulary that a create adds *)

Lemma vocabulary_from_refl (cocktail : CocktailCreate.t) (d : DB) :
  vocabulary_from cocktail d d.
Proof. unfold vocabulary_from. auto. Qed.

Lemma vocabulary_from_trans (cocktail : CocktailCreate.t) (d1 d2 d3 : DB) :
  vocabulary_from cocktail d1 d2 -> vocabulary_from cocktail d2 d3 ->
  vocabulary_from cocktail d1 d3.
Proof.
  intros (Hi & Hg & Ht) (Hi' & Hg' & Ht'). unfold vocabulary_from. split_and.
  - intros i H. destruct (Hi' i H) as [H'|H']; auto.
  - intros g H. destruct (Hg' g H) as [H'|H']; auto.
  - intros t H. destruct (Ht' t H) as [H'|H']; auto.
Qed.

Lemma vocabulary_from_same (cocktail : CocktailCreate.t) (d d' : DB) :
  ingredients d' = ingredients d -> garnishes d' = garnishes d -> tags d' = tags d ->
  vocabulary_from cocktail d d'.
Proof. unfold vocabulary_from. intros -> -> ->. auto. Qed.

Lemma create_cocktail_vocabulary (cocktail : CocktailCreate.t) :
  keeps (vocabulary_from cocktail) (create_cocktail cocktail).
Proof.
  pose proof (vocabulary_from_refl cocktail) as Hr.
  pose proof (vocabulary_from_trans cocktail) as Ht.
  assert (Hw : forall f,
             (forall d, ingredients (f d) = ingredients d /\
                        garnishes (f d) = garnishes d /\ tags (f d) = tags d) ->
             keeps (vocabulary_from cocktail) (write f)).
  { intros f H. apply keeps_write. intros d. destruct (H d) as (? & ? & ?).
    now apply vocabulary_from_same. }
  unfold create_cocktail. cbv zeta.
  apply keeps_bind; [assumption| |intros new].
  { unfold db_add_cocktail. keeps_quiet. apply Hw. intros; now db_fields. }
  apply keeps_bind; [assumption|now apply keeps_same|intros _].
  apply keeps_bind; [assumption| |intros new'].
  { unfold db_refresh_cocktail. keeps_quiet. }
  apply keeps_bind; [assumption| |intros _].
  { apply keeps_for_each; [assumption|assumption|]. intros ing Hing.
    unfold handle_ingredient, ingredient_obj.
    apply keeps_bind; [assumption| |intros obj].
    - apply keeps_bind; [assumption|now apply keeps_same|intros [found|]].
      + now apply keeps_same.
      + unfold db_add_ingredient, db_commit, db_refresh_ingredient.
        apply keeps_bind; [assumption| |intros obj].
        * apply keeps_bind; [assumption|now apply keeps_same|intros d].
          apply keeps_bind; [assumption| |intros _; now apply keeps_same].
          apply keeps_write. intros d0. unfold vocabulary_from. db_fields. split_and; auto.
          intros i Hi. apply in_app_iff in Hi as [Hi|[<-|[]]]; [now left|right].
          cbn [Ingredient.name]. now apply in_map.
        * apply keeps_bind; [assumption|now apply keeps_same|intros _].
          keeps_quiet.
    - unfold db_add_cocktail_ingredient. keeps_quiet. apply Hw. intros; now db_fields. }
  apply keeps_bind; [assumption| |intros _].
  { apply keeps_for_each; [assumption|assumption|]. intros [idx text] _.
    unfold handle_instruction, db_add_instruction. keeps_quiet.
    apply Hw. intros; now db_fields. }
  apply keeps_bind; [assumption| |intros _].
  { apply keeps_for_each_listed; [assumption|assumption|]. intros name Hname.
    unfold handle_garnish, garnish_obj.
    apply keeps_bind; [assumption| |intros obj].
    - apply keeps_bind; [assumption|now apply keeps_same|intros [found|]].
      + now apply keeps_same.
      + unfold db_add_garnish, db_commit, db_refresh_garnish.
        apply keeps_bind; [assumption| |intros obj].
        * apply keeps_bind; [assumption|now apply keeps_same|intros d].
          apply keeps_bind; [assumption| |intros _; now apply keeps_same].
          apply keeps_write. intros d0. unfold vocabulary_from. db_fields. split_and; auto.
          intros g Hg. apply in_app_iff in Hg as [Hg|[<-|[]]]; [now left|now right].
        * apply keeps_bind; [assumption|now apply keeps_same|intros _].
          keeps_quiet.
    - unfold garnishes_append. apply Hw. intros d0.
      destruct (linked _ _); now db_fields. }
  assert (Htag : forall type name,
             (type = "tag" /\
              In name (listed (CocktailCreate.metadata cocktail) MetadataCreate.tags)) \/
             (type = "flavor_tag" /\
              In name (listed (CocktailCreate.metadata cocktail)
                         MetadataCreate.flavor_tags)) ->
             keeps (vocabulary_from cocktail)
               (handle_tag type (Cocktail.id new') name)).
  { intros type name Hname. unfold handle_tag, tag_obj.
    apply keeps_bind; [assumption| |intros obj].
    - apply keeps_bind; [assumption|now apply keeps_same|intros [found|]].
      + now apply keeps_same.
      + unfold db_add_tag, db_commit, db_refresh_tag.
        apply keeps_bind; [assumption| |intros obj].
        * apply keeps_bind; [assumption|now apply keeps_same|intros d].
          apply keeps_bind; [assumption| |intros _; now apply keeps_same].
          apply keeps_write. intros d0. unfold vocabulary_from. db_fields. split_and; auto.
          intros t Ht'. apply in_app_iff in Ht' as [Ht'|[<-|[]]]; [now left|right].
          cbn [Tag.name Tag.type]. destruct Hname as [[-> H]|[-> H]]; auto.
        * apply keeps_bind; [assumption|now apply keeps_same|intros _].
          keeps_quiet.
    - unfold tags_append. apply Hw. intros d0.
      destruct (linked _ _); now db_fields. }
  apply keeps_bind; [assumption| |intros _].
  { apply keeps_for_each_listed; [assumption|assumption|]. intros name Hname.
    apply Htag. left. auto. }
  apply keeps_bind; [assumption| |intros _].
  { apply keeps_for_each_listed; [assumption|assumption|]. intros name Hname.
    apply Htag. right. auto. }
  apply keeps_bind; [assumption|now apply keeps_same|intros _].
  apply keeps_bind; [assumption| |intros new''].
  { unfold db_refresh_cocktail. keeps_quiet. }
  now apply keeps_same.
Qed.

Lemma NoDup_app_disjoint {A} (l k : list A) (x : A) :
  NoDup (l ++ k) -> In x l -> In x k -> False.
Proof.
  induction l as [|a l IH]; cbn [app In]; intros H Hl Hk; [contradiction|].
  inversion H as [|? ? Ha Hnd]; subst. destruct Hl as [->|Hl].
  - apply Ha. apply in_or_app. now right.
  - now apply IH.
Qed.

Lemma grown_rows {A K} (key : A -> K) (P : A -> Prop) (old new : list A) :
  extends old new -> NoDup (map key new) ->
  (forall x, In x new -> In x old \/ P x) ->
  (forall x, In x new ->
     In x old \/ (P x /\ ~ In (key x) (map key old))) /\
  ((forall x, P x -> In (key x) (map key old)) -> new = old).
Proof.
  intros [k ->] Hnd H. rewrite map_app in Hnd.
  assert (Hk : forall x, In x k -> P x /\ ~ In (key x) (map key old)).
  { intros x Hx.
    assert (Hout : ~ In (key x) (map key old)).
    { intros Hold. apply (NoDup_app_disjoint _ _ (key x) Hnd Hold). now apply in_map. }
    split; [|exact Hout]. destruct (H x) as [Hin|HP]; [apply in_or_app; now right| |exact HP].
    exfalso. apply Hout. now apply in_map. }
  split.
  - intros x Hx. apply in_app_or in Hx as [Hx|Hx]; [now left|right; now apply Hk].
  - intros Hknown. destruct k as [|x k]; [apply app_nil_r|].
    destruct (Hk x (or_introl eq_refl)) as [HP Hout]. exfalso. apply Hout. now apply Hknown.
Qed.

(** A create adds to the vocabulary only what the request names and the
    database lacks.  On every well-formed database, a row of
    [ingredients], [garnishes] or [tags] after a create is either a row
    that was there before or carries a name of the request (an ingredient
    line's name, a listed garnish, a listed tag with type ['tag'], a listed
    flavor tag with type ['flavor_tag']) that no row carried before; and a
    table whose every requested name was already there is left exactly as
    it was. *)
Theorem create_vocabulary_growth (cocktail : CocktailCreate.t) (d : DB) :
  wf d ->
  (forall i, In i (ingredients (after_create d cocktail)) ->
     In i (ingredients d) \/
     (In (Ingredient.name i)
         (map IngredientCreate.name (CocktailCreate.ingredients cocktail)) /\
      ~ In (Ingredient.name i) (map Ingredient.name (ingredients d)))) /\
  (forall g, In g (garnishes (after_create d cocktail)) ->
     In g (garnishes d) \/
     (In (Garnish.name g)
         (listed (CocktailCreate.metadata cocktail) MetadataCreate.garnish) /\
      ~ In (Garnish.name g) (map Garnish.name (garnishes d)))) /\
  (forall t, In t (tags (after_create d cocktail)) ->
     In t (tags d) \/
     (((Tag.type t = "tag" /\
        In (Tag.name t)
           (listed (CocktailCreate.metadata cocktail) MetadataCreate.tags)) \/
       (Tag.type t = "flavor_tag" /\
        In (Tag.name t)
           (listed (CocktailCreate.metadata cocktail) MetadataCreate.flavor_tags))) /\
      ~ In (tag_key t) (map tag_key (tags d)))) /\
  ((forall line, In line (CocktailCreate.ingredients cocktail) ->
      In (IngredientCreate.name line) (map Ingredient.name (ingredients d))) ->
   ingredients (after_create d cocktail) = ingredients d) /\
  ((forall name,
      In name (listed (CocktailCreate.metadata cocktail) MetadataCreate.garnish) ->
      In name (map Garnish.name (garnishes d))) ->
   garnishes (after_create d cocktail) = garnishes d) /\
  ((forall name,
      In name (listed (CocktailCreate.metadata cocktail) MetadataCreate.tags) ->
      In (name, "tag") (map tag_key (tags d))) ->
   (forall name,
      In name (listed (CocktailCreate.metadata cocktail) MetadataCreate.flavor_tags) ->
      In (name, "flavor_tag") (map tag_key (tags d))) ->
   tags (after_create d cocktail) = tags d).
Proof.
  intros W.
  pose proof (wf_after_create d cocktail W) as W'.
  destruct (after_create_extends d cocktail) as (Ei & Eg & Et).
  pose proof (create_cocktail_vocabulary cocktail (open d)) as V.
  destruct (after_create_spec cocktail d) as (_ & _ & _ & Htxn & _).
  rewrite Htxn in V. cbn [txn open] in V. destruct V as (Vi & Vg & Vt).
  destruct (grown_rows Ingredient.name _ _ _ Ei (wf_ingredient_names _ W') Vi) as [Gi Ki].
  destruct (grown_rows Garnish.name _ _ _ Eg (wf_garnish_names _ W') Vg) as [Gg Kg].
  destruct (grown_rows tag_key _ _ _ Et (wf_tag_keys _ W') Vt) as [Gt Kt].
  split_and; try assumption.
  - intros H. apply Ki. intros i Hi. apply in_map_iff in Hi as (line & <- & Hline).
    now apply H.
  - intros H. apply Kg. intros g Hg. now apply H.
  - intros Htag Hflavor. apply Kt. intros [id name type]. unfold tag_key.
    cbn [Tag.name Tag.type]. intros [[-> H]|[-> H]]; auto.
Qed.

Lemma create_vocabulary_growth_witness :
  ingredients (after_create (after_create empty_db daiquiri) daiquiri) =
  ingredients (after_create empty_db daiquiri).
Proof.
  destruct (create_vocabulary_growth daiquiri (after_create empty_db daiquiri)
              (wf_after_create empty_db daiquiri wf_empty_db))
    as (_ & _ & _ & H & _).
  apply H. intros line Hline. vm_compute in Hline. vm_compute.
  destruct Hline as [<-|[<-|[]]]; auto.
Defined.

(** ** A request that names nothing *)

Lemma Forall2_nil_l {A B} (R : A -> B -> Prop) (l : list B) : Forall2 R [] l -> l = [].
Proof. now inversion 1. Qed.

(** Absent metadata and empty lists.  On every well-formed database, a
    request without ingredient lines and instructions whose metadata is
    absent, or lists no garnish, tag or flavor tag (a list that is absent
    and a list that is empty count alike), is not an error: the create
    writes the [cocktails] row and nothing else, and returns a document
    with empty ['ingredients'], ['instructions'], ['garnish'], ['tags'] and
    ['flavor_tags']. *)
Theorem create_bare (cocktail : CocktailCreate.t) (d : DB) :
  wf d -> bare cocktail ->
  after_create d cocktail = insert_cocktail (new_cocktail_row cocktail d) d /\
  fst (create_cocktail cocktail (open d)) =
    Return (CocktailRead.mk (next_id (cocktail_ids d))
              (CocktailCreate.title cocktail) (CocktailCreate.author cocktail)
              (CocktailCreate.description cocktail) [] []
              (MetadataRead.mk
                 (metadata_field (CocktailCreate.metadata cocktail)
                    MetadataCreate.difficulty)
                 (metadata_field (CocktailCreate.metadata cocktail)
                    MetadataCreate.glass_type)
                 [] [] []
                 (metadata_field (CocktailCreate.metadata cocktail)
                    MetadataCreate.cover_image))).
Proof.
  intros W (Hl & Hs & Hg & Ht & Hf).
  pose proof (wf_after_create d cocktail W) as W'.
  destruct (after_create_extends d cocktail) as (Ei & Eg & Et).
  pose proof (create_cocktail_vocabulary cocktail (open d)) as V.
  destruct (after_create_spec cocktail d) as (k & E & Hrun & Htxn & Hw & _).
  rewrite Htxn in V. cbn [txn open] in V. destruct V as (Vi & Vg & Vt).
  rewrite Hl in Vi. rewrite Hg in Vg. rewrite Ht, Hf in Vt.
  destruct (grown_rows Ingredient.name _ _ _ Ei (wf_ingredient_names _ W') Vi) as [_ Ki].
  destruct (grown_rows Garnish.name _ _ _ Eg (wf_garnish_names _ W') Vg) as [_ Kg].
  destruct (grown_rows tag_key _ _ _ Et (wf_tag_keys _ W') Vt) as [_ Kt].
  specialize (Ki (fun x H => match H with end)).
  specialize (Kg (fun x H => match H with end)).
  assert (Kt' : tags (after_create d cocktail) = tags d).
  { apply Kt. intros t [[_ []]|[_ []]]. }
  pose proof (written_lines _ _ _ _ Hw) as Flines. rewrite Hl in Flines.
  apply Forall2_nil_l in Flines.
  pose proof (written_steps _ _ _ _ Hw) as Fsteps. rewrite Hs in Fsteps.
  cbn [enumerate enumerate_from map] in Fsteps. apply map_eq_nil in Fsteps.
  assert (Hgl : cocktail_garnishes k = []).
  { destruct (written_garnishes _ _ _ _ Hw) as (_ & Hnew & _). rewrite Hg in Hnew.
    destruct (cocktail_garnishes k) as [|p l]; [reflexivity|].
    destruct (Hnew p (or_introl eq_refl)) as (_ & name & [] & _). }
  assert (Htl : cocktail_tags k = []).
  { destruct (written_tags _ _ _ _ Hw) as (_ & Hnew & _). rewrite Ht, Hf in Hnew.
    destruct (cocktail_tags k) as [|p l]; [reflexivity|].
    destruct (Hnew p (or_introl eq_refl)) as (_ & [(name & [] & _)|(name & [] & _)]). }
  assert (Eafter : after_create d cocktail =
                   insert_cocktail (new_cocktail_row cocktail d) d).
  { apply db_eq.
    - rewrite E. db_fields. now rewrite (written_cocktails _ _ _ _ Hw), app_nil_r.
    - exact Ki.
    - rewrite E. db_fields. now rewrite Flines, app_nil_r.
    - rewrite E. db_fields. now rewrite Fsteps, app_nil_r.
    - exact Kt'.
    - exact Kg.
    - rewrite E. db_fields. now rewrite Htl, app_nil_r.
    - rewrite E. db_fields. now rewrite Hgl, app_nil_r. }
  split; [exact Eafter|].
  rewrite Hrun. cbn [fst]. clear Eafter Ki Kg Kt Kt' Hrun Htxn.
  rewrite E in *. unfold serialize_cocktail, garnishes_of, tags_of.
  change (Cocktail.id (new_cocktail_row cocktail d)) with (next_id (cocktail_ids d)).
  rewrite (cocktail_ingredients_of_new cocktail d k W Hw).
  rewrite (instructions_of_new cocktail d k W Hw).
  db_fields. rewrite Hgl, Htl.
  rewrite (related_new (cocktail_garnishes d) [] d (wf_garnish_link_cocktail _ W))
    by (intros ? []).
  rewrite (related_new (cocktail_tags d) [] d (wf_tag_link_cocktail _ W))
    by (intros ? []).
  rewrite Flines, Fsteps. reflexivity.
Qed.

Lemma create_bare_witness :
  fst (create_cocktail neat (open (after_create empty_db daiquiri))) =
    Return (CocktailRead.mk 2 "Neat" None None [] []
              (MetadataRead.mk None None [] [] [] None)) /\
  after_create (after_create empty_db daiquiri) neat_lists =
    insert_cocktail (new_cocktail_row neat_lists (after_create empty_db daiquiri))
      (after_create empty_db daiquiri).
Proof.
  split.
  - apply (create_bare neat (after_create empty_db daiquiri)).
    + apply wf_after_create. exact wf_empty_db.
    + repeat split; reflexivity.
  - apply (create_bare neat_lists (after_create empty_db daiquiri)).
    + apply wf_after_create. exact wf_empty_db.
    + repeat split; reflexivity.
Defined.

(** ** An ingredient line without its ingredient *)

Lemma ingredient_read_raises (d : DB) (ci : CocktailIngredient.t) :
  (forall e, ingredient_read d ci = Raise e -> e = AttributeError) /\
  (ingredient_read d ci = Raise AttributeError <->
   ~ In (CocktailIngredient.ingredient_id ci) (ingredient_ids d)).
Proof.
  unfold ingredient_read, ingredient_by_id.
  destruct (find _ (ingredients d)) as [i|] eqn:E.
  - split; [discriminate|]. split; [discriminate|]. intros H. exfalso. apply H.
    apply find_some in E as [Hin Hid]. apply Z.eqb_eq in Hid. rewrite <- Hid.
    unfold ingredient_ids. now apply in_map.
  - split; [intros e H; now inversion H|]. split; [|reflexivity]. intros _ Hin.
    destruct (find_key_present Ingredient.id (ingredients d) _ Hin) as (i & Hi).
    congruence.
Qed.

Lemma traverse_raises {A B} (f : A -> Outcome B) (E : Exception) (l : list A) :
  (forall a e, f a = Raise e -> e = E) ->
  (forall e, traverse f l = Raise e -> e = E) /\
  (traverse f l = Raise E <-> exists a, In a l /\ f a = Raise E).
Proof.
  intros Hf. induction l as [|a l [IH1 IH2]]; cbn [traverse].
  - split; [discriminate|]. split; [discriminate|]. intros (a & [] & _).
  - destruct (f a) as [b|e] eqn:Ea.
    + destruct (traverse f l) as [bs|e] eqn:El.
      * split; [discriminate|]. split; [discriminate|].
        intros (x & [<-|Hx] & Hr); [congruence|].
        assert (X : @Raise (list B) E = Raise E) by reflexivity.
        destruct IH2 as [_ IH2]. discriminate IH2. now exists x.
      * split; [intros e' H; inversion H; subst; now apply IH1|].
        split.
        -- intros H. inversion H; subst. destruct IH2 as [IH2 _].
           destruct (IH2 eq_refl) as (x & Hx & Hr). exists x. split; [now right|exact Hr].
        -- intros _. f_equal. now apply IH1.
    + pose proof (Hf a e Ea). subst e.
      split; [intros e' H; now inversion H|]. split; [|reflexivity].
      intros _. exists a. split; [now left|exact Ea].
Qed.

(** A dangling ingredient reference fails the read.  For any database and
    any cocktail of which some ingredient line references an ingredient
    that does not exist: [serialize_cocktail] raises [AttributeError] (the
    ingredient entries are the first part of the document that can fail);
    [get_cocktail] on that cocktail raises this error, rather than return
    a document or the 404; and [get_cocktails] returns no listing. *)
Theorem serialize_cocktail_dangling (d : DB) (c : Cocktail.t) :
  (exists ci, In ci (cocktail_ingredients_of (Cocktail.id c) d) /\
              ~ In (CocktailIngredient.ingredient_id ci) (ingredient_ids d)) ->
  serialize_cocktail d c = Raise AttributeError /\
  (cocktail_by_id (Cocktail.id c) d = Some c ->
   get_cocktail (Cocktail.id c) (open d) = (Raise AttributeError, open d)) /\
  (In c (cocktails d) ->
   forall docs, fst (get_cocktails (open d)) <> Return docs).
Proof.
  intros (ci & Hci & Hout).
  assert (Hread : forall ci e, ingredient_read d ci = Raise e -> e = AttributeError).
  { intros ci'. apply ingredient_read_raises. }
  assert (Hser : forall c' e, serialize_cocktail d c' = Raise e -> e = AttributeError).
  { intros c' e. unfold serialize_cocktail.
    destruct (traverse_raises (ingredient_read d) AttributeError
                (cocktail_ingredients_of (Cocktail.id c') d) Hread) as [T _].
    destruct (traverse (ingredient_read d) (cocktail_ingredients_of (Cocktail.id c') d))
      as [l|e'] eqn:E; intros H; [discriminate H|].
    inversion H; subst. now apply T. }
  assert (Hr : serialize_cocktail d c = Raise AttributeError).
  { unfold serialize_cocktail.
    destruct (traverse_raises (ingredient_read d) AttributeError
                (cocktail_ingredients_of (Cocktail.id c) d) Hread) as [_ [_ T]].
    rewrite T; [reflexivity|].
    exists ci. split; [exact Hci|]. now apply ingredient_read_raises. }
  split_and.
  - exact Hr.
  - intros Hfound. unfold get_cocktail, first_cocktail, bind, read, ret, lift.
    cbn [txn open]. rewrite Hfound. unfold open. cbn [txn]. now rewrite Hr.
  - intros Hc docs. unfold get_cocktails, lift. cbn [txn open fst].
    destruct (traverse_raises (serialize_cocktail d) AttributeError (cocktails d) Hser)
      as [_ [_ T]].
    rewrite T; [discriminate|]. now exists c.
Qed.

Lemma serialize_cocktail_dangling_witness :
  serialize_cocktail dangling_db (Cocktail.mk 1 "Ghost" None None None None None) =
    Raise AttributeError /\
  get_cocktail 1 (open dangling_db) = (Raise AttributeError, open dangling_db).
Proof.
  destruct (serialize_cocktail_dangling dangling_db
              (Cocktail.mk 1 "Ghost" None None None None None))
    as (Hser & Hget & _).
  - exists (CocktailIngredient.mk 1 1 7 None None None). split.
    + vm_compute. now left.
    + vm_compute. intros [].
  - split; [exact Hser|]. apply Hget. reflexivity.
Defined.

(** ** Sorting the steps *)

Lemma insert_by_step_number_perm (x : Instruction.t) (l : list Instruction.t) :
  Permutation (x :: l) (insert_by_step_number x l).
Proof.
  induction l as [|y l IH]; cbn [insert_by_step_number]; [reflexivity|].
  destruct (Instruction.step_number x <=? Instruction.step_number y); [reflexivity|].
  rewrite perm_swap. now constructor.
Qed.

Lemma insert_by_step_number_sorted (x : Instruction.t) (l : list Instruction.t) :
  StronglySorted
    (fun a b => Instruction.step_number a <= Instruction.step_number b) l ->
  StronglySorted
    (fun a b => Instruction.step_number a <= Instruction.step_number b)
    (insert_by_step_number x l).
Proof.
  induction 1 as [|y l Hs IH Hy]; cbn [insert_by_step_number].
  - constructor; constructor.
  - destruct (Z.leb_spec (Instruction.step_number x) (Instruction.step_number y)).
    + constructor; [now constructor|]. constructor; [assumption|].
      eapply Forall_impl; [|exact Hy]. intros z Hz. cbn beta in Hz. lia.
    + constructor; [exact IH|].
      apply Forall_forall. intros z Hz.
      apply (Permutation_in _ (Permutation_sym (insert_by_step_number_perm x l))) in Hz.
      destruct Hz as [<-|Hz]; [lia|].
      rewrite Forall_forall in Hy. now apply Hy.
Qed.

Lemma insert_by_step_number_stable (n : Z) (x : Instruction.t) (l : list Instruction.t) :
  filter (fun i => Z.eqb (Instruction.step_number i) n) (insert_by_step_number x l) =
  filter (fun i => Z.eqb (Instruction.step_number i) n) (x :: l).
Proof.
  induction l as [|y l IH]; cbn [insert_by_step_number]; [reflexivity|].
  destruct (Z.leb_spec (Instruction.step_number x) (Instruction.step_number y));
    [reflexivity|].
  cbn [filter] in *. rewrite IH.
  destruct (Z.eqb_spec (Instruction.step_number y) n),
           (Z.eqb_spec (Instruction.step_number x) n); try reflexivity. lia.
Qed.

(** The steps of a document ascend.  Whatever the order and the numbering
    of the stored steps, the ['instructions'] of a document are the texts
    of the cocktail's steps (each step once) in ascending [step_number],
    steps with the same number in storage order. *)
Theorem document_instructions_sorted (d : DB) (c : Cocktail.t) (doc : CocktailRead.t) :
  serialize_cocktail d c = Return doc ->
  exists rows,
    CocktailRead.instructions doc = map Instruction.instruction_text rows /\
    Permutation (instructions_of (Cocktail.id c) d) rows /\
    StronglySorted
      (fun a b => Instruction.step_number a <= Instruction.step_number b) rows /\
    (forall n,
        filter (fun i => Z.eqb (Instruction.step_number i) n) rows =
        filter (fun i => Z.eqb (Instruction.step_number i) n)
               (instructions_of (Cocktail.id c) d)).
Proof.
  intros Hdoc. exists (sorted_by_step_number (instructions_of (Cocktail.id c) d)).
  split.
  - unfold serialize_cocktail in Hdoc. destruct (traverse _ _); [|discriminate].
    now inversion Hdoc.
  - generalize (instructions_of (Cocktail.id c) d) as l.
    unfold sorted_by_step_number.
    induction l as [|x l (IHp & IHs & IHf)]; cbn [fold_right].
    + split_and; [reflexivity|constructor|reflexivity].
    + split_and.
      * rewrite <- insert_by_step_number_perm. now constructor.
      * now apply insert_by_step_number_sorted.
      * intros n. rewrite insert_by_step_number_stable. cbn [filter].
        now rewrite IHf.
Qed.

Lemma document_instructions_sorted_witness :
  exists rows,
    ["Stir"; "Pour"; "Serve"] = map Instruction.instruction_text rows /\
    Permutation
      (instructions_of 1
         (mkDB [Cocktail.mk 1 "Ghost" None None None None None] [] []
               [Instruction.mk 1 1 3 "Serve"; Instruction.mk 2 1 1 "Stir";
                Instruction.mk 3 1 2 "Pour"] [] [] [] [])) rows /\
    StronglySorted
      (fun a b => Instruction.step_number a <= Instruction.step_number b) rows /\
    (forall n,
        filter (fun i => Z.eqb (Instruction.step_number i) n) rows =
        filter (fun i => Z.eqb (Instruction.step_number i) n)
          (instructions_of 1
             (mkDB [Cocktail.mk 1 "Ghost" None None None None None] [] []
                   [Instruction.mk 1 1 3 "Serve"; Instruction.mk 2 1 1 "Stir";
                    Instruction.mk 3 1 2 "Pour"] [] [] [] []))).
Proof.
  apply (document_instructions_sorted
           (mkDB [Cocktail.mk 1 "Ghost" None None None None None] [] []
                 [Instruction.mk 1 1 3 "Serve"; Instruction.mk 2 1 1 "Stir";
                  Instruction.mk 3 1 2 "Pour"] [] [] [] [])
           (Cocktail.mk 1 "Ghost" None None None None None)
           (CocktailRead.mk 1 "Ghost" None None [] ["Stir"; "Pour"; "Serve"]
              (MetadataRead.mk None None [] [] [] None))).
  vm_compute. reflexivity.
Defined.

(** ** Step numbers of every stored cocktail *)

Lemma instructions_of_after_create_old (cocktail : CocktailCreate.t) (d : DB)
    (c : Cocktail.t) :
  In c (cocktails d) ->
  instructions_of (Cocktail.id c) (after_create d cocktail) =
  instructions_of (Cocktail.id c) d.
Proof.
  intros Hc. destruct (after_create_spec cocktail d) as (k & -> & _ & _ & Hw & _).
  unfold instructions_of. db_fields.
  rewrite filter_app, (filter_none _ (instructions k)); [apply app_nil_r|].
  intros row Hrow. apply Z.eqb_neq.
  pose proof (written_steps _ _ _ _ Hw) as H.
  apply (in_map instruction_columns) in Hrow. rewrite H in Hrow.
  apply in_map_iff in Hrow as (p & Ep & _). unfold instruction_columns in Ep.
  injection Ep as Hcid _ _. intros E.
  apply (next_id_fresh (cocktail_ids d)).
  replace (next_id (cocktail_ids d)) with (Cocktail.id c) by congruence.
  unfold cocktail_ids. now apply in_map.
Qed.

Lemma enumerate_from_positions {A B} (l : list A) :
  forall (l' : list B) start,
    List.length l = List.length l' ->
    map (fun p => fst p + 1) (enumerate_from start l) =
    map fst (enumerate_from (start + 1) l').
Proof.
  induction l as [|a l IH]; intros [|b l'] start H; try discriminate; [reflexivity|].
  cbn [enumerate_from map fst]. f_equal. apply IH. now inversion H.
Qed.

(** Steps stay numbered 1, 2, 3, ...  A create on a well-formed database
    in which the steps of every cocktail carry, in storage order, the
    numbers 1, 2, 3, ... without gap or repeat leaves a database of which
    the same is true, the new cocktail included; it is therefore true
    after any sequence of creates from the empty database. *)
Theorem create_keeps_steps_contiguous :
  (forall d cocktail,
      wf d -> contiguous_steps d -> contiguous_steps (after_create d cocktail)) /\
  (forall l, contiguous_steps (after_creates empty_db l)).
Proof.
  assert (Hstep : forall d cocktail,
             wf d -> contiguous_steps d -> contiguous_steps (after_create d cocktail)).
  { intros d cocktail W H c Hc.
    destruct (new_cocktail_row_stored cocktail d) as (k & Hrows & E & Hw).
    rewrite Hrows in Hc. apply in_app_or in Hc as [Hc|[<-|[]]].
    - rewrite (instructions_of_after_create_old cocktail d c Hc). now apply H.
    - change (Cocktail.id (new_cocktail_row cocktail d)) with (next_id (cocktail_ids d)).
      rewrite E in *. rewrite (instructions_of_new cocktail d k W Hw).
      pose proof (written_steps _ _ _ _ Hw) as Hs.
      assert (Hlen : List.length (enumerate (CocktailCreate.instructions cocktail)) =
                     List.length (instructions k)).
      { rewrite <- (length_map instruction_columns (instructions k)), Hs.
        now rewrite length_map. }
      transitivity (map (fun x => snd (fst x)) (map instruction_columns (instructions k))).
      + rewrite map_map. reflexivity.
      + rewrite Hs, map_map. cbn [fst snd]. unfold enumerate.
        apply (enumerate_from_positions (CocktailCreate.instructions cocktail)
                 (instructions k) 0).
        unfold enumerate in Hlen. rewrite <- Hlen.
        rewrite <- (length_map snd (enumerate_from 0 _)), enumerate_from_snd.
        reflexivity. }
  split; [exact Hstep|].
  intros l. unfold after_creates.
  assert (G : forall d, wf d -> contiguous_steps d ->
                        contiguous_steps (fold_left after_create l d)).
  { induction l as [|c l IH]; intros d W H; cbn [fold_left]; [exact H|].
    apply IH; [now apply wf_after_create|now apply Hstep]. }
  apply G; [exact wf_empty_db|]. intros c [].
Qed.

Lemma create_keeps_steps_contiguous_witness :
  contiguous_steps (after_create (after_create empty_db daiquiri) mojito).
Proof.
  apply (proj1 create_keeps_steps_contiguous (after_create empty_db daiquiri) mojito).
  - apply wf_after_create. exact wf_empty_db.
  - apply (proj1 create_keeps_steps_contiguous empty_db daiquiri).
    + exact wf_empty_db.
    + intros c [].
Defined.

(** ** The states a create makes durable *)

Lemma extends_db_refl (d : DB) : extends_db d d.
Proof. exists empty_db. symmetry. apply db_app_empty. Qed.

Lemma extends_db_trans (d1 d2 d3 : DB) :
  extends_db d1 d2 -> extends_db d2 d3 -> extends_db d1 d3.
Proof. intros [k ->] [j ->]. exists (db_app k j). db_same. Qed.

Lemma StronglySorted_app {A} (R : A -> A -> Prop) (l k : list A) :
  StronglySorted R l -> StronglySorted R k ->
  (forall x y, In x l -> In y k -> R x y) ->
  StronglySorted R (l ++ k).
Proof.
  intros Sl Sk H. induction Sl as [|x l Sl IH Hx]; [exact Sk|].
  cbn [app]. constructor.
  - apply IH. intros a b Ha. apply H. now right.
  - apply Forall_app. split; [exact Hx|].
    apply Forall_forall. intros y Hy. apply H; [now left|exact Hy].
Qed.

Lemma grows_refl (s : Session) : grows s s.
Proof.
  split; [apply extends_db_refl|]. exists []. split_and.
  - now rewrite app_nil_r.
  - constructor.
  - constructor.
Qed.

Lemma grows_trans (s1 s2 s3 : Session) : grows s1 s2 -> grows s2 s3 -> grows s1 s3.
Proof.
  intros (E12 & cs & C12 & S12 & F12) (E23 & cs' & C23 & S23 & F23).
  split; [now apply (extends_db_trans _ (txn s2))|].
  exists (cs ++ cs'). split_and.
  - rewrite C23, C12. now rewrite app_assoc.
  - apply StronglySorted_app; [exact S12|exact S23|].
    intros x y Hx Hy. rewrite Forall_forall in F12, F23.
    apply (extends_db_trans _ (txn s2)); [now apply F12|now apply F23].
  - apply Forall_app. split.
    + eapply Forall_impl; [|exact F12]. intros x [H1 H2].
      split; [exact H1|now apply (extends_db_trans _ (txn s2))].
    + eapply Forall_impl; [|exact F23]. intros x [H1 H2].
      split; [now apply (extends_db_trans _ (txn s2))|exact H2].
Qed.

Lemma grows_quiet {A} (m : M A) :
  (forall s, snd (m s) = s) -> keeps_session grows m.
Proof. intros H s. rewrite H. apply grows_refl. Qed.

Lemma grows_write (f : DB -> DB) :
  (forall d, extends_db d (f d)) -> keeps_session grows (write f).
Proof.
  intros H s. unfold write. cbn [snd]. split; [apply H|].
  exists []. cbn [commits]. split_and; [now rewrite app_nil_r|constructor|constructor].
Qed.

Lemma grows_commit : keeps_session grows db_commit.
Proof.
  intros s. unfold db_commit. cbn [snd]. split; [apply extends_db_refl|].
  exists [txn s]. cbn [commits txn]. split_and.
  - reflexivity.
  - constructor; constructor.
  - constructor; [|constructor]. split; apply extends_db_refl.
Qed.

Lemma grows_bind {A B} (m : M A) (k : A -> M B) :
  keeps_session grows m -> (forall a, keeps_session grows (k a)) ->
  keeps_session grows (bind m k).
Proof.
  intros Hm Hk s. unfold bind. specialize (Hm s).
  destruct (m s) as [[a|e] s1]; cbn [snd] in *; [|exact Hm].
  eapply grows_trans; [exact Hm|apply Hk].
Qed.

Lemma grows_for_each {A} (l : list A) (body : A -> M unit) :
  (forall a, keeps_session grows (body a)) -> keeps_session grows (for_each l body).
Proof.
  intros H. induction l as [|a l IH]; cbn [for_each].
  - now apply grows_quiet.
  - apply grows_bind; [apply H|]. intros _. exact IH.
Qed.

Lemma grows_insert :
  (forall r, keeps_session grows (write (insert_cocktail r))) /\
  (forall r, keeps_session grows (write (insert_ingredient r))) /\
  (forall r, keeps_session grows (write (insert_cocktail_ingredient r))) /\
  (forall r, keeps_session grows (write (insert_instruction r))) /\
  (forall r, keeps_session grows (write (insert_tag r))) /\
  (forall r, keeps_session grows (write (insert_garnish r))) /\
  (forall r, keeps_session grows (write (insert_cocktail_tag r))) /\
  (forall r, keeps_session grows (write (insert_cocktail_garnish r))).
Proof.
  split_and; intros r; apply grows_write; intros d.
  - exists (mkDB [r] [] [] [] [] [] [] []). db_same.
  - exists (mkDB [] [r] [] [] [] [] [] []). db_same.
  - exists (mkDB [] [] [r] [] [] [] [] []). db_same.
  - exists (mkDB [] [] [] [r] [] [] [] []). db_same.
  - exists (mkDB [] [] [] [] [r] [] [] []). db_same.
  - exists (mkDB [] [] [] [] [] [r] [] []). db_same.
  - exists (mkDB [] [] [] [] [] [] [r] []). db_same.
  - exists (mkDB [] [] [] [] [] [] [] [r]). db_same.
Qed.

Lemma grows_append :
  (forall cid obj, keeps_session grows (garnishes_append cid obj)) /\
  (forall cid obj, keeps_session grows (tags_append cid obj)).
Proof.
  split; intros cid obj; apply grows_write; intros d; destruct (linked _ _);
    try apply extends_db_refl.
  - exists (mkDB [] [] [] [] [] [] [] [(cid, Garnish.id obj)]). db_same.
  - exists (mkDB [] [] [] [] [] [] [(cid, Tag.id obj)] []). db_same.
Qed.

Lemma grows_refreshed {A} (o : option A) : keeps_session grows (refreshed o).
Proof. destruct o; apply grows_quiet; intros s; reflexivity. Qed.

Lemma grows_read {A} (f : DB -> A) : keeps_session grows (read f).
Proof. apply grows_quiet. intros s. reflexivity. Qed.

Lemma grows_ret {A} (a : A) : keeps_session grows (ret a).
Proof. apply grows_quiet. intros s. reflexivity. Qed.

Local Ltac grows_step :=
  first
    [ apply grows_bind; [|intros ?]
    | apply grows_commit
    | apply grows_read
    | apply grows_ret
    | apply grows_refreshed
    | apply grows_for_each; intros ?
    | apply grows_insert
    | apply grows_append
    | apply grows_quiet; intros ?; reflexivity ].

Lemma create_cocktail_grows (cocktail : CocktailCreate.t) :
  keeps_session grows (create_cocktail cocktail).
Proof.
  unfold create_cocktail. cbv zeta.
  repeat first
    [ grows_step
    | rewrite for_each_listed_eq
    | progress unfold db_add_cocktail, db_refresh_cocktail,
        handle_ingredient, handle_instruction, handle_garnish,
        handle_tag, ingredient_obj, garnish_obj, tag_obj, db_add_ingredient,
        db_add_garnish, db_add_tag, db_add_cocktail_ingredient, db_add_instruction,
        db_refresh_ingredient, db_refresh_garnish, db_refresh_tag
    | match goal with
      | |- keeps_session grows (match ?o with Some _ => _ | None => _ end) => destruct o
      | |- keeps_session grows (let (_, _) := ?p in _) => destruct p
      end ].
Qed.

(** ** Commits (C3) *)

(** The first [db.commit()] of the daiquiri on the empty database makes a
    cocktail durable that has no ingredient line, no step and no link. *)
Example daiquiri_first_commit :
  hd_error (commits (snd (create_cocktail daiquiri (open empty_db)))) =
  Some (mkDB [Cocktail.mk 1 "Daiquiri" None None None None None] [] [] [] [] [] [] []).
Proof. vm_compute. reflexivity. Qed.

Example daiquiri_commits :
  List.length (commits (snd (create_cocktail daiquiri (open empty_db)))) = 7%nat.
Proof. vm_compute. reflexivity. Qed.

(** C3, refuted as stated.  The create of the daiquiri on the empty
    database is not all-or-nothing: the state its first commit makes
    durable is not the state that holds the whole recipe. *)
Lemma create_not_all_or_nothing : ~ all_or_nothing daiquiri empty_db.
Proof.
  intros H.
  assert (Hin : In (mkDB [Cocktail.mk 1 "Daiquiri" None None None None None]
                      [] [] [] [] [] [] [])
                   (commits (snd (create_cocktail daiquiri (open empty_db))))).
  { vm_compute. left. reflexivity. }
  apply H in Hin. apply (f_equal instructions) in Hin.
  vm_compute in Hin. discriminate Hin.
Qed.

(** C3, as the code has it.  For every request and every database:
    (1) [create_cocktail] commits at least twice; its first commit makes
    durable the database it started from plus the [cocktails] row alone,
    its last commit the final state of the session, which is what is
    durable when the call returns; (2) the committed states, in the order
    of the commits, only grow: each holds every row of the ones before
    it, unchanged and in place; (3) the final state holds one
    [cocktail_ingredients] row per ingredient line and one [instructions]
    row per instruction more than the database held, so (4) whenever the
    request has an ingredient line or an instruction the create is not
    all-or-nothing: the first state it makes durable, which a reader can
    see, holds the cocktail without them. *)
Theorem create_commits (cocktail : CocktailCreate.t) (d : DB) :
  (exists mid,
      commits (snd (create_cocktail cocktail (open d))) =
        insert_cocktail (new_cocktail_row cocktail d) d
        :: mid ++ [txn (snd (create_cocktail cocktail (open d)))]) /\
  after_create d cocktail = txn (snd (create_cocktail cocktail (open d))) /\
  StronglySorted extends_db (commits (snd (create_cocktail cocktail (open d)))) /\
  List.length (cocktail_ingredients (after_create d cocktail)) =
    (List.length (cocktail_ingredients d) +
     List.length (CocktailCreate.ingredients cocktail))%nat /\
  List.length (instructions (after_create d cocktail)) =
    (List.length (instructions d) +
     List.length (CocktailCreate.instructions cocktail))%nat /\
  (CocktailCreate.ingredients cocktail <> [] \/
   CocktailCreate.instructions cocktail <> [] ->
   ~ all_or_nothing cocktail d).
Proof.
  destruct (create_cocktail_grows cocktail (open d)) as (_ & cs & C & S & _).
  cbn [commits open app] in C.
  destruct (create_cocktail_run cocktail d) as (k & mid & Hrun & _).
  cbv zeta in Hrun.
  destruct (after_create_spec cocktail d) as (k' & E & _ & Htxn & Hw & _).
  assert (Hlines : List.length (cocktail_ingredients (after_create d cocktail)) =
                   (List.length (cocktail_ingredients d) +
                    List.length (CocktailCreate.ingredients cocktail))%nat).
  { rewrite E. db_fields. rewrite length_app. f_equal. symmetry.
    rewrite E in Hw. exact (Forall2_length (written_lines _ _ _ _ Hw)). }
  assert (Hsteps : List.length (instructions (after_create d cocktail)) =
                   (List.length (instructions d) +
                    List.length (CocktailCreate.instructions cocktail))%nat).
  { rewrite E. db_fields. rewrite length_app. f_equal.
    pose proof (f_equal (@List.length _) (written_steps _ _ _ _ Hw)) as H.
    rewrite !length_map in H. rewrite H. unfold enumerate.
    rewrite <- (length_map snd), enumerate_from_snd. reflexivity. }
  split_and.
  - exists mid. rewrite Hrun. reflexivity.
  - now rewrite Htxn.
  - rewrite C. exact S.
  - exact Hlines.
  - exact Hsteps.
  - intros Hne A.
    assert (Hin : In (insert_cocktail (new_cocktail_row cocktail d) d)
                    (commits (snd (create_cocktail cocktail (open d))))).
    { rewrite Hrun. cbn [snd commits]. now left. }
    apply A in Hin. rewrite Htxn in Hin. rewrite <- Hin in Hlines, Hsteps.
    cbn [cocktail_ingredients instructions insert_cocktail] in Hlines, Hsteps.
    destruct Hne as [Hne|Hne]; apply Hne.
    + destruct (CocktailCreate.ingredients cocktail); [reflexivity|].
      cbn [List.length] in Hlines. lia.
    + destruct (CocktailCreate.instructions cocktail); [reflexivity|].
      cbn [List.length] in Hsteps. lia.
Qed.

Lemma create_commits_witness :
  ~ all_or_nothing mojito (after_create empty_db daiquiri).
Proof.
  apply (create_commits mojito (after_create empty_db daiquiri)).
  left. discriminate.
Defined.

(** The durable states of a create only grow.  Whatever the request and
    the database, the states that [create_cocktail] commits, taken in the
    order of the commits, form a chain in which every state holds all the
    rows of the states before it, unchanged and in place: nothing that a
    reader has seen committed is ever changed or taken back.  Every one of
    them holds the database as it was before the call followed by the new
    [cocktails] row, and is itself held by the state that is durable when
    the call returns. *)
Theorem create_commits_grow (cocktail : CocktailCreate.t) (d : DB) :
  StronglySorted extends_db (commits (snd (create_cocktail cocktail (open d)))) /\
  (forall seen,
      In seen (commits (snd (create_cocktail cocktail (open d)))) ->
      extends_db (insert_cocktail (new_cocktail_row cocktail d) d) seen /\
      extends_db seen (after_create d cocktail)).
Proof.
  destruct (create_cocktail_grows cocktail (open d)) as (_ & cs & C & S & F).
  cbn [commits open app] in C. rewrite C.
  destruct (create_cocktail_run cocktail d) as (k & mid & Hrun & _).
  cbv zeta in Hrun.
  destruct (after_create_spec cocktail d) as (_ & _ & _ & Htxn & _).
  rewrite Htxn in F.
  rewrite Hrun in C. cbn [snd commits] in C.
  split; [exact S|]. intros seen Hseen. split.
  - rewrite <- C in S, Hseen. inversion S as [|x l Sl Hx]; subst.
    destruct Hseen as [<-|Hseen]; [apply extends_db_refl|].
    rewrite Forall_forall in Hx. now apply Hx.
  - rewrite Forall_forall in F. now apply F.
Qed.
